(** * Interactive MCQ Trainer: the parsing, matching, interaction and
      scoring logic of [script.js], embedded and verified.

    The development follows the order of the script: string primitives of
    the JavaScript runtime that the script relies on, the two line-oriented
    parsers, the matcher inside [processAndRender], the DOM card built by
    [renderQuestion], the interaction handler [handleInteraction], and the
    scoreboard.

    Modelling conventions.
    - A JavaScript string is a [string]: one [ascii] per UTF-16 code unit,
      which covers the texts whose code units are below 256.  On that range
      the white space of [trim] and of the regular expression class [\s] is
      TAB, LF, VT, FF, CR, SPACE and NBSP, and the line terminators that
      [.] refuses are LF and CR.
    - A JavaScript [Map] keyed by strings is a [gmap string _].
    - Objects mutated in place are threaded through explicitly.
    - Numbers holding counters are [nat]; the one genuinely fractional
      computation, the percentage, is done on binary64 with the kernel's
      primitive floats.

    Beside [script.js] the development covers the two pure string
    functions the page relies on: [ContentRenderer.preprocessMath] of
    [renderer.js], through which every question, choice and explanation
    text goes before it is shown, and [cleanGeneratedText] of
    [gemini.js]. *)

From Stdlib Require Import ZArith Ascii String PrimFloat FloatOps SpecFloat Uint63
  FloatAxioms.
From stdpp Require Import base list strings gmap.

Local Open Scope string_scope.
Local Open Scope list_scope.
Local Open Scope nat_scope.

(* ===================================================================== *)
(** ** JavaScript string primitives used by the script *)
(* ===================================================================== *)

Module JS.

Definition LF : ascii := ascii_of_nat 10.
Definition CR : ascii := ascii_of_nat 13.

Definition code (c : ascii) : nat := nat_of_ascii c.

Definition between (lo hi : nat) (c : ascii) : bool :=
  (lo <=? code c)%nat && (code c <=? hi)%nat.

(** [\d] *)
Definition isDigit (c : ascii) : bool := between 48 57 c.

(** [[A-Z]] without the [i] flag *)
Definition isUpper (c : ascii) : bool := between 65 90 c.

(** [[A-Z]] under the [i] flag: both cases of the ASCII letters. *)
Definition isLetter (c : ascii) : bool := between 65 90 c || between 97 122 c.

(** [\s], and the characters [String.prototype.trim] strips. *)
Definition isSpace (c : ascii) : bool :=
  between 9 13 c || (code c =? 32)%nat || (code c =? 160)%nat.

(** The characters [.] does not match. *)
Definition isLineTerminator (c : ascii) : bool :=
  (code c =? 10)%nat || (code c =? 13)%nat.

(** [[\.:\s]] *)
Definition isSep (c : ascii) : bool :=
  (code c =? 46)%nat || (code c =? 58)%nat || isSpace c.

(** [[\.\)]] *)
Definition isChoiceMark (c : ascii) : bool :=
  (code c =? 46)%nat || (code c =? 41)%nat.

(** Upper-casing of one code unit.  The script applies [toUpperCase] only
    to captures made of ASCII letters, commas and white space; on those it
    moves [a-z] to [A-Z] and keeps everything else. *)
Definition upperChar (c : ascii) : ascii :=
  if between 97 122 c then ascii_of_nat (code c - 32) else c.

Fixpoint toUpperCase (s : string) : string :=
  match s with
  | EmptyString => EmptyString
  | String c r => String (upperChar c) (toUpperCase r)
  end.

Definition isEmpty (s : string) : bool :=
  match s with EmptyString => true | String _ _ => false end.

Fixpoint takeWhile (p : ascii -> bool) (s : string) : string :=
  match s with
  | EmptyString => EmptyString
  | String c r => if p c then String c (takeWhile p r) else EmptyString
  end.

Fixpoint dropWhile (p : ascii -> bool) (s : string) : string :=
  match s with
  | EmptyString => EmptyString
  | String c r => if p c then dropWhile p r else s
  end.

Fixpoint trimEnd (s : string) : string :=
  match s with
  | EmptyString => EmptyString
  | String c r =>
      let r' := trimEnd r in
      if isSpace c && isEmpty r' then EmptyString else String c r'
  end.

(** [s.trim()] *)
Definition trim (s : string) : string := trimEnd (dropWhile isSpace s).

(** The final capture, any characters: greedy, up to the first line
    terminator. *)
Definition dotStar (s : string) : string :=
  takeWhile (fun c => negb (isLineTerminator c)) s.

(** Matching a literal under the [i] flag: [Some rest] when [s] starts
    with [pat] up to the case of ASCII letters. *)
Fixpoint stripPrefixCI (pat s : string) : option string :=
  match pat with
  | EmptyString => Some s
  | String p pat' =>
      match s with
      | EmptyString => None
      | String c r =>
          if Ascii.eqb (upperChar p) (upperChar c) then stripPrefixCI pat' r
          else None
      end
  end.

(** [text.split(/\r?\n/)]: a line ends at LF; a CR directly before that LF
    belongs to the separator; any other CR stays in the line. *)
Fixpoint splitLines (s : string) : list string :=
  match s with
  | EmptyString => [EmptyString]
  | String c r =>
      if Ascii.eqb c LF then EmptyString :: splitLines r
      else
        let keep :=
          match splitLines r with
          | l :: ls => String c l :: ls
          | [] => [String c EmptyString]
          end in
        if Ascii.eqb c CR then
          match r with
          | String c2 r2 =>
              if Ascii.eqb c2 LF then EmptyString :: splitLines r2 else keep
          | EmptyString => keep
          end
        else keep
  end.

(** [s.split(',')] *)
Fixpoint splitComma (s : string) : list string :=
  match s with
  | EmptyString => [EmptyString]
  | String c r =>
      if Ascii.eqb c ","%char then EmptyString :: splitComma r
      else
        match splitComma r with
        | l :: ls => String c l :: ls
        | [] => [String c EmptyString]
        end
  end.

End JS.

(* ===================================================================== *)
(** ** Data model *)
(* ===================================================================== *)

(** The two values of [explicitType] and [type]: the strings ['SINGLE']
    and ['MULTIPLE'] (the upper-cased tag capture can be nothing else). *)
Inductive QType := SINGLE | MULTIPLE.

(** The values of [status]. *)
Inductive Status := ungraded | unanswered | correct | incorrect.

#[global] Instance QType_eq_dec : EqDecision QType.
Proof. solve_decision. Defined.
#[global] Instance Status_eq_dec : EqDecision Status.
Proof. solve_decision. Defined.

(** [{ key, text }] *)
Record Choice := mkChoice {
  c_key : string;
  c_text : string
}.

(** The object [parseQuestionsText] builds:
    [{ id, text, explicitType, choices, rawLine }]. *)
Record ParsedQuestion := mkParsed {
  p_id : string;
  p_text : string;
  p_explicitType : option QType;
  p_choices : list Choice;
  p_rawLine : nat
}.

(** The object [parseAnswersText] builds:
    [{ id, correctKeys, explanation }]. *)
Record Answer := mkAnswer {
  a_id : string;
  a_correctKeys : list string;
  a_explanation : string
}.

(** A question object once [processAndRender] has attached the answer
    fields, the resolved type and the status.  [userSelectedKeys] is
    absent ([None]) until [handleInteraction] assigns it. *)
Record Question := mkQuestion {
  q_id : string;
  q_text : string;
  explicitType : option QType;
  choices : list Choice;
  rawLine : nat;
  correctKeys : list string;
  explanation : string;
  type : QType;
  status : Status;
  userSelectedKeys : option (list string)
}.

(** [state.stats] *)
Record Stats := mkStats {
  total : nat;
  stat_correct : nat;
  stat_incorrect : nat
}.

#[global] Instance Choice_eq_dec : EqDecision Choice.
Proof. solve_decision. Defined.
#[global] Instance Answer_eq_dec : EqDecision Answer.
Proof. solve_decision. Defined.

(* ===================================================================== *)
(** ** The parsers *)
(* ===================================================================== *)

Module Parser.
Import JS.

(** The optional group [(?:\[(Single|Multiple)\])?] under the [i] flag.
    The capture is upper-cased by the caller, so only which of the two
    words matched is kept. *)
Definition matchTag (s : string) : option (QType * string) :=
  match stripPrefixCI "[Single]" s with
  | Some r => Some (SINGLE, r)
  | None =>
      match stripPrefixCI "[Multiple]" s with
      | Some r => Some (MULTIPLE, r)
      | None => None
      end
  end.

(** [qStartRegex]: an optional Q, digits, separators, an optional tag,
    white space and the rest of the line, matched from the start of the
    line under the [i] flag.  The result is (group 1, group 2, group 3).
    Everything after the digits can match the empty string, so the match
    succeeds as soon as a digit follows the optional Q. *)
Definition qStartRegex (line : string) : option (string * option QType * string) :=
  let s0 :=
    match line with
    | String c r => if Ascii.eqb (upperChar c) "Q"%char then r else line
    | EmptyString => line
    end in
  let digits := takeWhile isDigit s0 in
  if isEmpty digits then None
  else
    let s1 := dropWhile isSep (dropWhile isDigit s0) in
    let '(tag, s2) :=
      match matchTag s1 with
      | Some (t, r) => (Some t, r)
      | None => (None, s1)
      end in
    Some (digits, tag, dotStar (dropWhile isSpace s2)).

(** [choiceRegex]: white space, one upper-case letter, a dot or a closing
    parenthesis, white space and the rest of the line; no [i] flag.
    The result is (group 1, group 2). *)
Definition choiceRegex (line : string) : option (string * string) :=
  match dropWhile isSpace line with
  | String k (String m r) =>
      if isUpper k && isChoiceMark m
      then Some (String k EmptyString, dotStar (dropWhile isSpace r))
      else None
  | _ => None
  end.

(** The body of the [for] loop of [parseQuestionsText] together with the
    final flush; [i] is the loop index, [questions] the array built so far
    and [currentQ] the open question. *)
Fixpoint parseQuestionsLoop (lines : list string) (i : nat)
    (questions : list ParsedQuestion) (currentQ : option ParsedQuestion)
    : list ParsedQuestion :=
  match lines with
  | [] =>
      match currentQ with
      | Some q => questions ++ [q]
      | None => questions
      end
  | l :: rest =>
      let line := trim l in
      if isEmpty line then parseQuestionsLoop rest (S i) questions currentQ
      else
        match qStartRegex line with
        | Some (qid, tag, txt) =>
            let questions' :=
              match currentQ with
              | Some q => questions ++ [q]
              | None => questions
              end in
            parseQuestionsLoop rest (S i) questions'
              (Some (mkParsed qid txt tag [] (i + 1)))
        | None =>
            match currentQ with
            | None => parseQuestionsLoop rest (S i) questions None
            | Some q =>
                match choiceRegex line with
                | Some (k, t) =>
                    parseQuestionsLoop rest (S i) questions
                      (Some (mkParsed (p_id q) (p_text q) (p_explicitType q)
                               (p_choices q ++ [mkChoice (toUpperCase k) t])
                               (p_rawLine q)))
                | None =>
                    match last (p_choices q) with
                    | Some c =>
                        parseQuestionsLoop rest (S i) questions
                          (Some (mkParsed (p_id q) (p_text q) (p_explicitType q)
                                   (removelast (p_choices q) ++
                                      [mkChoice (c_key c)
                                         (c_text c +:+ String LF line)])
                                   (p_rawLine q)))
                    | None =>
                        parseQuestionsLoop rest (S i) questions
                          (Some (mkParsed (p_id q)
                                   (p_text q +:+
                                      (if isEmpty (p_text q) then EmptyString
                                       else String LF EmptyString) +:+ line)
                                   (p_explicitType q) (p_choices q)
                                   (p_rawLine q)))
                    end
                end
            end
        end
  end.

Definition parseQuestionsText (text : string) : list ParsedQuestion :=
  parseQuestionsLoop (splitLines text) 0 [] None.

(** The repetition [(?:\s*,\s*[A-Z])*] of [aStartRegex], greedy: the text
    it consumes.  [afterComma] tells whether the comma of the current
    round was read, [pending] is the text of the current round so far; a
    round that cannot be completed is given back. *)
Fixpoint moreKeys (afterComma : bool) (pending : string) (s : string) : string :=
  match s with
  | EmptyString => EmptyString
  | String c r =>
      if isSpace c then moreKeys afterComma (pending +:+ String c EmptyString) r
      else if afterComma then
        if isLetter c
        then pending +:+ String c (moreKeys false EmptyString r)
        else EmptyString
      else if Ascii.eqb c ","%char
        then moreKeys true (pending +:+ String c EmptyString) r
        else EmptyString
  end.

(** [aStartRegex]: digits, separators, the word Correct and a colon, white
    space, and a comma-separated list of letters, under the [i] flag.
    The result is (group 1, group 2). *)
Definition aStartRegex (line : string) : option (string * string) :=
  let digits := takeWhile isDigit line in
  if isEmpty digits then None
  else
    match stripPrefixCI "Correct:" (dropWhile isSep (dropWhile isDigit line)) with
    | None => None
    | Some s =>
        match dropWhile isSpace s with
        | String c r =>
            if isLetter c
            then Some (digits, String c (moreKeys false EmptyString r))
            else None
        | EmptyString => None
        end
    end.

(** [expStartRegex]: white space, the word Explanation and a colon, white
    space and the rest of the line, under the [i] flag.  The result is
    group 1. *)
Definition expStartRegex (line : string) : option string :=
  match stripPrefixCI "Explanation:" (dropWhile isSpace line) with
  | Some s => Some (dotStar (dropWhile isSpace s))
  | None => None
  end.

(** [answers.set(currentA.id, currentA)] when an answer is open. *)
Definition flushAnswer (answers : gmap string Answer) (currentA : option Answer)
    : gmap string Answer :=
  match currentA with
  | Some a => <[a_id a := a]> answers
  | None => answers
  end.

(** The body of the [for] loop of [parseAnswersText] together with the
    final flush. *)
Fixpoint parseAnswersLoop (lines : list string)
    (answers : gmap string Answer) (currentA : option Answer)
    : gmap string Answer :=
  match lines with
  | [] => flushAnswer answers currentA
  | l :: rest =>
      let line := trim l in
      if isEmpty line then parseAnswersLoop rest answers currentA
      else
        match aStartRegex line with
        | Some (aid, keysText) =>
            let keys := map (fun k => toUpperCase (trim k)) (splitComma keysText) in
            parseAnswersLoop rest (flushAnswer answers currentA)
              (Some (mkAnswer aid keys EmptyString))
        | None =>
            match currentA with
            | None => parseAnswersLoop rest answers None
            | Some a =>
                match expStartRegex line with
                | Some e =>
                    parseAnswersLoop rest answers
                      (Some (mkAnswer (a_id a) (a_correctKeys a) e))
                | None =>
                    parseAnswersLoop rest answers
                      (Some (mkAnswer (a_id a) (a_correctKeys a)
                               (a_explanation a +:+
                                  (if isEmpty (a_explanation a) then EmptyString
                                   else String LF EmptyString) +:+ line)))
                end
            end
        end
  end.

Definition parseAnswersText (text : string) : gmap string Answer :=
  parseAnswersLoop (splitLines text) ∅ None.

End Parser.

(* ===================================================================== *)
(** ** Scoreboard *)
(* ===================================================================== *)

Module Score.

(** The Number holding a counter.  Counters stay far below 2^53, where
    every integer is a binary64 value, so the conversion is exact. *)
Definition Number_of_nat (n : nat) : float :=
  PrimFloat.of_uint63 (Uint63.of_Z (Z.of_nat n)).

(** [Math.round] on a finite Number: the integer closest to it, the one
    towards positive infinity on a tie, that is the floor of x + 1/2 taken
    exactly.  The value of a finite binary64 is [m * 2^e] with an integer
    mantissa.  NaN and the infinities, which [Math.round] returns as they
    are, cannot reach the scoreboard (the operand lies between 0 and 100)
    and are sent to 0 here; so is the sign of a zero result. *)
Definition Math_round (x : float) : Z :=
  match Prim2SF x with
  | S754_finite s m e =>
      let sm := if s then Z.neg m else Z.pos m in
      if (0 <=? e)%Z then (sm * 2 ^ e)%Z
      else ((2 * sm + 2 ^ (- e)) / 2 ^ (1 - e))%Z
  | _ => 0%Z
  end.

(** The percentage of [updateScoreboard] (and of [showResults]):
    [answered > 0 ? Math.round((correct / answered) * 100) : 0],
    evaluated in binary64 as JavaScript does. *)
Definition percent (correct incorrect : nat) : Z :=
  let answered := (correct + incorrect)%nat in
  if (0 <? answered)%nat
  then Math_round
         (PrimFloat.mul
            (PrimFloat.div (Number_of_nat correct) (Number_of_nat answered))
            (Number_of_nat 100))
  else 0%Z.

(** The spec's formula read over the rationals:
    round (correct / (correct + incorrect) * 100), to the nearest integer
    and upwards on a tie ([Math.round]'s rule), that is the floor of
    (200 * correct + answered) / (2 * answered). *)
Definition percent_exact (correct incorrect : nat) : Z :=
  let c := Z.of_nat correct in
  let a := Z.of_nat (correct + incorrect) in
  ((200 * c + a) / (2 * a))%Z.

(** Whether 100 * correct / answered lies exactly halfway between two
    integers. *)
Definition is_tie (correct incorrect : nat) : bool :=
  let c := Z.of_nat correct in
  let a := Z.of_nat (correct + incorrect) in
  ((200 * c) mod (2 * a) =? a)%Z.

End Score.

(** The four texts [updateScoreboard] writes. *)
Record Scoreboard := mkBoard {
  scoreTotal : nat;
  scoreCorrect : nat;
  scoreIncorrect : nat;
  scorePercent : Z
}.

Definition updateScoreboard (st : Stats) : Scoreboard :=
  mkBoard (total st) (stat_correct st) (stat_incorrect st)
          (Score.percent (stat_correct st) (stat_incorrect st)).

(* ===================================================================== *)
(** ** Matching: the first half of [processAndRender] *)
(* ===================================================================== *)

(** Steps 1 and 2 of the [forEach] body of [processAndRender] on one
    freshly parsed question: [state.answersMap.get(q.id)], the answer
    fields and the status, then the type.  The body assigns these four
    fields and no other: a freshly parsed question has no
    [userSelectedKeys], while a question that an earlier run and the
    handler have already written to would keep the keys of that round
    through a new run.  The statements about recorded keys are therefore
    made for sessions that start without any ([fresh_session]). *)
Definition matchQuestion (answersMap : gmap string Answer) (p : ParsedQuestion)
    : Question :=
  let '(st, expl, keys) :=
    match answersMap !! p_id p with
    | None => (ungraded, "No answer key found.", [])
    | Some answer => (unanswered, a_explanation answer, a_correctKeys answer)
    end in
  let ty :=
    match p_explicitType p with
    | Some t => t
    | None => if (1 <? length keys)%nat then MULTIPLE else SINGLE
    end in
  mkQuestion (p_id p) (p_text p) (p_explicitType p) (p_choices p) (p_rawLine p)
             keys expl ty st None.

(* ===================================================================== *)
(** ** The card of a question: what [renderQuestion] builds *)
(* ===================================================================== *)

Inductive InputType := radio | checkbox.

#[global] Instance InputType_eq_dec : EqDecision InputType.
Proof. solve_decision. Defined.

(** One [label.choice-label] with its [input]: the data key, the input's
    type, name, value, checked and disabled properties, and the four
    classes the handler adds to the label. *)
Record ChoiceLabel := mkLabel {
  data_key : string;
  input_type : InputType;
  input_name : string;
  input_value : string;
  input_checked : bool;
  input_disabled : bool;
  cls_disabled : bool;
  cls_correct_choice : bool;
  cls_incorrect_choice : bool;
  cls_missed_correct : bool
}.

(** The visual marks of [markChoice]. *)
Inductive Mark := mark_correct | mark_incorrect | mark_missed.

(** A [.question-card]: its choice labels in document order, whether the
    explanation container is hidden, and the status icon shown (none
    while the icon is transparent).  The template is taken to bring no
    input or choice label of its own. *)
Record Card := mkCard {
  labels : list ChoiceLabel;
  explanation_hidden : bool;
  status_icon : option Status
}.

(** [renderQuestion]: the labels its [forEach] creates for the choices,
    on a card whose explanation is hidden and whose status icon is
    transparent.  The three calls of [ContentRenderer.render] put the HTML
    that marked and DOMPurify return for the stem, the choice texts and
    the explanation into the card; those libraries and the page template
    are not part of the sources, and the card is given here for texts
    whose HTML, like the template, holds no input and no element of class
    choice-label.  The statements that read the inputs or the labels of a
    card do not rely on this: they are made for the cards they describe
    ([choices_only], [fresh_session]). *)
Definition renderQuestion (q : Question) : Card :=
  mkCard
    (map (fun choice =>
            mkLabel (c_key choice)
                    (if decide (type q = SINGLE) then radio else checkbox)
                    ("q-" +:+ q_id q) (c_key choice)
                    false false false false false false)
         (choices q))
    true None.

(** [state.stats] and the scoreboard elements: the globals the handler
    touches. *)
Record Page := mkPage {
  stats : Stats;
  scoreboard : Scoreboard
}.

(** [processAndRender] on freshly parsed questions: the matched questions,
    their cards, the counters and the scoreboard. *)
Definition processAndRender (questions : list ParsedQuestion)
    (answersMap : gmap string Answer) : list Question * list Card * Page :=
  let qs := map (matchQuestion answersMap) questions in
  let st := mkStats (length qs) 0 0 in
  (qs, map renderQuestion qs, mkPage st (updateScoreboard st)).

(* ===================================================================== *)
(** ** Interaction: [handleInteraction] and its helpers *)
(* ===================================================================== *)

(** [arr.includes(k)] on an array of strings. *)
Definition includes (arr : list string) (k : string) : bool :=
  bool_decide (k ∈ arr).

Definition set_status (q : Question) (s : Status) : Question :=
  mkQuestion (q_id q) (q_text q) (explicitType q) (choices q) (rawLine q)
             (correctKeys q) (explanation q) (type q) s (userSelectedKeys q).

Definition set_userSelectedKeys (q : Question) (ks : list string) : Question :=
  mkQuestion (q_id q) (q_text q) (explicitType q) (choices q) (rawLine q)
             (correctKeys q) (explanation q) (type q) (status q) (Some ks).

Definition incr_correct (st : Stats) : Stats :=
  mkStats (total st) (S (stat_correct st)) (stat_incorrect st).

Definition incr_incorrect (st : Stats) : Stats :=
  mkStats (total st) (stat_correct st) (S (stat_incorrect st)).

Definition add_mark (m : Mark) (l : ChoiceLabel) : ChoiceLabel :=
  mkLabel (data_key l) (input_type l) (input_name l) (input_value l)
          (input_checked l) (input_disabled l) (cls_disabled l)
          (match m with mark_correct => true | _ => cls_correct_choice l end)
          (match m with mark_incorrect => true | _ => cls_incorrect_choice l end)
          (match m with mark_missed => true | _ => cls_missed_correct l end).

(** [querySelector] then [classList.add]: the first label carrying the
    key gets the class; nothing happens when there is none. *)
Fixpoint mark_first (k : string) (m : Mark) (ls : list ChoiceLabel)
    : list ChoiceLabel :=
  match ls with
  | [] => []
  | l :: rest =>
      if decide (data_key l = k) then add_mark m l :: rest
      else l :: mark_first k m rest
  end.

Definition markChoice (card : Card) (k : string) (m : Mark) : Card :=
  mkCard (mark_first k m (labels card)) (explanation_hidden card)
         (status_icon card).

Definition lock_label (l : ChoiceLabel) : ChoiceLabel :=
  mkLabel (data_key l) (input_type l) (input_name l) (input_value l)
          (input_checked l) true true
          (cls_correct_choice l) (cls_incorrect_choice l) (cls_missed_correct l).

(** The two [forEach] loops that disable every input and label. *)
Definition lockInputs (card : Card) : Card :=
  mkCard (map lock_label (labels card)) (explanation_hidden card)
         (status_icon card).

Definition showStatusIcon (card : Card) (s : Status) : Card :=
  mkCard (labels card) (explanation_hidden card) (Some s).

(** [expContainer.classList.remove('hidden')] *)
Definition revealExplanation (card : Card) : Card :=
  mkCard (labels card) false (status_icon card).

(** The values of the checked inputs, in document order. *)
Definition checkedKeys (card : Card) : list string :=
  map input_value (filter (fun l => input_checked l = true) (labels card)).

(** The [forEach] over the correct keys in the failure branch of a
    multiple-choice question. *)
Definition revealCorrect (checked : list string) (keys : list string)
    (card : Card) : Card :=
  foldl (fun c k =>
           if includes checked k then markChoice c k mark_correct
           else markChoice c k mark_missed)
        card keys.

Definition markAll (m : Mark) (keys : list string) (card : Card) : Card :=
  foldl (fun c k => markChoice c k m) card keys.

(** [handleInteraction(q, selectedKey, inputElement, cardElement)].  The
    input element is not used by the body.  The result is the question,
    its card and the globals after the call. *)
Definition handleInteraction (q : Question) (selectedKey : string)
    (cardElement : Card) (g : Page) : Question * Card * Page :=
  if decide (status q = correct ∨ status q = incorrect) then (q, cardElement, g)
  else if decide (type q = SINGLE) then
    let isCorrect := includes (correctKeys q) selectedKey in
    let card := lockInputs cardElement in
    if isCorrect then
      let card := markChoice card selectedKey mark_correct in
      let q := set_status q correct in
      let st := incr_correct (stats g) in
      let card := showStatusIcon card correct in
      let card := revealExplanation card in
      let q := set_userSelectedKeys q [selectedKey] in
      (q, card, mkPage st (updateScoreboard st))
    else
      let card := markChoice card selectedKey mark_incorrect in
      let card := markAll mark_correct (correctKeys q) card in
      let q := set_status q incorrect in
      let st := incr_incorrect (stats g) in
      let card := showStatusIcon card incorrect in
      let card := revealExplanation card in
      let q := set_userSelectedKeys q [selectedKey] in
      (q, card, mkPage st (updateScoreboard st))
  else
    let checked := checkedKeys cardElement in
    let isLatestCorrect := includes (correctKeys q) selectedKey in
    if negb isLatestCorrect then
      let card := lockInputs cardElement in
      let card := markChoice card selectedKey mark_incorrect in
      let card := revealCorrect checked (correctKeys q) card in
      let q := set_status q incorrect in
      let st := incr_incorrect (stats g) in
      let card := showStatusIcon card incorrect in
      let card := revealExplanation card in
      let q := set_userSelectedKeys q checked in
      (q, card, mkPage st (updateScoreboard st))
    else
      let allCorrectSelected := forallb (includes checked) (correctKeys q) in
      let noIncorrectSelected := forallb (includes (correctKeys q)) checked in
      if allCorrectSelected && noIncorrectSelected then
        let card := lockInputs cardElement in
        let card := markAll mark_correct checked card in
        let q := set_status q correct in
        let st := incr_correct (stats g) in
        let card := showStatusIcon card correct in
        let card := revealExplanation card in
        let q := set_userSelectedKeys q checked in
        (q, card, mkPage st (updateScoreboard st))
      else (q, cardElement, g).

(** The components of a result of [handleInteraction]. *)
Definition res_q (r : Question * Card * Page) : Question := r.1.1.
Definition res_card (r : Question * Card * Page) : Card := r.1.2.
Definition res_page (r : Question * Card * Page) : Page := r.2.

(* ===================================================================== *)
(** ** The browser side: change events on the inputs of a card *)
(* ===================================================================== *)

Definition set_checked (b : bool) (l : ChoiceLabel) : ChoiceLabel :=
  mkLabel (data_key l) (input_type l) (input_name l) (input_value l)
          b (input_disabled l) (cls_disabled l)
          (cls_correct_choice l) (cls_incorrect_choice l) (cls_missed_correct l).

(** Checking a radio input unchecks the other radio inputs of its group
    (same name). *)
Definition uncheck_group (name : string) (l : ChoiceLabel) : ChoiceLabel :=
  if decide (input_type l = radio ∧ input_name l = name)
  then set_checked false l else l.

(** What the browser does to a card when the user activates its [j]-th
    input, before the change listener runs; [None] when no change event
    is fired (no such input, a disabled input, a radio input that is
    already checked). *)
Definition activate (j : nat) (card : Card) : option Card :=
  match labels card !! j with
  | None => None
  | Some l =>
      if input_disabled l then None
      else
        match input_type l with
        | checkbox =>
            Some (mkCard (<[j := set_checked (negb (input_checked l)) l]> (labels card))
                         (explanation_hidden card) (status_icon card))
        | radio =>
            if input_checked l then None
            else
              Some (mkCard (<[j := set_checked true l]>
                              (map (uncheck_group (input_name l)) (labels card)))
                           (explanation_hidden card) (status_icon card))
        end
  end.

(** One user action on the [j]-th choice of a question: the browser's
    change of the input, then the listener installed by [renderQuestion],
    [handleInteraction(q, choice.key, input, card)]. *)
Definition select (j : nat) (x : Question * Card * Page) : Question * Card * Page :=
  let '(q, card, g) := x in
  match activate j card, choices q !! j with
  | Some card', Some choice => handleInteraction q (c_key choice) card' g
  | _, _ => x
  end.

(** A session: the questions of [state.questions], their cards, and the
    globals. *)
Record Session := mkSession {
  questions : list Question;
  cards : list Card;
  page : Page
}.

Definition uncheck_group_card (name : string) (card : Card) : Card :=
  mkCard (map (uncheck_group name) (labels card)) (explanation_hidden card)
         (status_icon card).

(** The name of the radio group the [j]-th input of a card belongs to,
    when activating it checks a radio input. *)
Definition radio_group (j : nat) (card : Card) : option string :=
  match labels card !! j with
  | Some l =>
      if input_disabled l then None
      else if decide (input_type l = radio)
           then (if input_checked l then None else Some (input_name l))
           else None
  | None => None
  end.

(** The user activates choice [j] of question [i].  A radio group spans
    the document, so checking a radio input also unchecks the inputs of
    that name in the other cards. *)
Definition change_event (i j : nat) (s : Session) : Session :=
  match questions s !! i, cards s !! i with
  | Some q, Some card =>
      match activate j card, choices q !! j with
      | Some card', Some choice =>
          let others :=
            match radio_group j card with
            | Some name => map (uncheck_group_card name) (cards s)
            | None => cards s
            end in
          let '(q', card'', g') := handleInteraction q (c_key choice) card' (page s) in
          mkSession (<[i := q']> (questions s)) (<[i := card'']> others) g'
      | _, _ => s
      end
  | _, _ => s
  end.

Definition run (events : list (nat * nat)) (s : Session) : Session :=
  foldl (fun s e => change_event e.1 e.2 s) s events.

(** The session [processAndRender] starts. *)
Definition startSession (parsed : list ParsedQuestion)
    (answersMap : gmap string Answer) : Session :=
  let '(qs, cs, g) := processAndRender parsed answersMap in
  mkSession qs cs g.

Definition terminal (q : Question) : bool :=
  bool_decide (status q = correct ∨ status q = incorrect).

(** The number of questions still open to input. *)
Definition open_count (qs : list Question) : nat :=
  length (filter (fun q => terminal q = false) qs).

(* ===================================================================== *)
(** ** The parsers' contracts, in the words of the specification *)
(* ===================================================================== *)

Module Contract.
Import JS.

Definition isQ (c : ascii) : bool :=
  Ascii.eqb c "Q"%char || Ascii.eqb c "q"%char.

(** The line without its optional Q. *)
Definition afterQ (line : string) : string :=
  match line with
  | String c r => if isQ c then r else line
  | EmptyString => line
  end.

Definition startsWith (p : ascii -> bool) (s : string) : bool :=
  match s with
  | String c _ => p c
  | EmptyString => false
  end.

(** The question-start pattern as the specification words it: an optional
    Q, one or more digits, then a separator (period, colon or white
    space). *)
Definition separatedQuestionStart (line : string) : bool :=
  startsWith isDigit (afterQ line) &&
  startsWith isSep (dropWhile isDigit (afterQ line)).

(** The question-start pattern without the separator: an optional Q in
    either case, then a digit. *)
Definition questionStart (line : string) : bool :=
  startsWith isDigit (afterQ line).

(** The id a question-start line carries: its leading digits. *)
Definition questionStartId (line : string) : string :=
  takeWhile isDigit (afterQ line).

(** The trimmed lines of a text that are question starts, in order. *)
Definition questionStartLines (text : string) : list string :=
  filter (fun line => questionStart line = true) (map trim (splitLines text)).

(** The answer blocks of a text, in the order of the text: a block is
    opened by an answer-start line, takes the explanation line and the
    continuation lines that follow it, and is closed by the next
    answer-start line or by the end of the text.  [currentA] is the block
    being read. *)
Fixpoint answerBlocksLoop (lines : list string) (currentA : option Answer)
    : list Answer :=
  match lines with
  | [] => option_list currentA
  | l :: rest =>
      let line := trim l in
      if isEmpty line then answerBlocksLoop rest currentA
      else
        match Parser.aStartRegex line with
        | Some (aid, keysText) =>
            option_list currentA ++
            answerBlocksLoop rest
              (Some (mkAnswer aid
                       (map (fun k => toUpperCase (trim k)) (splitComma keysText))
                       EmptyString))
        | None =>
            match currentA with
            | None => answerBlocksLoop rest None
            | Some a =>
                match Parser.expStartRegex line with
                | Some e =>
                    answerBlocksLoop rest
                      (Some (mkAnswer (a_id a) (a_correctKeys a) e))
                | None =>
                    answerBlocksLoop rest
                      (Some (mkAnswer (a_id a) (a_correctKeys a)
                               (a_explanation a +:+
                                  (if isEmpty (a_explanation a) then EmptyString
                                   else String LF EmptyString) +:+ line)))
                end
            end
        end
  end.

Definition answerBlocks (text : string) : list Answer :=
  answerBlocksLoop (splitLines text) None.

(** The last block of a text that carries a given id. *)
Definition lastBlock (aid : string) (blocks : list Answer) : option Answer :=
  last (filter (fun a => a_id a = aid) blocks).

End Contract.

(* ===================================================================== *)
(** ** A sample session *)
(* ===================================================================== *)

Module Sample.

Definition nl : string := String JS.LF EmptyString.

(** A questions file: one untagged question, one tagged [Multiple], and
    one whose id has no counterpart in the answers file. *)
Definition questionsText : string :=
  "1. Which one?" +:+ nl +:+
  "A. alpha" +:+ nl +:+ "B. beta" +:+ nl +:+ "C. gamma" +:+ nl +:+ nl +:+
  "Q2 [Multiple] Which ones?" +:+ nl +:+
  "A. a" +:+ nl +:+ "B. b" +:+ nl +:+ "C. c" +:+ nl +:+ "D. d" +:+ nl +:+ nl +:+
  "7. Unkeyed?" +:+ nl +:+
  "A. yes" +:+ nl +:+ "B. no" +:+ nl.

(** An answers file; the id 1 is given twice. *)
Definition answersText : string :=
  "Answer Key" +:+ nl +:+
  "1. Correct: C" +:+ nl +:+
  "Explanation: first try" +:+ nl +:+
  "2. Correct: B, C, D" +:+ nl +:+
  "   Explanation: three of them" +:+ nl +:+
  "07. Correct: A" +:+ nl +:+
  "1. Correct: B" +:+ nl +:+
  "Explanation: because" +:+ nl +:+
  "it is" +:+ nl.

Definition session : Session :=
  startSession (Parser.parseQuestionsText questionsText)
               (Parser.parseAnswersText answersText).

(** The three questions as [processAndRender] leaves them. *)
Definition q1 : Question :=
  mkQuestion "1" "Which one?" None
    [mkChoice "A" "alpha"; mkChoice "B" "beta"; mkChoice "C" "gamma"] 1
    ["B"] ("because" +:+ nl +:+ "it is") SINGLE unanswered None.

Definition q2 : Question :=
  mkQuestion "2" "Which ones?" (Some MULTIPLE)
    [mkChoice "A" "a"; mkChoice "B" "b"; mkChoice "C" "c"; mkChoice "D" "d"] 6
    ["B"; "C"; "D"] "three of them" MULTIPLE unanswered None.

Definition q7 : Question :=
  mkQuestion "7" "Unkeyed?" None
    [mkChoice "A" "yes"; mkChoice "B" "no"] 12
    [] "No answer key found." SINGLE ungraded None.

Definition page0 : Page :=
  mkPage (mkStats 3 0 0) (mkBoard 3 0 0 0).

(** The card of a question after the user has activated the inputs at
    the given positions, one after the other, with no listener run. *)
Definition activated (js : list nat) (card : Card) : Card :=
  foldl (fun c j => default c (activate j c)) card js.

(** The card of sample question 2 after the user has checked B and then
    A, which closes the question as incorrect. *)
Definition closed2 : Card :=
  revealExplanation
    (showStatusIcon
       (revealCorrect ["A"; "B"] ["B"; "C"; "D"]
          (markChoice
             (lockInputs (activated [1; 0] (renderQuestion q2)))
             "A" mark_incorrect))
       incorrect).

End Sample.

(* ===================================================================== *)
(** ** Auxiliary notions of the statements *)
(* ===================================================================== *)

(** *** Binary64 rounding

    The notions in which the two roundings of the percentage, the
    division and the multiplication by 100, are described: the quotient of
    two integers rounded to the nearest integer, ties to even, as
    [SpecFloat] rounds a mantissa. *)

Module Rounding.
Local Open Scope Z_scope.

(** Where the fraction of N / D lies between the integers below and
    above it, as [SpecFloat] records it. *)
Definition locate (N D : Z) : location :=
  if N mod D =? 0 then loc_Exact else loc_Inexact (2 * (N mod D) ?= D).

(** N / D rounded to the nearest integer, to the even one on a tie. *)
Definition RNE (N D : Z) : Z := round_nearest_even (N / D) (locate N D).

(** The float with mantissa M and exponent e, M between 2^52 and 2^53;
    the upper end is written with the mantissa 2^52. *)
Definition normal (M e : Z) : spec_float :=
  if M =? 2 ^ 53 then S754_finite false (Z.to_pos (2 ^ 52)) (e + 1)
  else S754_finite false (Z.to_pos M) e.

(** M is the 53-digit mantissa of a / b and -s its exponent: a / b
    rounded to binary64 is M * 2^-s. *)
Definition rounded (a b M s : Z) : Prop :=
  0 ≤ s ∧ 2 ^ 52 * b ≤ a * 2 ^ s < 2 ^ 53 * b ∧ M = RNE (a * 2 ^ s) b.

(** The percentage of [Score.percent] on integers: the counters are
    converted as [Score.Number_of_nat] converts them. *)
Definition percent_of (c t : Z) : Z :=
  Score.Math_round
    (PrimFloat.mul
       (PrimFloat.div (PrimFloat.of_uint63 (Uint63.of_Z c))
                      (PrimFloat.of_uint63 (Uint63.of_Z t)))
       (PrimFloat.of_uint63 (Uint63.of_Z 100))).

(** The quotients next to the halfway point k + 1/2 per cent that a
    quiz of at most 2^45 answered questions can reach lie beyond these
    two, taken over [base]. *)
Definition base : Z := 200 * 2 ^ 45.
Definition above (k : Z) : Z := (2 * k + 1) * 2 ^ 45 + 1.
Definition below (k : Z) : Z := (2 * k + 1) * 2 ^ 45 - 1.

(** What the scoreboard shows for a quotient of exactly k + 1/2 per
    cent. *)
Definition tie_shown (k : Z) : Z :=
  if bool_decide (k ∈ [14; 28; 56; 57]) then k else k + 1.

(** The halfway points 0.5, 1.5, ..., 99.5 by their integer parts. *)
Definition hundred : list Z := map Z.of_nat (seq 0 100).

(** The percentage next to each halfway point: k + 1 just above it, k
    just below. *)
Definition margins_checked : bool :=
  forallb (fun k => (percent_of (above k) base =? k + 1) &&
                    (percent_of (below k) base =? k)) hundred.

(** The percentage at each halfway point, on the quotient in lowest
    terms over 200. *)
Definition ties_checked : bool :=
  forallb (fun k => percent_of (2 * k + 1) 200 =? tie_shown k) hundred.

End Rounding.

(** The number of answers counted so far. *)
Definition answered_total (s : Session) : nat :=
  stat_correct (stats (page s)) + stat_incorrect (stats (page s)).

(** A question without correct keys that is ungraded or incorrect: what
    the matcher leaves ungraded, and what the handler makes of it. *)
Definition keyless (q : Question) : Prop :=
  correctKeys q = [] ∧ (status q = ungraded ∨ status q = incorrect).

(** The id of the question the parser has open, if any. *)
Definition open_id (currentQ : option ParsedQuestion) : list string :=
  option_list (p_id <$> currentQ).

(** [answers.set] over a sequence of blocks. *)
Definition setAll (answers : gmap string Answer) (blocks : list Answer)
    : gmap string Answer :=
  foldl (fun m a => <[a_id a := a]> m) answers blocks.

(* ===================================================================== *)
(** ** Results and export: [showResults] and [exportResults] *)
(* ===================================================================== *)

(** [state.questions.filter(q => q.status === 'incorrect')] *)
Definition wrongQs (qs : list Question) : list Question :=
  filter (fun q => status q = incorrect) qs.

(** [keys.join(', ')] *)
Definition joinKeys (keys : list string) : string :=
  String.concat ", " keys.

(** One entry of the list of wrong answers in the results modal: the id
    shown in the badge, the question text, the two joined key lists and
    the explanation.  An absent [userSelectedKeys] is shown as the empty
    list. *)
Record WrongAnswer := mkWrong {
  w_id : string;
  w_text : string;
  w_selected : string;
  w_correct : string;
  w_explanation : string
}.

Definition wrongAnswer (q : Question) : WrongAnswer :=
  mkWrong (q_id q) (q_text q)
          (joinKeys (default [] (userSelectedKeys q)))
          (joinKeys (correctKeys q))
          (explanation q).

(** What [showResults] writes into the modal: the four summary texts and
    the list of wrong answers, [None] standing for the note that there is
    no incorrect answer to review. *)
Record Results := mkResults {
  summaryTotal : nat;
  summaryCorrect : nat;
  summaryIncorrect : nat;
  summaryPercent : Z;
  wrongAnswersList : option (list WrongAnswer)
}.

Definition showResults (s : Session) : Results :=
  let st := stats (page s) in
  mkResults (total st) (stat_correct st) (stat_incorrect st)
            (Score.percent (stat_correct st) (stat_incorrect st))
            (match wrongQs (questions s) with
             | [] => None
             | w :: ws => Some (map wrongAnswer (w :: ws))
             end).

(** One entry of [incorrectQuestions] in the exported object;
    [userSelected] is absent when the question has no
    [userSelectedKeys]. *)
Record ExportedQuestion := mkExported {
  e_id : string;
  e_text : string;
  e_userSelected : option (list string);
  e_correct : list string;
  e_explanation : string
}.

Definition exportQuestion (q : Question) : ExportedQuestion :=
  mkExported (q_id q) (q_text q) (userSelectedKeys q) (correctKeys q)
             (explanation q).

(** The object [exportResults] serialises, without its timestamp. *)
Record ExportData := mkExport {
  ex_stats : Stats;
  ex_incorrectQuestions : list ExportedQuestion
}.

Definition exportResults (s : Session) : ExportData :=
  mkExport (stats (page s)) (map exportQuestion (wrongQs (questions s))).

(* ===================================================================== *)
(** ** Notions used to state the invariants of a session *)
(* ===================================================================== *)

(** The number of questions with a given status. *)
Definition count_status (st : Status) (qs : list Question) : nat :=
  length (filter (fun q => status q = st) qs).

(** A label without any of the three marks. *)
Definition unmarked (l : ChoiceLabel) : Prop :=
  cls_correct_choice l = false ∧ cls_incorrect_choice l = false ∧
  cls_missed_correct l = false.

(** The part of a label that no listener changes. *)
Definition label_static (l : ChoiceLabel) : string * InputType * string * string :=
  (data_key l, input_type l, input_name l, input_value l).

(** What the recorded keys of a question say about its status: nothing is
    recorded while the question is open; a correct question records only
    correct keys, one key when it is SINGLE and every correct key when it
    is MULTIPLE; an incorrect question records exactly one kind of wrong
    key, [k], beside correct ones. *)
Definition verdict_ok (q : Question) : Prop :=
  match status q with
  | correct =>
      ∃ l, userSelectedKeys q = Some l ∧
           (∀ x, x ∈ l → x ∈ correctKeys q) ∧
           (type q = SINGLE → ∃ k, l = [k]) ∧
           (type q = MULTIPLE → ∀ x, x ∈ correctKeys q → x ∈ l)
  | incorrect =>
      ∃ l k, userSelectedKeys q = Some l ∧
             k ∈ l ∧ (k ∉ correctKeys q) ∧
             (∀ x, x ∈ l → x = k ∨ x ∈ correctKeys q) ∧
             (type q = SINGLE → l = [k])
  | _ => userSelectedKeys q = None
  end.

(** The marks of a label agree with the answer key: red only on a key
    that is not correct, green and amber only on correct keys, and never
    green and amber together. *)
Definition marks_sound (keys : list string) (l : ChoiceLabel) : Prop :=
  (cls_incorrect_choice l = true → data_key l ∉ keys) ∧
  (cls_correct_choice l = true → data_key l ∈ keys) ∧
  (cls_missed_correct l = true → data_key l ∈ keys) ∧
  ¬ (cls_correct_choice l = true ∧ cls_missed_correct l = true).

(** After a wrong answer every correct key that has a choice on the card
    is revealed, in green or in amber. *)
Definition reveal_complete (keys : list string) (ls : list ChoiceLabel) : Prop :=
  ∀ c, c ∈ keys → c ∈ map data_key ls →
    ∃ l, l ∈ ls ∧ data_key l = c ∧
         (cls_correct_choice l = true ∨ cls_missed_correct l = true).

(** A card in step with its question: the labels are those that
    [renderQuestion] built, apart from the checks and the marks; the
    inputs are disabled, the explanation shown and the icon set exactly
    when the question is closed; an open card carries no mark, and only
    correct keys are checked on an open MULTIPLE card. *)
Definition card_ok (q : Question) (card : Card) : Prop :=
  map label_static (labels card) = map label_static (labels (renderQuestion q)) ∧
  Forall (fun l => input_disabled l = terminal q ∧ cls_disabled l = terminal q)
         (labels card) ∧
  explanation_hidden card = negb (terminal q) ∧
  status_icon card = (if terminal q then Some (status q) else None) ∧
  (terminal q = false → Forall unmarked (labels card)) ∧
  (terminal q = false → type q = MULTIPLE →
     ∀ x, x ∈ checkedKeys card → x ∈ correctKeys q) ∧
  Forall (marks_sound (correctKeys q)) (labels card) ∧
  (status q = incorrect → reveal_complete (correctKeys q) (labels card)).

(** The recorded keys of a question are keys of its choices. *)
Definition selected_among_choices (q : Question) : Prop :=
  ∀ x l, userSelectedKeys q = Some l → x ∈ l → x ∈ map c_key (choices q).

(** The invariant of a session. *)
Definition session_ok (s : Session) : Prop :=
  length (cards s) = length (questions s) ∧
  (∀ i q, questions s !! i = Some q →
     verdict_ok q ∧ selected_among_choices q ∧
     ∃ card, cards s !! i = Some card ∧ card_ok q card) ∧
  total (stats (page s)) = length (questions s) ∧
  stat_correct (stats (page s)) = count_status correct (questions s) ∧
  stat_incorrect (stats (page s)) = count_status incorrect (questions s) ∧
  scoreboard (page s) = updateScoreboard (stats (page s)).

(** How the marking steps of the handler relate a label before and after:
    nothing but the three mark classes changes, no mark is taken away,
    and a new mark is licensed by the key of the label. *)
Definition mark_rel (C I M : string → Prop) (l l' : ChoiceLabel) : Prop :=
  label_static l' = label_static l ∧
  input_checked l' = input_checked l ∧
  input_disabled l' = input_disabled l ∧
  cls_disabled l' = cls_disabled l ∧
  (cls_correct_choice l = true → cls_correct_choice l' = true) ∧
  (cls_incorrect_choice l = true → cls_incorrect_choice l' = true) ∧
  (cls_missed_correct l = true → cls_missed_correct l' = true) ∧
  (cls_correct_choice l' = true → cls_correct_choice l = true ∨ C (data_key l)) ∧
  (cls_incorrect_choice l' = true → cls_incorrect_choice l = true ∨ I (data_key l)) ∧
  (cls_missed_correct l' = true → cls_missed_correct l = true ∨ M (data_key l)).

(** The licence a marking step needs for the key it marks. *)
Definition licensed (C I M : string → Prop) (m : Mark) (k : string) : Prop :=
  match m with
  | mark_correct => C k
  | mark_incorrect => I k
  | mark_missed => M k
  end.

(** A label after a change of its checked state only. *)
Definition same_but_checked (l l' : ChoiceLabel) : Prop :=
  label_static l' = label_static l ∧
  input_disabled l' = input_disabled l ∧
  cls_disabled l' = cls_disabled l ∧
  cls_correct_choice l' = cls_correct_choice l ∧
  cls_incorrect_choice l' = cls_incorrect_choice l ∧
  cls_missed_correct l' = cls_missed_correct l.

(** Whether a label carries a given mark. *)
Definition has_mark (m : Mark) (l : ChoiceLabel) : bool :=
  match m with
  | mark_correct => cls_correct_choice l
  | mark_incorrect => cls_incorrect_choice l
  | mark_missed => cls_missed_correct l
  end.

(** Two question objects that differ at most in [status] and
    [userSelectedKeys]. *)
Definition same_content (q q' : Question) : Prop :=
  q_id q' = q_id q ∧ q_text q' = q_text q ∧
  explicitType q' = explicitType q ∧ choices q' = choices q ∧
  rawLine q' = rawLine q ∧ correctKeys q' = correctKeys q ∧
  explanation q' = explanation q ∧ type q' = type q.

(* ===================================================================== *)
(** ** Uploads: [handleQuestionsUpload] and [handleAnswersUpload] *)
(* ===================================================================== *)

(** The text [handleQuestionsUpload] assembles from the contents of the
    selected files, taken in the order the sort by name has put them in:
    every content is followed by two line feeds. *)
Definition allText (contents : list string) : string :=
  foldl (fun acc content =>
           acc +:+ (content +:+ String JS.LF (String JS.LF EmptyString)))
        EmptyString contents.

(** What [handleQuestionsUpload] does with the contents of the files:
    nothing when no file was selected; otherwise the parsed questions it
    assigns to [state.questions], or the message it shows when there is
    none. *)
Definition questionsUpload (contents : list string)
    : option (list ParsedQuestion + string) :=
  match contents with
  | [] => None
  | _ =>
      match Parser.parseQuestionsText (allText contents) with
      | [] => Some (inr ("Error parsing questions: " +:+
                         "No valid questions found. Please check the file format."))
      | q :: qs => Some (inl (q :: qs))
      end
  end.

(** What [handleAnswersUpload] does with the content of the file: the map
    it assigns to [state.answersMap], or the message it shows when the map
    is empty. *)
Definition answersUpload (content : string) : gmap string Answer + string :=
  let parsedAnswers := Parser.parseAnswersText content in
  if decide (size parsedAnswers = 0)
  then inr ("Error parsing answers: " +:+
            "No valid answers found. Please check the file format.")
  else inl parsedAnswers.

(** The trimmed lines of a text that are answer starts, in order. *)
Definition answerStartLines (text : string) : list string :=
  filter (fun line => is_Some (Parser.aStartRegex line))
         (map JS.trim (JS.splitLines text)).

(** Whether every character of a string satisfies a test. *)
Fixpoint allChars (p : ascii → bool) (s : string) : bool :=
  match s with
  | EmptyString => true
  | String c r => p c && allChars p r
  end.

(** A key as the parsers produce it: one upper-case letter. *)
Definition isKey (k : string) : Prop :=
  ∃ c, k = String c EmptyString ∧ JS.isUpper c = true.

(** The id and the source line of a parsed question. *)
Definition id_line (q : ParsedQuestion) : string * nat := (p_id q, p_rawLine q).

(** The pairs of id and source line of the question-start lines among
    [lines], the first of which is line [i + 1] of the text. *)
Fixpoint startsFrom (i : nat) (lines : list string) : list (string * nat) :=
  match lines with
  | [] => []
  | l :: rest =>
      if Contract.questionStart (JS.trim l)
      then (Contract.questionStartId (JS.trim l), i + 1) :: startsFrom (S i) rest
      else startsFrom (S i) rest
  end.

(* ===================================================================== *)
(** ** The earlier version of the parsers *)
(* ===================================================================== *)

(** The file holds two versions of the script.  The earlier one joins
    continuation lines with a space where the later one uses a line
    feed; everything else in the two parsers is the same. *)
Module Legacy.
Import JS.

Fixpoint parseQuestionsLoop (lines : list string) (i : nat)
    (questions : list ParsedQuestion) (currentQ : option ParsedQuestion)
    : list ParsedQuestion :=
  match lines with
  | [] =>
      match currentQ with
      | Some q => questions ++ [q]
      | None => questions
      end
  | l :: rest =>
      let line := trim l in
      if isEmpty line then parseQuestionsLoop rest (S i) questions currentQ
      else
        match Parser.qStartRegex line with
        | Some (qid, tag, txt) =>
            let questions' :=
              match currentQ with
              | Some q => questions ++ [q]
              | None => questions
              end in
            parseQuestionsLoop rest (S i) questions'
              (Some (mkParsed qid txt tag [] (i + 1)))
        | None =>
            match currentQ with
            | None => parseQuestionsLoop rest (S i) questions None
            | Some q =>
                match Parser.choiceRegex line with
                | Some (k, t) =>
                    parseQuestionsLoop rest (S i) questions
                      (Some (mkParsed (p_id q) (p_text q) (p_explicitType q)
                               (p_choices q ++ [mkChoice (toUpperCase k) t])
                               (p_rawLine q)))
                | None =>
                    match last (p_choices q) with
                    | Some c =>
                        parseQuestionsLoop rest (S i) questions
                          (Some (mkParsed (p_id q) (p_text q) (p_explicitType q)
                                   (removelast (p_choices q) ++
                                      [mkChoice (c_key c)
                                         (c_text c +:+ String " " line)])
                                   (p_rawLine q)))
                    | None =>
                        parseQuestionsLoop rest (S i) questions
                          (Some (mkParsed (p_id q)
                                   (p_text q +:+
                                      (if isEmpty (p_text q) then EmptyString
                                       else String " " EmptyString) +:+ line)
                                   (p_explicitType q) (p_choices q)
                                   (p_rawLine q)))
                    end
                end
            end
        end
  end.

Definition parseQuestionsText (text : string) : list ParsedQuestion :=
  parseQuestionsLoop (splitLines text) 0 [] None.

Fixpoint parseAnswersLoop (lines : list string)
    (answers : gmap string Answer) (currentA : option Answer)
    : gmap string Answer :=
  match lines with
  | [] => Parser.flushAnswer answers currentA
  | l :: rest =>
      let line := trim l in
      if isEmpty line then parseAnswersLoop rest answers currentA
      else
        match Parser.aStartRegex line with
        | Some (aid, keysText) =>
            let keys := map (fun k => toUpperCase (trim k)) (splitComma keysText) in
            parseAnswersLoop rest (Parser.flushAnswer answers currentA)
              (Some (mkAnswer aid keys EmptyString))
        | None =>
            match currentA with
            | None => parseAnswersLoop rest answers None
            | Some a =>
                match Parser.expStartRegex line with
                | Some e =>
                    parseAnswersLoop rest answers
                      (Some (mkAnswer (a_id a) (a_correctKeys a) e))
                | None =>
                    parseAnswersLoop rest answers
                      (Some (mkAnswer (a_id a) (a_correctKeys a)
                               (a_explanation a +:+
                                  (if isEmpty (a_explanation a) then EmptyString
                                   else String " " EmptyString) +:+ line)))
                end
            end
        end
  end.

Definition parseAnswersText (text : string) : gmap string Answer :=
  parseAnswersLoop (splitLines text) ∅ None.

End Legacy.

(** Every line feed of a string turned into a space. *)
Fixpoint spaceForLF (s : string) : string :=
  match s with
  | EmptyString => EmptyString
  | String c r =>
      String (if Ascii.eqb c JS.LF then " "%char else c) (spaceForLF r)
  end.

Definition spaceForLF_choice (c : Choice) : Choice :=
  mkChoice (c_key c) (spaceForLF (c_text c)).

Definition spaceForLF_question (q : ParsedQuestion) : ParsedQuestion :=
  mkParsed (p_id q) (spaceForLF (p_text q)) (p_explicitType q)
           (map spaceForLF_choice (p_choices q)) (p_rawLine q).

Definition spaceForLF_answer (a : Answer) : Answer :=
  mkAnswer (a_id a) (a_correctKeys a) (spaceForLF (a_explanation a)).

(** A string without line feed. *)
Definition noLF (s : string) : bool :=
  allChars (fun c => negb (Ascii.eqb c JS.LF)) s.

(* ===================================================================== *)
(** ** The renderer: [ContentRenderer.preprocessMath] of [renderer.js] *)
(* ===================================================================== *)

(** [renderQuestion] hands every text to [ContentRenderer.render], which
    first runs [preprocessMath]: parenthesised and bracketed groups that
    look like mathematics are given LaTeX delimiters; code spans are
    masked before and restored after. *)
Module Renderer.
Import JS.

Definition backtick : ascii := "`"%char.
Definition backslash : ascii := "\"%char.

(** [s.substring(n)] *)
Fixpoint dropN (n : nat) (s : string) : string :=
  match n, s with
  | S k, String _ r => dropN k r
  | _, _ => s
  end.

Fixpoint takeN (n : nat) (s : string) : string :=
  match n, s with
  | S k, String c r => String c (takeN k r)
  | _, _ => EmptyString
  end.

(** [s.substring(a, b)]: the code units from the smaller of the two
    indices up to the larger. *)
Definition substring (s : string) (a b : nat) : string :=
  takeN (Nat.max a b - Nat.min a b) (dropN (Nat.min a b) s).

(** Whether [s] starts with the literal [pat]. *)
Fixpoint hasPrefix (pat s : string) : bool :=
  match pat with
  | EmptyString => true
  | String p pat' =>
      match s with
      | EmptyString => false
      | String c r => Ascii.eqb p c && hasPrefix pat' r
      end
  end.

Fixpoint anyChar (p : ascii → bool) (s : string) : bool :=
  match s with
  | EmptyString => false
  | String c r => p c || anyChar p r
  end.

(** The number of backticks [s] starts with. *)
Fixpoint ticks (s : string) : nat :=
  match s with
  | EmptyString => 0
  | String c r => if Ascii.eqb c backtick then S (ticks r) else 0
  end.

(** The offset of the first place of [s] where [k] backticks stand in a
    row. *)
Fixpoint findTicks (k : nat) (s : string) : option nat :=
  if (k <=? ticks s)%nat then Some 0
  else
    match s with
    | EmptyString => None
    | String _ r => S <$> findTicks k r
    end.

(** [maskRegex] with a group of at most [k] backticks, tried at the start
    of [s]: the length of the match.  The group is greedy and gives its
    backticks back one at a time; for a group of [k] the lazy middle
    stops at the first place behind the group where [k] backticks stand
    again. *)
Fixpoint maskGroup (k : nat) (s : string) : option nat :=
  match k with
  | 0 => None
  | S k' =>
      match findTicks k (dropN k s) with
      | Some j => Some (k + j + k)
      | None => maskGroup k' s
      end
  end.

Definition maskRegex (s : string) : option nat := maskGroup (ticks s) s.

Definition digitChar (n : nat) : ascii := ascii_of_nat (48 + n).

(** The decimal numeral of [n]; [fuel] bounds the number of digits. *)
Fixpoint numeral (fuel n : nat) : string :=
  match fuel with
  | 0 => EmptyString
  | S fuel' =>
      (if (n <? 10)%nat then EmptyString else numeral fuel' (n / 10))
      +:+ String (digitChar (n mod 10)) EmptyString
  end.

Definition placeholder (index : nat) : string :=
  "@@CODE_BLOCK_" +:+ numeral (S index) index +:+ "@@".

(** [text.replace(maskRegex, ...)] from left to right: [skip] code units
    of the current match are still to be passed, [codeBlocks] is the array
    filled so far.  The result is the masked text and the array. *)
Fixpoint maskLoop (s : string) (skip : nat) (codeBlocks : list string)
    : string * list string :=
  match s with
  | EmptyString => (EmptyString, codeBlocks)
  | String c r =>
      match skip with
      | S k => maskLoop r k codeBlocks
      | 0 =>
          match maskRegex s with
          | Some n =>
              let '(out, blocks) :=
                maskLoop r (n - 1) (codeBlocks ++ [takeN n s]) in
              (placeholder (length codeBlocks) +:+ out, blocks)
          | None =>
              let '(out, blocks) := maskLoop r 0 codeBlocks in
              (String c out, blocks)
          end
      end
  end.

(** [mathSymbols]: one of = \ _ ^ > < occurs. *)
Definition isMathSymbol (c : ascii) : bool :=
  Ascii.eqb c "="%char || Ascii.eqb c backslash || Ascii.eqb c "_"%char ||
  Ascii.eqb c "^"%char || Ascii.eqb c ">"%char || Ascii.eqb c "<"%char.

Definition mathSymbols (content : string) : bool := anyChar isMathSymbol content.

Definition latexWord (s : string) : bool :=
  hasPrefix "[" s || hasPrefix "(" s || hasPrefix "begin" s.

(** [isExplicitLatex]: after white space, one or two backslashes followed
    by an opening bracket, an opening parenthesis or the word begin, or
    two dollar signs. *)
Definition isExplicitLatex (content : string) : bool :=
  match dropWhile isSpace content with
  | String c r =>
      if Ascii.eqb c backslash then
        match r with
        | String c2 r2 =>
            (Ascii.eqb c2 backslash && latexWord r2) || latexWord r
        | EmptyString => false
        end
      else hasPrefix "$$" (String c r)
  | EmptyString => false
  end.

(** An entry of the stack: the opening character and its index. *)
Record Entry := mkEntry { e_char : ascii; e_index : nat }.

Definition isOpen (c : ascii) : bool := Ascii.eqb c "("%char || Ascii.eqb c "["%char.
Definition isClose (c : ascii) : bool := Ascii.eqb c ")"%char || Ascii.eqb c "]"%char.

Definition closes (open close : ascii) : bool :=
  (Ascii.eqb open "("%char && Ascii.eqb close ")"%char) ||
  (Ascii.eqb open "["%char && Ascii.eqb close "]"%char).

Definition escaped (prev : option ascii) : bool :=
  match prev with
  | Some c => Ascii.eqb c backslash
  | None => false
  end.

(** What is appended to the result when the top-level group opened at
    [last] is closed by [char] at index [i]. *)
Definition closeGroup (maskedText : string) (last : Entry) (char : ascii) (i : nat)
    : string :=
  let content := substring maskedText (e_index last + 1) i in
  if mathSymbols content && negb (isExplicitLatex content) then
    (if Ascii.eqb (e_char last) "("%char then "\(" else "\[") +:+ content +:+
    (if Ascii.eqb char ")"%char then "\)" else "\]")
  else substring maskedText (e_index last) (i + 1).

(** The [for] loop over the masked text and the statement behind it:
    [rest] is the text from index [i] on, [prev] the code unit before it,
    and the stack has its top first. *)
Fixpoint scanLoop (maskedText rest : string) (i : nat) (prev : option ascii)
    (result : string) (stack : list Entry) (lastIndex : nat) : string :=
  match rest with
  | EmptyString => result +:+ dropN lastIndex maskedText
  | String char rest' =>
      let continue := scanLoop maskedText rest' (S i) (Some char) in
      if escaped prev then continue result stack lastIndex
      else if isOpen char then
        match stack with
        | [] =>
            continue (result +:+ substring maskedText lastIndex i)
                     [mkEntry char i] i
        | _ :: _ => continue result (mkEntry char i :: stack) lastIndex
        end
      else if isClose char then
        match stack with
        | last :: stack' =>
            if closes (e_char last) char then
              match stack' with
              | [] =>
                  continue (result +:+ closeGroup maskedText last char i)
                           [] (i + 1)
              | _ :: _ => continue result stack' lastIndex
              end
            else continue result stack lastIndex
        | [] => continue result stack lastIndex
        end
      else continue result stack lastIndex
  end.

(** [s.split(pat).join(block)] for a non-empty [pat]: every occurrence of
    [pat], found from left to right, replaced by [block]. *)
Fixpoint replaceAll (pat block : string) (s : string) (skip : nat) : string :=
  match s with
  | EmptyString => EmptyString
  | String c r =>
      match skip with
      | S k => replaceAll pat block r k
      | 0 =>
          if hasPrefix pat s
          then block +:+ replaceAll pat block r (String.length pat - 1)
          else String c (replaceAll pat block r 0)
      end
  end.

(** [codeBlocks.forEach] of the restoring step, from index [index] on. *)
Fixpoint restoreLoop (codeBlocks : list string) (index : nat) (result : string)
    : string :=
  match codeBlocks with
  | [] => result
  | block :: blocks =>
      restoreLoop blocks (S index) (replaceAll (placeholder index) block result 0)
  end.

Definition preprocessMath (text : string) : string :=
  if isEmpty text then text
  else
    let '(maskedText, codeBlocks) := maskLoop text 0 [] in
    restoreLoop codeBlocks 0
      (scanLoop maskedText maskedText 0 None EmptyString [] 0).

(** A string with every backslash taken out. *)
Fixpoint withoutBackslashes (s : string) : string :=
  match s with
  | EmptyString => EmptyString
  | String c r =>
      if Ascii.eqb c backslash then withoutBackslashes r
      else String c (withoutBackslashes r)
  end.

End Renderer.

(* ===================================================================== *)
(** ** Generated text: [cleanGeneratedText] of [gemini.js] *)
(* ===================================================================== *)

Module Gemini.
Import JS.

(** [text.replace(/^```[a-z]*\s*/i, '')]: an opening fence at the very
    start goes, with the letters and the white space behind it. *)
Definition removeStartFence (text : string) : string :=
  if Renderer.hasPrefix "```" text
  then dropWhile isSpace (dropWhile isLetter (Renderer.dropN 3 text))
  else text.

(** [text.replace(/```\s*$/, '')]: the text is cut at the first place
    where three backticks are followed by nothing but white space. *)
Fixpoint removeEndFence (text : string) : string :=
  match text with
  | EmptyString => EmptyString
  | String c r =>
      if Renderer.hasPrefix "```" text && allChars isSpace (Renderer.dropN 3 text)
      then EmptyString
      else String c (removeEndFence r)
  end.

Definition cleanGeneratedText (text : string) : string :=
  trim (removeEndFence (removeStartFence text)).

End Gemini.

(** The state of the scan at index [i] of the text [t]: the last index is
    behind, and the bottom of the stack, when there is one, is the opening
    character that stands at the last index. *)
Definition scan_ok (t : string) (i : nat) (stack : list Renderer.Entry)
    (lastIndex : nat) : Prop :=
  lastIndex ≤ i ∧
  match last stack with
  | None => True
  | Some b =>
      Renderer.e_index b = lastIndex ∧ lastIndex < i ∧
      Renderer.isOpen (Renderer.e_char b) = true ∧
      ∃ r, Renderer.dropN lastIndex t = String (Renderer.e_char b) r
  end.

(** A text without backtick. *)
Definition noBacktick (s : string) : bool :=
  negb (Renderer.anyChar (fun c => Ascii.eqb c Renderer.backtick) s).

(** The code unit before index [length a] of a text that has [a] just
    before that index and [prev] before [a]. *)
Fixpoint lastChar (prev : option ascii) (a : string) : option ascii :=
  match a with
  | EmptyString => prev
  | String c r => lastChar (Some c) r
  end.

Definition isBracket (c : ascii) : bool := Renderer.isOpen c || Renderer.isClose c.

(* ===================================================================== *)
(** ** Cards that hold the choices and nothing else *)
(* ===================================================================== *)

(** What the card of a question looks like beyond its choices depends on
    the page template and on the HTML that marked and DOMPurify return
    for the stem, the choice texts and the explanation; neither is part
    of the sources.  The statements that read the inputs and labels of a
    card therefore say which cards they are about: those that hold one
    label per choice, in order, as the [forEach] of [renderQuestion]
    creates it (data key and value the key of the choice, a radio input
    for a SINGLE question and a checkbox otherwise, the name q- followed
    by the id), unchecked, enabled and unmarked, with the explanation
    hidden and no status icon, and no other input or choice label. *)
Definition choices_only (q : Question) (card : Card) : Prop :=
  Forall2
    (fun choice l =>
       data_key l = c_key choice ∧ input_value l = c_key choice ∧
       input_type l = (if decide (type q = SINGLE) then radio else checkbox) ∧
       input_name l = "q-" +:+ q_id q ∧
       input_checked l = false ∧ input_disabled l = false ∧
       cls_disabled l = false ∧ unmarked l)
    (choices q) (labels card) ∧
  explanation_hidden card = true ∧
  status_icon card = None.

(** A session nobody has answered in yet: every question is open and has
    no recorded keys, every card holds the choices of its question and
    nothing else, and the counters are as [processAndRender] leaves
    them.  Recorded keys have to be asked for: [processAndRender] does
    not clear [userSelectedKeys] when it runs again on questions of an
    earlier round. *)
Definition fresh_session (s : Session) : Prop :=
  Forall2 choices_only (questions s) (cards s) ∧
  Forall (fun q => (status q = unanswered ∨ status q = ungraded) ∧
                   userSelectedKeys q = None)
         (questions s) ∧
  stats (page s) = mkStats (length (questions s)) 0 0 ∧
  scoreboard (page s) = updateScoreboard (stats (page s)).

(** A stem that can follow the digits of a question-start line directly:
    it begins with neither a digit, a separator nor an opening bracket,
    and it holds no line terminator. *)
Definition plainStem (txt : string) : bool :=
  match txt with
  | EmptyString => true
  | String c _ =>
      negb (JS.isDigit c) && negb (JS.isSep c) && negb (Ascii.eqb c "["%char)
  end &&
  allChars (fun c => negb (JS.isLineTerminator c)) txt.

(* ===================================================================== *)
(** * Verification *)
(* ===================================================================== *)

(** ** Scoring *)

Section Scoring.
Import Score.

(** [Math.round] rounds a tie towards positive infinity, on both sides of
    zero, and does not round the largest Number below one half up.  The
    fourth operand is the binary64 value of 23 / 40 * 100, printed
    57.49999999999999 by JavaScript. *)
Example Math_round_ties :
  Math_round 2.5%float = 3%Z ∧ Math_round (-2.5)%float = (-2)%Z ∧
  Math_round 0x1.fffffffffffffp-2%float = 0%Z ∧
  Math_round 0x1.cbfffffffffffp+5%float = 57%Z ∧
  PrimFloat.mul (PrimFloat.div (Number_of_nat 23) (Number_of_nat 40))
                (Number_of_nat 100) = 0x1.cbfffffffffffp+5%float ∧
  Math_round 75%float = 75%Z.
Proof. vm_compute. done. Qed.

(** The two roundings agree on 1 of 8 (12.5 shows 13) and differ on 23 of
    40 (57.5 shows 57): no fixed rule for ties applied to the exact
    quotient gives what the scoreboard shows. *)
Example percent_on_ties :
  percent 1 7 = 13%Z ∧ percent_exact 1 7 = 13%Z ∧
  percent 23 17 = 57%Z ∧ percent_exact 23 17 = 58%Z.
Proof. vm_compute. done. Qed.

Lemma percent_zero c i : c + i = 0 → percent c i = 0%Z.
Proof.
  intros H. unfold percent. rewrite H. reflexivity.
Qed.

End Scoring.

(** *** The percentage in binary64

    [Score.percent] rounds twice before [Math.round]: the quotient
    correct / answered and its product with 100.  Both roundings are
    followed here on the mantissas, from the definitions of [SpecFloat]
    that the primitive operations are specified by, to show that the
    percentage grows with the quotient; the halfway points are then
    separated from every quotient a quiz can reach by evaluating the
    percentage next to them. *)

Section Shifts.
Import Rounding.
Local Open Scope Z_scope.

Lemma digits2_pos_log2 p : Zpos (digits2_pos p) = Z.log2 (Zpos p) + 1.
Proof.
  assert (H : ∀ q, digits2_pos q = Pos.size q).
  { intros q. induction q as [q IH|q IH|]; cbn; by rewrite ?IH. }
  rewrite H. destruct p as [p|p|]; cbn; try lia.
Qed.

(** The number of binary digits of a positive integer. *)
Lemma Zdigits2_bounds m : 0 < m → 2 ^ (Zdigits2 m - 1) ≤ m < 2 ^ Zdigits2 m.
Proof.
  intros Hm. destruct m as [|p|p]; try lia.
  cbn [Zdigits2]. rewrite digits2_pos_log2.
  replace (Z.log2 (Z.pos p) + 1 - 1) with (Z.log2 (Z.pos p)) by lia.
  replace (Z.log2 (Z.pos p) + 1) with (Z.succ (Z.log2 (Z.pos p))) by lia.
  apply Z.log2_spec. lia.
Qed.

Lemma Zdigits2_unique m d : 2 ^ (d - 1) ≤ m < 2 ^ d → 0 < m → Zdigits2 m = d.
Proof.
  intros Hd Hm. destruct m as [|p|p]; try lia.
  cbn [Zdigits2]. rewrite digits2_pos_log2.
  assert (Z.log2 (Z.pos p) = d - 1); [|lia].
  apply Z.log2_unique.
  - destruct (Z_lt_le_dec (d - 1) 0) as [Hneg|]; [|done].
    destruct Hd as [_ Hd]. 
    destruct (Z_lt_le_dec d 0) as [Hneg'|Hd0].
    + rewrite Z.pow_neg_r in Hd by done. lia.
    + assert (d = 0) by lia. subst d. cbn in Hd. lia.
  - by replace (Z.succ (d - 1)) with d by lia.
Qed.


(** The location [SFdiv] computes from the remainder is the one of the
    quotient. *)
Lemma new_location_locate N D :
  0 < D → new_location D (N mod D) = locate N D.
Proof.
  intros HD. pose proof (Z.mod_pos_bound N D HD) as Hr.
  unfold new_location, locate, new_location_even, new_location_odd.
  destruct (Z.even D) eqn:Ev; [done|].
  destruct (N mod D =? 0) eqn:E0; [done|]. f_equal.
  apply Z.eqb_neq in E0.
  assert (Hodd : Z.odd D = true) by (by rewrite <- Z.negb_even, Ev).
  apply Z.odd_spec in Hodd as [k Hk].
  destruct (Z.compare_spec (2 * (N mod D) + 1) D);
    destruct (Z.compare_spec (2 * (N mod D)) D); try done; lia.
Qed.

Lemma shr_1_nonneg m r s :
  0 ≤ m → shr_1 (Build_shr_record m r s) = Build_shr_record (m / 2) (Z.odd m) (r || s).
Proof.
  intros Hm. rewrite <- Z.div2_div.
  destruct m as [|[p|p|]|]; try done; lia.
Qed.

Lemma record_of_locate N D :
  0 ≤ N → 0 < D →
  shr_record_of_loc (N / D) (locate N D)
  = Build_shr_record (N / D) (D <=? 2 * (N mod D))
      (negb (N mod D =? 0) && negb (2 * (N mod D) =? D)).
Proof.
  intros HN HD. unfold locate.
  destruct (N mod D =? 0) eqn:E0.
  - apply Z.eqb_eq in E0. rewrite E0. cbn.
    replace (D <=? 2 * 0) with false by (symmetry; apply Z.leb_gt; lia). done.
  - cbn. destruct (Z.compare_spec (2 * (N mod D)) D) as [E|E|E]; cbn.
    + rewrite E, Z.leb_refl, Z.eqb_refl. done.
    + replace (D <=? 2 * (N mod D)) with false by (symmetry; apply Z.leb_gt; lia).
      replace (2 * (N mod D) =? D) with false by (symmetry; apply Z.eqb_neq; lia).
      done.
    + replace (D <=? 2 * (N mod D)) with true by (symmetry; apply Z.leb_le; lia).
      replace (2 * (N mod D) =? D) with false by (symmetry; apply Z.eqb_neq; lia).
      done.
Qed.

Lemma div_mod_double N D :
  0 ≤ N → 0 < D →
  N / (2 * D) = N / D / 2 ∧
  N mod (2 * D) = N mod D + D * (N / D mod 2).
Proof.
  intros HN HD. split.
  - rewrite (Z.mul_comm 2 D). symmetry. apply Z.div_div; lia.
  - rewrite (Z.mul_comm 2 D). apply Z.rem_mul_r; lia.
Qed.

(** One step to the right keeps the record in line with the quotient. *)
Lemma shr_1_locate N D :
  0 ≤ N → 0 < D →
  shr_1 (shr_record_of_loc (N / D) (locate N D))
  = shr_record_of_loc (N / (2 * D)) (locate N (2 * D)).
Proof.
  intros HN HD.
  rewrite !record_of_locate by lia.
  rewrite shr_1_nonneg by (apply Z.div_pos; lia).
  destruct (div_mod_double N D HN HD) as [Hq Hr].
  rewrite Hq, Hr.
  pose proof (Z.mod_pos_bound N D HD) as Hb.
  assert (Hodd : N / D mod 2 = if Z.odd (N / D) then 1 else 0).
  { rewrite Zmod_odd. done. }
  rewrite Hodd.
  destruct (Z.odd (N / D));
    repeat match goal with
           | |- context [?a <=? ?b] => destruct (Z.leb_spec a b)
           | |- context [?a =? ?b] => destruct (Z.eqb_spec a b)
           end; cbn; try reflexivity; exfalso; lia.
Qed.

Lemma pow2_xO p : 2 ^ Zpos p~0 = 2 ^ Zpos p * 2 ^ Zpos p.
Proof.
  replace (Zpos p~0) with (Zpos p + Zpos p) by lia.
  apply Z.pow_add_r; lia.
Qed.

Lemma pow2_xI p : 2 ^ Zpos p~1 = 2 * (2 ^ Zpos p * 2 ^ Zpos p).
Proof.
  replace (Zpos p~1) with (1 + (Zpos p + Zpos p)) by lia.
  rewrite !Z.pow_add_r by lia. done.
Qed.

(** Shifting a quotient to the right divides by the power of two, and
    the record keeps track of what is dropped. *)
Lemma iter_pos_shr_1 p : ∀ N D,
  0 ≤ N → 0 < D →
  SpecFloat.iter_pos shr_1 p (shr_record_of_loc (N / D) (locate N D))
  = shr_record_of_loc (N / (D * 2 ^ Zpos p)) (locate N (D * 2 ^ Zpos p)).
Proof.
  induction p as [p IH|p IH|]; intros N D HN HD; cbn [SpecFloat.iter_pos].
  - assert (Hp : 0 < 2 ^ Z.pos p) by (apply Z.pow_pos_nonneg; lia).
    rewrite shr_1_locate by lia.
    rewrite IH by lia. rewrite IH by (try apply Z.mul_pos_pos; lia).
    rewrite pow2_xI. f_equal; f_equal; lia.
  - assert (Hp : 0 < 2 ^ Z.pos p) by (apply Z.pow_pos_nonneg; lia).
    rewrite IH by lia. rewrite IH by (try apply Z.mul_pos_pos; lia).
    rewrite pow2_xO. f_equal; f_equal; lia.
  - rewrite shr_1_locate by lia. change (2 ^ 1) with 2.
    by rewrite (Z.mul_comm D 2).
Qed.


(** The rounded quotient is within one half of the quotient, and even
    when it is exactly one half away. *)
Lemma RNE_spec N D :
  0 ≤ N → 0 < D →
  (2 * RNE N D - 1) * D ≤ 2 * N ≤ (2 * RNE N D + 1) * D ∧
  (2 * N = (2 * RNE N D + 1) * D → Z.even (RNE N D) = true) ∧
  (2 * N = (2 * RNE N D - 1) * D → Z.even (RNE N D) = true).
Proof.
  intros HN HD. unfold RNE, locate, round_nearest_even.
  pose proof (Z.div_mod N D ltac:(lia)) as Hdm.
  pose proof (Z.mod_pos_bound N D HD) as Hb.
  destruct (Z.eqb_spec (N mod D) 0) as [E|E].
  - repeat split; try lia.
  - destruct (Z.compare_spec (2 * (N mod D)) D) as [C|C|C].
    + destruct (Z.even (N / D)) eqn:Ev.
      * repeat split; try lia. done.
      * assert (Z.even (N / D + 1) = true).
        { rewrite Z.even_add, Ev. done. }
        repeat split; try lia; done.
    + repeat split; try lia.
    + repeat split; try lia.
Qed.

(** Rounding is monotone in the quotient. *)
Lemma RNE_mono N D N' D' :
  0 ≤ N → 0 < D → 0 ≤ N' → 0 < D' → N * D' ≤ N' * D →
  RNE N D ≤ RNE N' D'.
Proof.
  intros HN HD HN' HD' Hle.
  destruct (RNE_spec N D HN HD) as ([Hlo _] & _ & Hev).
  destruct (RNE_spec N' D' HN' HD') as ([_ Hhi] & Hev' & _).
  destruct (Z_le_gt_dec (RNE N D) (RNE N' D')) as [|Hgt]; [done|exfalso].
  set (n := RNE N D) in *. set (n' := RNE N' D') in *.
  assert (H1 : (2 * n - 1) * D * D' ≤ 2 * N * D') by nia.
  assert (H2 : 2 * N' * D ≤ (2 * n' + 1) * D' * D) by nia.
  assert (H3 : (2 * n - 1) * (D * D') ≤ (2 * n' + 1) * (D * D')) by nia.
  assert (HDD : 0 < D * D') by nia.
  assert (H4 : 2 * n - 1 ≤ 2 * n' + 1).
  { apply (Z.mul_le_mono_pos_r _ _ (D * D')); done. }
  assert (n = n' + 1) by lia.
  assert (E1 : 2 * N = (2 * n - 1) * D) by nia.
  assert (E2 : 2 * N' = (2 * n' + 1) * D') by nia.
  specialize (Hev E1). specialize (Hev' E2).
  subst n. rewrite H, Z.even_add, Hev' in Hev. done.
Qed.

Lemma RNE_exact n D : 0 < D → RNE (n * D) D = n.
Proof.
  intros HD. unfold RNE, locate.
  rewrite Z.mod_mul, Z.div_mul by lia. done.
Qed.

Lemma RNE_scale k N D : 0 < k → 0 < D → RNE (k * N) (k * D) = RNE N D.
Proof.
  intros Hk HD. unfold RNE, locate.
  rewrite Z.div_mul_cancel_l, Z.mul_mod_distr_l by lia.
  replace (k * (N mod D) =? 0) with (N mod D =? 0).
  2:{ destruct (Z.eqb_spec (N mod D) 0), (Z.eqb_spec (k * (N mod D)) 0);
        try done; nia. }
  replace (2 * (k * (N mod D)) ?= k * D) with (2 * (N mod D) ?= D); [done|].
  replace (2 * (k * (N mod D))) with (k * (2 * (N mod D))) by lia.
  destruct (Z.compare_spec (2 * (N mod D)) D),
    (Z.compare_spec (k * (2 * (N mod D))) (k * D)); try done; nia.
Qed.

(** Bounds of the rounded value from bounds of the quotient. *)
Lemma RNE_bounds N D L U :
  0 ≤ N → 0 < D → L * D ≤ N → N ≤ U * D → L ≤ RNE N D ≤ U.
Proof.
  intros HN HD HL HU. split.
  - rewrite <- (RNE_exact L D HD).
    destruct (Z_le_gt_dec 0 (L * D)).
    + apply RNE_mono; try lia. nia.
    + assert (L < 0) by nia. rewrite RNE_exact by done.
      destruct (RNE_spec N D HN HD) as ([_ Hhi] & _). nia.
  - rewrite <- (RNE_exact U D HD). apply RNE_mono; try lia; nia.
Qed.

Lemma loc_of_record m l : loc_of_shr_record (shr_record_of_loc m l) = l.
Proof. by destruct l as [|[]]. Qed.

Lemma shr_m_record m l : shr_m (shr_record_of_loc m l) = m.
Proof. by destruct l as [|[]]. Qed.

(** The shift that brings a mantissa of more than 53 digits back to 53,
    away from the subnormal range. *)
Lemma shr_fexp_locate N D ex :
  0 ≤ N → 0 < D → 2 ^ 52 ≤ N / D →
  -1074 ≤ ex + (Zdigits2 (N / D) - 53) →
  shr_fexp prec emax (N / D) ex (locate N D)
  = (shr_record_of_loc (N / (D * 2 ^ (Zdigits2 (N / D) - 53)))
       (locate N (D * 2 ^ (Zdigits2 (N / D) - 53))),
     ex + (Zdigits2 (N / D) - 53)).
Proof.
  intros HN HD Hq Hex.
  pose proof (Zdigits2_bounds (N / D) ltac:(lia)) as Hd.
  assert (Hd53 : 53 ≤ Zdigits2 (N / D)).
  { destruct (Z_lt_le_dec (Zdigits2 (N / D)) 53) as [Hlt|]; [|done].
    assert (2 ^ Zdigits2 (N / D) ≤ 2 ^ 52) by (apply Z.pow_le_mono_r; lia).
    lia. }
  unfold shr_fexp, fexp, emin, prec, emax.
  replace (Z.max (Zdigits2 (N / D) + ex - 53) (3 - 1024 - 53) - ex)
    with (Zdigits2 (N / D) - 53) by lia.
  destruct (Zdigits2 (N / D) - 53) as [|p|p] eqn:En; try lia.
  - cbn [shr]. by rewrite Z.mul_1_r, Z.add_0_r.
  - cbn [shr]. by rewrite iter_pos_shr_1 by lia.
Qed.

(** The rounding step of every binary64 operation, on a quotient of at
    least 53 digits and away from underflow and overflow: the mantissa is
    the quotient shifted to 53 digits and rounded to nearest, ties to
    even. *)
Lemma binary_round_aux_normal N D ex :
  0 ≤ N → 0 < D → 2 ^ 52 ≤ N / D →
  -1074 ≤ ex + (Zdigits2 (N / D) - 53) →
  ex + (Zdigits2 (N / D) - 53) + 1 ≤ 971 →
  binary_round_aux prec emax false (N / D) ex (locate N D)
  = normal (RNE N (D * 2 ^ (Zdigits2 (N / D) - 53)))
           (ex + (Zdigits2 (N / D) - 53)).
Proof.
  intros HN HD Hq Hlo Hhi.
  pose proof (Zdigits2_bounds (N / D) ltac:(lia)) as Hd.
  assert (Hd53 : 53 ≤ Zdigits2 (N / D)).
  { destruct (Z_lt_le_dec (Zdigits2 (N / D)) 53) as [Hlt|]; [|done].
    assert (2 ^ Zdigits2 (N / D) ≤ 2 ^ 52) by (apply Z.pow_le_mono_r; lia).
    lia. }
  set (n := Zdigits2 (N / D) - 53) in *.
  assert (Hn : 0 < 2 ^ n) by (apply Z.pow_pos_nonneg; lia).
  assert (HD' : 0 < D * 2 ^ n) by nia.
  (* the quotient by the shifted denominator has 53 digits *)
  assert (Hq' : 2 ^ 52 * (D * 2 ^ n) ≤ N < 2 ^ 53 * (D * 2 ^ n)).
  { assert (E1 : 2 ^ (Zdigits2 (N / D) - 1) = 2 ^ 52 * 2 ^ n).
    { unfold n. rewrite <- Z.pow_add_r by lia. f_equal. lia. }
    assert (E2 : 2 ^ Zdigits2 (N / D) = 2 ^ 53 * 2 ^ n).
    { unfold n. rewrite <- Z.pow_add_r by lia. f_equal. lia. }
    rewrite E1, E2 in Hd.
    pose proof (Z.div_mod N D ltac:(lia)) as Hdm.
    pose proof (Z.mod_pos_bound N D HD) as Hb.
    split; nia. }
  assert (HM : 2 ^ 52 ≤ RNE N (D * 2 ^ n) ≤ 2 ^ 53).
  { apply RNE_bounds; lia. }
  set (M := RNE N (D * 2 ^ n)) in *.
  unfold binary_round_aux.
  rewrite (shr_fexp_locate N D ex) by done. fold n.
  rewrite shr_m_record, loc_of_record. fold (RNE N (D * 2 ^ n)). fold M.
  (* the second shift, for a mantissa that has reached 2^53 *)
  assert (HM1 : M = M * 1 / 1) by (by rewrite Z.mul_1_r, Z.div_1_r).
  assert (Hloc : loc_Exact = locate (M * 1) 1).
  { unfold locate. by rewrite Z.mod_1_r. }
  rewrite HM1 at 1. rewrite Hloc.
  rewrite (shr_fexp_locate (M * 1) 1 (ex + n)); rewrite <- ?HM1; try lia.
  2:{ pose proof (Zdigits2_bounds M ltac:(lia)).
      destruct (Z_lt_le_dec (Zdigits2 M) 53) as [Hlt|]; [|lia].
      assert (2 ^ Zdigits2 M ≤ 2 ^ 52) by (apply Z.pow_le_mono_r; lia).
      lia. }
  rewrite shr_m_record. unfold normal.
  destruct (Z.eqb_spec M (2 ^ 53)) as [E|E].
  - rewrite E. 
    replace (Zdigits2 (2 ^ 53)) with 54 by (by vm_compute).
    change (54 - 53) with 1. change (2 ^ 53 * 1 / (1 * 2 ^ 1)) with (2 ^ 52).
    change (2 ^ 52) with (Zpos (Z.to_pos (2 ^ 52))) at 1.
    cbv iota beta.
    replace (ex + n + 1 <=? emax - prec) with true; [done|].
    symmetry. apply Z.leb_le. unfold emax, prec. lia.
  - assert (Hd' : Zdigits2 M = 53).
    { apply Zdigits2_unique; lia. }
    rewrite Hd'. change (53 - 53) with 0.
    rewrite Z.mul_1_r, Z.div_1_r, Z.add_0_r.
    destruct M as [|m|m] eqn:EM; try lia.
    cbv iota beta.
    replace (ex + n <=? emax - prec) with true; [done|].
    symmetry. apply Z.leb_le. unfold emax, prec. lia.
Qed.


(** Equal quotients round alike. *)
Lemma RNE_cross N D N' D' :
  0 ≤ N → 0 < D → 0 ≤ N' → 0 < D' → N * D' = N' * D →
  RNE N D = RNE N' D'.
Proof.
  intros. apply Z.le_antisymm; apply RNE_mono; lia.
Qed.

Lemma Zdigits2_53 M : 2 ^ 52 ≤ M < 2 ^ 53 → Zdigits2 M = 53.
Proof. intros. apply Zdigits2_unique; lia. Qed.

(** Rounding an integer mantissa. *)
Lemma binary_round_aux_int N e :
  2 ^ 52 ≤ N →
  -1074 ≤ e + (Zdigits2 N - 53) → e + (Zdigits2 N - 53) + 1 ≤ 971 →
  binary_round_aux prec emax false N e loc_Exact
  = normal (RNE N (2 ^ (Zdigits2 N - 53))) (e + (Zdigits2 N - 53)).
Proof.
  intros HN Hlo Hhi.
  pose proof (binary_round_aux_normal (N * 1) 1 e) as H.
  rewrite Z.mul_1_r, Z.div_1_r, Z.mul_1_l in H.
  replace (locate N 1) with loc_Exact in H.
  2:{ unfold locate. by rewrite Z.mod_1_r. }
  apply H; lia.
Qed.

Lemma binary_round_aux_exact M e :
  2 ^ 52 ≤ M < 2 ^ 53 → -1074 ≤ e ≤ 970 →
  binary_round_aux prec emax false M e loc_Exact
  = S754_finite false (Z.to_pos M) e.
Proof.
  intros HM He.
  rewrite binary_round_aux_int; rewrite ?Zdigits2_53 by done; try lia.
  change (53 - 53) with 0. change (2 ^ 0) with 1.
  replace M with (M * 1) at 1 by lia.
  rewrite RNE_exact, Z.add_0_r by lia. unfold normal.
  destruct (Z.eqb_spec M (2 ^ 53)); [lia|done].
Qed.

Lemma iter_xO p d : Zpos (Pos.iter xO p d) = Zpos p * 2 ^ Zpos d.
Proof.
  change (Pos.iter xO p d) with (shift_pos d p).
  rewrite shift_pos_correct.
  change (Z.pow_pos 2 d) with (2 ^ Zpos d). lia.
Qed.

(** A count below 2^53 as a binary64 number: the mantissa is shifted to
    53 digits. *)
Lemma Prim2SF_count n :
  0 < n < 2 ^ 53 →
  Prim2SF (of_uint63 (of_Z n))
  = S754_finite false (Z.to_pos (n * 2 ^ (53 - Zdigits2 n))) (Zdigits2 n - 53).
Proof.
  intros Hn.
  rewrite FloatAxioms.of_uint63_spec, Uint63.of_Z_spec, Z.mod_small.
  2:{ change wB with (2 ^ 63). lia. }
  pose proof (Zdigits2_bounds n ltac:(lia)) as Hd.
  assert (Hd53 : Zdigits2 n ≤ 53).
  { destruct (Z_le_gt_dec (Zdigits2 n) 53) as [|Hgt]; [done|].
    assert (2 ^ 53 ≤ 2 ^ (Zdigits2 n - 1)) by (apply Z.pow_le_mono_r; lia).
    lia. }
  assert (Hd1 : 1 ≤ Zdigits2 n).
  { destruct n as [|p|p]; try lia. cbn [Zdigits2]. lia. }
  assert (HM : 2 ^ 52 ≤ n * 2 ^ (53 - Zdigits2 n) < 2 ^ 53).
  { replace (2 ^ 52) with (2 ^ (Zdigits2 n - 1) * 2 ^ (53 - Zdigits2 n)).
    2:{ rewrite <- Z.pow_add_r by lia. f_equal. lia. }
    replace (2 ^ 53) with (2 ^ Zdigits2 n * 2 ^ (53 - Zdigits2 n)).
    2:{ rewrite <- Z.pow_add_r by lia. f_equal. lia. }
    assert (0 < 2 ^ (53 - Zdigits2 n)) by (apply Z.pow_pos_nonneg; lia).
    split; nia. }
  destruct n as [|p|p]; try lia.
  cbn [binary_normalize]. unfold binary_round, shl_align, fexp, emin, prec, emax.
  change (Zpos (digits2_pos p)) with (Zdigits2 (Zpos p)).
  set (d := Zdigits2 (Zpos p)) in *.
  replace (Z.max (d + 0 - 53) (3 - 1024 - 53) - 0) with (d - 53) by lia.
  replace (Z.max (d + 0 - 53) (3 - 1024 - 53)) with (d - 53) by lia.
  destruct (d - 53) as [|k|k] eqn:Ek; try lia.
  - replace (53 - d) with 0 in * by lia.
    rewrite Z.mul_1_r in *.
    by rewrite binary_round_aux_exact by lia.
  - rewrite iter_xO. replace (53 - d) with (Zpos k) in * by lia.
    by rewrite binary_round_aux_exact by lia.
Qed.

Lemma div_eucl_div_mod a b : Z.div_eucl a b = (a / b, a mod b).
Proof. unfold Z.div, Z.modulo. by destruct (Z.div_eucl a b). Qed.

(** The quotient of two normal numbers. *)
Lemma SFdiv_normal Mx ex My ey :
  2 ^ 52 ≤ Mx < 2 ^ 53 → 2 ^ 52 ≤ My < 2 ^ 53 →
  -1021 ≤ ex - ey →
  ex - ey - 53 + (Zdigits2 (Mx * 2 ^ 53 / My) - 53) + 1 ≤ 971 →
  SFdiv prec emax (S754_finite false (Z.to_pos Mx) ex)
                  (S754_finite false (Z.to_pos My) ey)
  = normal (RNE (Mx * 2 ^ 53) (My * 2 ^ (Zdigits2 (Mx * 2 ^ 53 / My) - 53)))
           (ex - ey - 53 + (Zdigits2 (Mx * 2 ^ 53 / My) - 53)).
Proof.
  intros HMx HMy Hlo Hhi.
  unfold SFdiv, SFdiv_core_binary.
  rewrite !Z2Pos.id by lia. rewrite !Zdigits2_53 by done.
  unfold fexp, emin, prec, emax.
  replace (Z.min (Z.max (53 + ex - (53 + ey) - 53) (3 - 1024 - 53)) (ex - ey))
    with (ex - ey - 53) by lia.
  replace (ex - ey - (ex - ey - 53)) with 53 by lia.
  rewrite Z.shiftl_mul_pow2 by lia.
  rewrite div_eucl_div_mod.
  rewrite new_location_locate by lia. cbn [xorb].
  assert (Hq : 2 ^ 52 ≤ Mx * 2 ^ 53 / My).
  { apply Z.div_le_lower_bound; lia. }
  pose proof (Zdigits2_bounds (Mx * 2 ^ 53 / My) ltac:(lia)) as Hd.
  assert (53 ≤ Zdigits2 (Mx * 2 ^ 53 / My)).
  { destruct (Z_lt_le_dec (Zdigits2 (Mx * 2 ^ 53 / My)) 53) as [Hlt|]; [|done].
    assert (2 ^ Zdigits2 (Mx * 2 ^ 53 / My) ≤ 2 ^ 52)
      by (apply Z.pow_le_mono_r; lia).
    lia. }
  apply binary_round_aux_normal; lia.
Qed.


Lemma bounds_cross N1 D1 N2 D2 L U :
  0 < D1 → 0 < D2 → N1 * D2 = N2 * D1 →
  L * D1 ≤ N1 < U * D1 → L * D2 ≤ N2 < U * D2.
Proof.
  intros HD1 HD2 E [Hl Hu]. split.
  - apply (Z.mul_le_mono_pos_r _ _ D1); [done|].
    replace (L * D2 * D1) with (L * D1 * D2) by lia. rewrite <- E.
    by apply Z.mul_le_mono_nonneg_r; [lia|].
  - apply (Z.mul_lt_mono_pos_r D1); [done|].
    replace (U * D2 * D1) with (U * D1 * D2) by lia. rewrite <- E.
    by apply Z.mul_lt_mono_pos_r.
Qed.

Lemma quotient_shift_bounds N D :
  0 ≤ N → 0 < D → 2 ^ 52 ≤ N / D →
  53 ≤ Zdigits2 (N / D) ∧
  2 ^ 52 * (D * 2 ^ (Zdigits2 (N / D) - 53)) ≤ N
    < 2 ^ 53 * (D * 2 ^ (Zdigits2 (N / D) - 53)).
Proof.
  intros HN HD Hq.
  pose proof (Zdigits2_bounds (N / D) ltac:(lia)) as Hd.
  assert (Hd53 : 53 ≤ Zdigits2 (N / D)).
  { destruct (Z_lt_le_dec (Zdigits2 (N / D)) 53) as [Hlt|]; [|done].
    assert (2 ^ Zdigits2 (N / D) ≤ 2 ^ 52) by (apply Z.pow_le_mono_r; lia).
    lia. }
  split; [done|].
  set (n := Zdigits2 (N / D) - 53) in *.
  assert (Hn : 0 < 2 ^ n) by (apply Z.pow_pos_nonneg; lia).
  assert (E1 : 2 ^ (Zdigits2 (N / D) - 1) = 2 ^ 52 * 2 ^ n).
  { unfold n. rewrite <- Z.pow_add_r by lia. f_equal. lia. }
  assert (E2 : 2 ^ Zdigits2 (N / D) = 2 ^ 53 * 2 ^ n).
  { unfold n. rewrite <- Z.pow_add_r by lia. f_equal. lia. }
  rewrite E1, E2 in Hd.
  pose proof (Z.div_mod N D ltac:(lia)) as Hdm.
  pose proof (Z.mod_pos_bound N D HD) as Hb.
  split; nia.
Qed.


Lemma count_mantissa n :
  0 < n < 2 ^ 53 →
  1 ≤ Zdigits2 n ≤ 53 ∧ 2 ^ 52 ≤ n * 2 ^ (53 - Zdigits2 n) < 2 ^ 53.
Proof.
  intros Hn.
  pose proof (Zdigits2_bounds n ltac:(lia)) as Hd.
  assert (Hd53 : Zdigits2 n ≤ 53).
  { destruct (Z_le_gt_dec (Zdigits2 n) 53) as [|Hgt]; [done|].
    assert (2 ^ 53 ≤ 2 ^ (Zdigits2 n - 1)) by (apply Z.pow_le_mono_r; lia).
    lia. }
  assert (Hd1 : 1 ≤ Zdigits2 n).
  { destruct n as [|p|p]; try lia. cbn [Zdigits2]. lia. }
  split; [lia|].
  replace (2 ^ 52) with (2 ^ (Zdigits2 n - 1) * 2 ^ (53 - Zdigits2 n)).
  2:{ rewrite <- Z.pow_add_r by lia. f_equal. lia. }
  replace (2 ^ 53) with (2 ^ Zdigits2 n * 2 ^ (53 - Zdigits2 n)).
  2:{ rewrite <- Z.pow_add_r by lia. f_equal. lia. }
  assert (0 < 2 ^ (53 - Zdigits2 n)) by (apply Z.pow_pos_nonneg; lia).
  split; nia.
Qed.

Lemma Zdigits2_mono a b : 0 < a → a ≤ b → Zdigits2 a ≤ Zdigits2 b.
Proof.
  intros Ha Hab.
  pose proof (Zdigits2_bounds a ltac:(lia)) as Hda.
  pose proof (Zdigits2_bounds b ltac:(lia)) as Hdb.
  destruct (Z_le_gt_dec (Zdigits2 a) (Zdigits2 b)) as [|Hgt]; [done|].
  assert (2 ^ Zdigits2 b ≤ 2 ^ (Zdigits2 a - 1)).
  { apply Z.pow_le_mono_r; [lia|lia]. }
  lia.
Qed.

Lemma rounded_range a b M s :
  0 ≤ a → 0 < b → rounded a b M s → 2 ^ 52 ≤ M ≤ 2 ^ 53.
Proof.
  intros Ha Hb (Hs & Hab & ->).
  assert (0 < 2 ^ s) by (apply Z.pow_pos_nonneg; lia).
  apply RNE_bounds; nia.
Qed.

Lemma normal_finite M e :
  2 ^ 52 ≤ M ≤ 2 ^ 53 →
  ∃ m j, (j = 0 ∨ j = 1) ∧ 2 ^ 52 ≤ m < 2 ^ 53 ∧ M = m * 2 ^ j ∧
         normal M e = S754_finite false (Z.to_pos m) (e + j).
Proof.
  intros HM. unfold normal. destruct (Z.eqb_spec M (2 ^ 53)) as [E|E].
  - exists (2 ^ 52), 1. repeat split; lia.
  - exists M, 0. rewrite Z.add_0_r. repeat split; lia.
Qed.

End Shifts.

Section Percent.
Import Rounding.
Local Open Scope Z_scope.

(** The quotient of two counters, correct / answered. *)
Lemma div_counts c t :
  0 < c → c ≤ t → t < 2 ^ 53 →
  ∃ M s, rounded c t M s ∧ 52 ≤ s ≤ 106 ∧
    Prim2SF (PrimFloat.div (of_uint63 (of_Z c)) (of_uint63 (of_Z t)))
    = normal M (- s).
Proof.
  intros Hc Hct Ht.
  rewrite FloatAxioms.div_spec, !Prim2SF_count by lia.
  destruct (count_mantissa c ltac:(lia)) as [Hdc HMc].
  destruct (count_mantissa t ltac:(lia)) as [Hdt HMt].
  pose proof (Zdigits2_mono c t Hc Hct) as Hdd.
  set (dc := Zdigits2 c) in *. set (dt := Zdigits2 t) in *.
  set (Mc := c * 2 ^ (53 - dc)) in *. set (Mt := t * 2 ^ (53 - dt)) in *.
  assert (Hq : 2 ^ 52 ≤ Mc * 2 ^ 53 / Mt).
  { apply Z.div_le_lower_bound; lia. }
  assert (Hq' : Mc * 2 ^ 53 / Mt < 2 ^ 54).
  { apply Z.div_lt_upper_bound; lia. }
  destruct (quotient_shift_bounds (Mc * 2 ^ 53) Mt ltac:(lia) ltac:(lia) Hq)
    as [Hn Hb].
  pose proof (Zdigits2_bounds (Mc * 2 ^ 53 / Mt) ltac:(lia)) as Hd.
  assert (Hn' : Zdigits2 (Mc * 2 ^ 53 / Mt) ≤ 54).
  { destruct (Z_le_gt_dec (Zdigits2 (Mc * 2 ^ 53 / Mt)) 54) as [|Hgt]; [done|].
    assert (2 ^ 54 ≤ 2 ^ (Zdigits2 (Mc * 2 ^ 53 / Mt) - 1))
      by (apply Z.pow_le_mono_r; lia).
    lia. }
  unfold SF64div. rewrite SFdiv_normal by lia.
  set (n := Zdigits2 (Mc * 2 ^ 53 / Mt) - 53) in *.
  assert (E : 2 ^ (53 - dc) * 2 ^ 53
              = 2 ^ (53 + dt - dc - n) * (2 ^ (53 - dt) * 2 ^ n)).
  { rewrite <- !Z.pow_add_r by lia. f_equal. lia. }
  assert (X : Mc * 2 ^ 53 * t = c * 2 ^ (53 + dt - dc - n) * (Mt * 2 ^ n)).
  { unfold Mc, Mt.
    replace (c * 2 ^ (53 - dc) * 2 ^ 53 * t)
      with (c * t * (2 ^ (53 - dc) * 2 ^ 53)) by ring.
    rewrite E. ring. }
  assert (0 < 2 ^ n) by (apply Z.pow_pos_nonneg; lia).
  assert (0 < 2 ^ (53 + dt - dc - n)) by (apply Z.pow_pos_nonneg; lia).
  exists (RNE (Mc * 2 ^ 53) (Mt * 2 ^ n)), (53 + dt - dc - n).
  split; [|split; [lia|]].
  - split; [lia|]. split.
    + apply (bounds_cross (Mc * 2 ^ 53) (Mt * 2 ^ n)); try lia.
    + apply RNE_cross; try lia.
  - f_equal. lia.
Qed.


Lemma Prim2SF_hundred :
  Prim2SF (of_uint63 (of_Z 100)) = S754_finite false (Z.to_pos (100 * 2 ^ 46)) (-46).
Proof. by rewrite Prim2SF_count by lia. Qed.

(** The product of a rounded quotient and 100. *)
Lemma mul_hundred x M s :
  Prim2SF x = normal M (- s) → 2 ^ 52 ≤ M ≤ 2 ^ 53 → 52 ≤ s ≤ 106 →
  ∃ M2 s2, rounded (100 * M) (2 ^ s) M2 s2 ∧ 44 ≤ s2 ≤ 106 ∧
    Prim2SF (PrimFloat.mul x (of_uint63 (of_Z 100))) = normal M2 (- s2).
Proof.
  intros Hx HM Hs.
  rewrite FloatAxioms.mul_spec, Hx, Prim2SF_hundred.
  destruct (normal_finite M (- s) HM) as (m & j & Hj & Hm & -> & ->).
  unfold SF64mul, SFmul. cbn [xorb].
  rewrite Pos2Z.inj_mul, !Z2Pos.id by lia.
  set (N := m * (100 * 2 ^ 46)).
  assert (HN : 2 ^ 104 ≤ N < 2 ^ 106) by (unfold N; lia).
  pose proof (Zdigits2_bounds N ltac:(lia)) as Hd.
  assert (Hd1 : 105 ≤ Zdigits2 N).
  { destruct (Z_lt_le_dec (Zdigits2 N) 105) as [Hlt|]; [|done].
    assert (2 ^ Zdigits2 N ≤ 2 ^ 104) by (apply Z.pow_le_mono_r; lia).
    lia. }
  assert (Hd2 : Zdigits2 N ≤ 106).
  { destruct (Z_le_gt_dec (Zdigits2 N) 106) as [|Hgt]; [done|].
    assert (2 ^ 106 ≤ 2 ^ (Zdigits2 N - 1)) by (apply Z.pow_le_mono_r; lia).
    lia. }
  rewrite binary_round_aux_int by lia.
  set (n := Zdigits2 N - 53) in *.
  assert (Hn : 0 < 2 ^ n) by (apply Z.pow_pos_nonneg; lia).
  assert (Hb : 2 ^ 52 * 2 ^ n ≤ N < 2 ^ 53 * 2 ^ n).
  { replace (2 ^ 52 * 2 ^ n) with (2 ^ (Zdigits2 N - 1)).
    2:{ rewrite <- Z.pow_add_r by lia. f_equal. lia. }
    replace (2 ^ 53 * 2 ^ n) with (2 ^ Zdigits2 N); [done|].
    rewrite <- Z.pow_add_r by lia. f_equal. lia. }
  set (s2 := s - j + 46 - n).
  assert (0 < 2 ^ s) by (apply Z.pow_pos_nonneg; lia).
  assert (0 < 2 ^ s2) by (apply Z.pow_pos_nonneg; lia).
  assert (0 < 2 ^ j) by (apply Z.pow_pos_nonneg; lia).
  assert (E : 2 ^ 46 * 2 ^ s = 2 ^ j * 2 ^ s2 * 2 ^ n).
  { rewrite <- !Z.pow_add_r by lia. f_equal. lia. }
  assert (X : N * 2 ^ s = 100 * (m * 2 ^ j) * 2 ^ s2 * 2 ^ n).
  { unfold N.
    replace (m * (100 * 2 ^ 46) * 2 ^ s) with (100 * m * (2 ^ 46 * 2 ^ s)) by ring.
    rewrite E. ring. }
  exists (RNE N (2 ^ n)), s2. split; [|split; [lia|]].
  - split; [lia|]. split.
    + apply (bounds_cross N (2 ^ n)); try lia.
    + apply RNE_cross; lia.
  - f_equal. lia.
Qed.

(** [Math.round] of a positive number below 2^51. *)
Lemma Math_round_normal x M s :
  Prim2SF x = normal M (- s) → 2 ^ 52 ≤ M ≤ 2 ^ 53 → 2 ≤ s →
  Score.Math_round x = (2 * M + 2 ^ s) / 2 ^ (s + 1).
Proof.
  intros Hx HM Hs. unfold Score.Math_round. rewrite Hx.
  destruct (normal_finite M (- s) HM) as (m & j & Hj & Hm & -> & ->).
  rewrite Z2Pos.id by lia.
  destruct (Z.leb_spec 0 (- s + j)) as [|_]; [lia|].
  destruct Hj as [-> | ->].
  - change (2 ^ 0) with 1. rewrite Z.mul_1_r.
    replace (- (- s + 0)) with s by lia.
    by replace (1 - (- s + 0)) with (s + 1) by lia.
  - change (2 ^ 1) with 2.
    replace (- (- s + 1)) with (s - 1) by lia.
    replace (1 - (- s + 1)) with s by lia.
    assert (E : 2 ^ s = 2 * 2 ^ (s - 1)).
    { change 2 with (2 ^ 1) at 2. rewrite <- Z.pow_add_r by lia. f_equal. lia. }
    assert (0 < 2 ^ s) by (apply Z.pow_pos_nonneg; lia).
    replace (2 * (m * 2) + 2 ^ s) with (2 * (2 * m + 2 ^ (s - 1))) by lia.
    rewrite Z.pow_add_r by lia. change (2 ^ 1) with 2.
    rewrite (Z.mul_comm (2 ^ s) 2).
    by rewrite Z.div_mul_cancel_l by lia.
Qed.

(** The percentage, as two roundings and [Math.round]. *)
Lemma percent_of_rounded c t :
  0 < c → c ≤ t → t < 2 ^ 53 →
  ∃ M1 s1 M2 s2,
    rounded c t M1 s1 ∧ rounded (100 * M1) (2 ^ s1) M2 s2 ∧ 0 ≤ s1 ∧
    percent_of c t = (2 * M2 + 2 ^ s2) / 2 ^ (s2 + 1).
Proof.
  intros Hc Hct Ht.
  destruct (div_counts c t Hc Hct Ht) as (M1 & s1 & R1 & Hs1 & E1).
  pose proof (rounded_range c t M1 s1 ltac:(lia) ltac:(lia) R1) as HM1.
  destruct (mul_hundred _ M1 s1 E1 HM1 Hs1) as (M2 & s2 & R2 & Hs2 & E2).
  assert (0 < 2 ^ s1) by (apply Z.pow_pos_nonneg; lia).
  pose proof (rounded_range (100 * M1) (2 ^ s1) M2 s2 ltac:(lia) ltac:(lia) R2)
    as HM2.
  exists M1, s1, M2, s2.
  split; [done|]. split; [done|]. split; [lia|].
  unfold percent_of. apply (Math_round_normal _ M2 s2); [done|lia|lia].
Qed.

(** A larger quotient has the larger mantissa or the larger exponent. *)
Lemma rounded_mono a b M s a' b' M' s' :
  0 < a → 0 < b → 0 < a' → 0 < b' →
  rounded a b M s → rounded a' b' M' s' →
  a * b' ≤ a' * b → M * 2 ^ s' ≤ M' * 2 ^ s.
Proof.
  intros Ha Hb Ha' Hb' R R' Hle.
  pose proof (rounded_range a b M s ltac:(lia) Hb R) as HM.
  pose proof (rounded_range a' b' M' s' ltac:(lia) Hb' R') as HM'.
  destruct R as (Hs & [Hlo Hhi] & ->). destruct R' as (Hs' & [Hlo' Hhi'] & ->).
  assert (P : 0 < 2 ^ s) by (apply Z.pow_pos_nonneg; lia).
  assert (P' : 0 < 2 ^ s') by (apply Z.pow_pos_nonneg; lia).
  destruct (Z.lt_trichotomy s s') as [Hlt | [-> | Hgt]].
  - (* the smaller quotient cannot have the larger exponent *)
    exfalso.
    assert (E : 2 ^ s' = 2 ^ (s' - s - 1) * (2 * 2 ^ s)).
    { change 2 with (2 ^ 1) at 3. rewrite <- !Z.pow_add_r by lia. f_equal. lia. }
    assert (0 < 2 ^ (s' - s - 1)) by (apply Z.pow_pos_nonneg; lia).
    assert (H1 : a' * (2 * 2 ^ s) < 2 ^ 53 * b') by nia.
    assert (H2 : a' * (2 * 2 ^ s) * b < 2 ^ 53 * b' * b).
    { by apply Z.mul_lt_mono_pos_r. }
    assert (H3 : 2 ^ 52 * b * b' ≤ a * 2 ^ s * b').
    { apply Z.mul_le_mono_nonneg_r; lia. }
    assert (H4 : a * b' * (2 * 2 ^ s) ≤ a' * b * (2 * 2 ^ s)).
    { apply Z.mul_le_mono_nonneg_r; lia. }
    lia.
  - apply Z.mul_le_mono_nonneg_r; [lia|].
    apply RNE_mono; [nia|lia|nia|lia|].
    replace (a * 2 ^ s' * b') with (a * b' * 2 ^ s') by ring.
    replace (a' * 2 ^ s' * b) with (a' * b * 2 ^ s') by ring.
    apply Z.mul_le_mono_nonneg_r; lia.
  - assert (E : 2 ^ s = 2 ^ (s - s' - 1) * (2 * 2 ^ s')).
    { change 2 with (2 ^ 1) at 3. rewrite <- !Z.pow_add_r by lia. f_equal. lia. }
    assert (0 < 2 ^ (s - s' - 1)) by (apply Z.pow_pos_nonneg; lia).
    set (A := RNE (a * 2 ^ s) b) in *. set (A' := RNE (a' * 2 ^ s') b') in *.
    assert (H1 : A * 2 ^ s' ≤ 2 ^ 53 * 2 ^ s').
    { apply Z.mul_le_mono_nonneg_r; lia. }
    assert (H2 : 2 ^ 52 * (2 * 2 ^ s') ≤ A' * (2 * 2 ^ s')).
    { apply Z.mul_le_mono_nonneg_r; lia. }
    assert (H3 : A' * (2 * 2 ^ s') ≤ A' * 2 ^ s).
    { rewrite E. nia. }
    lia.
Qed.

Lemma div_cross_mono N D N' D' :
  0 < D → 0 < D' → N * D' ≤ N' * D → N / D ≤ N' / D'.
Proof.
  intros HD HD' Hle.
  apply Z.div_le_lower_bound; [done|].
  apply (Z.mul_le_mono_pos_r _ _ D); [done|].
  pose proof (Z.mul_div_le N D HD).
  transitivity (N * D'); [|done].
  replace (D' * (N / D) * D) with (D * (N / D) * D') by ring.
  apply Z.mul_le_mono_nonneg_r; lia.
Qed.

(** The percentage grows with the quotient correct / answered. *)
Lemma percent_of_mono c t c' t' :
  0 < c → c ≤ t → t < 2 ^ 53 → 0 < c' → c' ≤ t' → t' < 2 ^ 53 →
  c * t' ≤ c' * t → percent_of c t ≤ percent_of c' t'.
Proof.
  intros Hc Hct Ht Hc' Hct' Ht' Hle.
  destruct (percent_of_rounded c t Hc Hct Ht)
    as (M1 & s1 & M2 & s2 & R1 & R2 & Hs1 & ->).
  destruct (percent_of_rounded c' t' Hc' Hct' Ht')
    as (M1' & s1' & M2' & s2' & R1' & R2' & Hs1' & ->).
  pose proof (rounded_range c t M1 s1 ltac:(lia) ltac:(lia) R1) as HM1.
  pose proof (rounded_range c' t' M1' s1' ltac:(lia) ltac:(lia) R1') as HM1'.
  assert (P1 : 0 < 2 ^ s1) by (apply Z.pow_pos_nonneg; lia).
  assert (P1' : 0 < 2 ^ s1') by (apply Z.pow_pos_nonneg; lia).
  pose proof (rounded_mono c t M1 s1 c' t' M1' s1' Hc ltac:(lia) Hc' ltac:(lia)
                R1 R1' Hle) as H1.
  assert (H2 : M2 * 2 ^ s2' ≤ M2' * 2 ^ s2).
  { apply (rounded_mono (100 * M1) (2 ^ s1) _ _ (100 * M1') (2 ^ s1'));
      try done; lia. }
  destruct R2 as (Hs2 & _). destruct R2' as (Hs2' & _).
  assert (P2 : 0 < 2 ^ s2) by (apply Z.pow_pos_nonneg; lia).
  assert (P2' : 0 < 2 ^ s2') by (apply Z.pow_pos_nonneg; lia).
  apply div_cross_mono; try (apply Z.pow_pos_nonneg; lia).
  rewrite !Z.pow_add_r by lia. change (2 ^ 1) with 2. nia.
Qed.

Lemma percent_of_cross c t c' t' :
  0 < c → c ≤ t → t < 2 ^ 53 → 0 < c' → c' ≤ t' → t' < 2 ^ 53 →
  c * t' = c' * t → percent_of c t = percent_of c' t'.
Proof.
  intros. apply Z.le_antisymm; apply percent_of_mono; lia.
Qed.

Lemma percent_of_nonneg c t :
  0 < c → c ≤ t → t < 2 ^ 53 → 0 ≤ percent_of c t.
Proof.
  intros Hc Hct Ht.
  destruct (percent_of_rounded c t Hc Hct Ht)
    as (M1 & s1 & M2 & s2 & R1 & R2 & Hs1 & ->).
  assert (P1 : 0 < 2 ^ s1) by (apply Z.pow_pos_nonneg; lia).
  pose proof (rounded_range c t M1 s1 ltac:(lia) ltac:(lia) R1) as HM1.
  pose proof (rounded_range (100 * M1) (2 ^ s1) M2 s2 ltac:(lia) ltac:(lia) R2)
    as HM2.
  destruct R2 as (Hs2 & _).
  assert (0 < 2 ^ s2) by (apply Z.pow_pos_nonneg; lia).
  apply Z.div_pos; [lia|]. apply Z.pow_pos_nonneg; lia.
Qed.


Lemma hundred_in k : 0 ≤ k < 100 → In k hundred.
Proof.
  intros Hk. unfold hundred. apply in_map_iff.
  exists (Z.to_nat k). split; [lia|]. apply in_seq. lia.
Qed.

(** The two tables, by evaluation. *)
Lemma margins_hold : margins_checked = true.
Proof. by vm_compute. Qed.

Lemma ties_hold : ties_checked = true.
Proof. by vm_compute. Qed.

Lemma margin_above k : 0 ≤ k < 100 → percent_of (above k) base = k + 1.
Proof.
  intros Hk. pose proof margins_hold as H. unfold margins_checked in H.
  rewrite forallb_forall in H. specialize (H k (hundred_in k Hk)).
  apply andb_prop in H as [H _]. by apply Z.eqb_eq.
Qed.

Lemma margin_below k : 0 ≤ k < 100 → percent_of (below k) base = k.
Proof.
  intros Hk. pose proof margins_hold as H. unfold margins_checked in H.
  rewrite forallb_forall in H. specialize (H k (hundred_in k Hk)).
  apply andb_prop in H as [_ H]. by apply Z.eqb_eq.
Qed.

Lemma tie_table k : 0 ≤ k < 100 → percent_of (2 * k + 1) 200 = tie_shown k.
Proof.
  intros Hk. pose proof ties_hold as H. unfold ties_checked in H.
  rewrite forallb_forall in H. specialize (H k (hundred_in k Hk)).
  by apply Z.eqb_eq.
Qed.

(** Above the halfway point k + 1/2 the scoreboard shows at least
    k + 1, below it at most k. *)
Lemma percent_of_above c t k :
  0 < c → c ≤ t → t ≤ 2 ^ 45 → 0 ≤ k < 100 →
  (2 * k + 1) * t < 200 * c → k + 1 ≤ percent_of c t.
Proof.
  intros Hc Hct Ht Hk Hlt.
  rewrite <- (margin_above k Hk).
  apply percent_of_mono; unfold above, base; try lia.
Qed.

Lemma percent_of_below c t k :
  0 < c → c ≤ t → t ≤ 2 ^ 45 → 0 ≤ k < 100 →
  200 * c < (2 * k + 1) * t → percent_of c t ≤ k.
Proof.
  intros Hc Hct Ht Hk Hlt.
  rewrite <- (margin_below k Hk).
  apply percent_of_mono; unfold below, base; try lia.
Qed.

Lemma percent_of_full : percent_of 1 1 = 100.
Proof. by vm_compute. Qed.

Lemma percent_of_le_100 c t :
  0 < c → c ≤ t → t < 2 ^ 53 → percent_of c t ≤ 100.
Proof.
  intros. rewrite <- percent_of_full. apply percent_of_mono; lia.
Qed.

Lemma percent_of_zero t : 0 < t < 2 ^ 53 → percent_of 0 t = 0.
Proof.
  intros Ht. unfold percent_of, Score.Math_round.
  rewrite FloatAxioms.mul_spec, FloatAxioms.div_spec, Prim2SF_hundred, (Prim2SF_count t) by lia.
  replace (Prim2SF (of_uint63 (of_Z 0))) with (S754_zero false); [done|].
  by vm_compute.
Qed.

(** The exact quotient around its nearest integer. *)
Lemma exact_cases c t :
  0 ≤ c → 0 < t →
  let e := (200 * c + t) / (2 * t) in
  ((200 * c) mod (2 * t) = t ∧ 200 * c = (2 * (e - 1) + 1) * t) ∨
  ((200 * c) mod (2 * t) ≠ t ∧ (2 * e - 1) * t < 200 * c < (2 * e + 1) * t).
Proof.
  intros Hc Ht e.
  pose proof (Z.div_mod (200 * c + t) (2 * t) ltac:(lia)) as Hdm.
  pose proof (Z.mod_pos_bound (200 * c + t) (2 * t) ltac:(lia)) as Hb.
  fold e in Hdm.
  destruct (Z.eq_dec ((200 * c + t) mod (2 * t)) 0) as [E|E].
  - left. rewrite E in Hdm. split; [|lia].
    symmetry. apply (Z.mod_unique _ _ (e - 1)); lia.
  - right. split; [|lia].
    intros E'. apply E.
    pose proof (Z.div_mod (200 * c) (2 * t) ltac:(lia)) as Hdm'.
    rewrite E' in Hdm'.
    symmetry. apply (Z.mod_unique _ _ (200 * c / (2 * t) + 1)); lia.
Qed.

(** The scoreboard's percentage against the exact quotient, below 2^45
    answered questions. *)
Lemma percent_of_exact c t :
  0 ≤ c → c ≤ t → 0 < t → t ≤ 2 ^ 45 →
  let e := (200 * c + t) / (2 * t) in
  ((200 * c) mod (2 * t) ≠ t → percent_of c t = e) ∧
  ((200 * c) mod (2 * t) = t → percent_of c t = tie_shown (e - 1)).
Proof.
  intros Hc Hct Ht Hb e.
  assert (He : 0 ≤ e ≤ 100).
  { unfold e. split.
    - apply Z.div_pos; lia.
    - assert ((200 * c + t) / (2 * t) < 101); [|lia].
      apply Z.div_lt_upper_bound; lia. }
  pose proof (exact_cases c t Hc Ht) as Hx. cbv zeta in Hx. fold e in Hx.
  destruct Hx as [[Hm Heq] | [Hm [Hlo Hhi]]].
  - split; [done|]. intros _.
    assert (0 < c).
    { destruct (Z.eq_dec c 0) as [->|]; [|lia].
      symmetry in Heq. apply Z.mul_eq_0 in Heq. lia. }
    assert (1 ≤ e).
    { destruct (Z_le_gt_dec 1 e) as [|Hgt]; [done|].
      assert (e = 0) as E0 by lia. rewrite E0 in Heq. lia. }
    rewrite <- (tie_table (e - 1)) by lia.
    apply percent_of_cross; lia.
  - split; [|done]. intros _.
    destruct (Z.eq_dec c 0) as [->|Hc0].
    { rewrite percent_of_zero by lia. nia. }
    apply Z.le_antisymm.
    + destruct (Z.eq_dec e 100) as [->|].
      * apply percent_of_le_100; lia.
      * apply percent_of_below; lia.
    + destruct (Z.eq_dec e 0) as [->|].
      * apply percent_of_nonneg; lia.
      * replace e with (e - 1 + 1) at 1 by lia.
        apply percent_of_above; lia.
Qed.

End Percent.

(** C10, as stated, fails: read over the rationals, round (23 / 40 * 100)
    is round (57.5) = 58, but the script divides first and multiplies
    afterwards in binary64, where 23 / 40 * 100 comes out just below 57.5,
    and shows 57. *)
Lemma percent_exact_rounding_fails :
  ¬ (∀ c i : nat, 0 < c + i → Score.percent c i = Score.percent_exact c i).
Proof.
  intros H. specialize (H 23 17 ltac:(lia)).
  vm_compute in H. discriminate H.
Qed.

(** C10, amended: the percentage is 0 when nothing has been answered.
    Otherwise, for up to 2^45 answered questions (a JavaScript array, and
    so a quiz, holds fewer than 2^32), it is the integer nearest to
    100 * correct / answered whenever that quotient is not halfway between
    two integers; when the quotient is exactly k + 1/2 it is k + 1, except
    for 14.5, 28.5, 56.5 and 57.5, which show 14, 28, 56 and 57.  So 3
    correct and 1 incorrect show 75, 23 correct and 17 incorrect (57.5)
    show 57, and 1 correct and 7 incorrect (12.5) show 13. *)
Theorem percent_rounding (c i : nat) :
  (Z.of_nat (c + i) ≤ 2 ^ 45)%Z →
  (c + i = 0 → Score.percent c i = 0%Z) ∧
  (0 < c + i → Score.is_tie c i = false →
     Score.percent c i = Score.percent_exact c i) ∧
  (0 < c + i → Score.is_tie c i = true →
     Score.percent c i = Rounding.tie_shown (Score.percent_exact c i - 1)) ∧
  Score.percent 3 1 = 75%Z ∧
  Score.percent 23 17 = 57%Z ∧
  Score.percent 1 7 = 13%Z.
Proof.
  intros Hb.
  split; [|split; [|split; [|by vm_compute]]].
  - intros E. unfold Score.percent. by rewrite E.
  - intros Hpos Htie.
    assert (E : Score.percent c i
                = Rounding.percent_of (Z.of_nat c) (Z.of_nat (c + i))).
    { unfold Score.percent. by destruct (Nat.ltb_spec 0 (c + i)); [|lia]. }
    rewrite E. unfold Score.percent_exact, Score.is_tie in *.
    apply percent_of_exact; try lia.
    by apply Z.eqb_neq.
  - intros Hpos Htie.
    assert (E : Score.percent c i
                = Rounding.percent_of (Z.of_nat c) (Z.of_nat (c + i))).
    { unfold Score.percent. by destruct (Nat.ltb_spec 0 (c + i)); [|lia]. }
    rewrite E. unfold Score.percent_exact, Score.is_tie in *.
    apply percent_of_exact; try lia.
    by apply Z.eqb_eq.
Qed.

Lemma percent_rounding_witness :
  (Z.of_nat (23 + 17) ≤ 2 ^ 45)%Z ∧ Score.percent 23 17 = 57%Z.
Proof.
  assert (H : (Z.of_nat (23 + 17) ≤ 2 ^ 45)%Z) by (cbn; lia).
  split; [exact H|].
  destruct (percent_rounding 23 17 H) as (_ & _ & H3 & _).
  rewrite H3; [reflexivity|lia|reflexivity].
Defined.

(** ** Matching *)

Lemma matchQuestion_absent answersMap p :
  answersMap !! p_id p = None →
  status (matchQuestion answersMap p) = ungraded ∧
  correctKeys (matchQuestion answersMap p) = [] ∧
  explanation (matchQuestion answersMap p) = "No answer key found.".
Proof. intros H. unfold matchQuestion. by rewrite H. Qed.

Lemma matchQuestion_present answersMap p a :
  answersMap !! p_id p = Some a →
  correctKeys (matchQuestion answersMap p) = a_correctKeys a ∧
  explanation (matchQuestion answersMap p) = a_explanation a ∧
  status (matchQuestion answersMap p) = unanswered.
Proof. intros H. unfold matchQuestion. by rewrite H. Qed.

Lemma matchQuestion_type answersMap p :
  type (matchQuestion answersMap p) =
  match p_explicitType p with
  | Some t => t
  | None =>
      if (1 <? length (correctKeys (matchQuestion answersMap p)))%nat
      then MULTIPLE else SINGLE
  end.
Proof. unfold matchQuestion. by destruct (answersMap !! p_id p). Qed.

(** C4: a question is matched by the exact string of its id.  When no
    entry of the answer map has a key equal to the id, the question becomes
    ungraded with no correct keys and the placeholder explanation; when
    there is one, the question takes its correct keys and explanation and
    becomes unanswered.  A map holding only the key 07 leaves the question
    with id 7 ungraded. *)
Theorem match_by_exact_id (answersMap : gmap string Answer) (p : ParsedQuestion) :
  ((∀ k a, answersMap !! k = Some a → k ≠ p_id p) →
     status (matchQuestion answersMap p) = ungraded ∧
     correctKeys (matchQuestion answersMap p) = [] ∧
     explanation (matchQuestion answersMap p) = "No answer key found.") ∧
  (∀ a, answersMap !! p_id p = Some a →
     correctKeys (matchQuestion answersMap p) = a_correctKeys a ∧
     explanation (matchQuestion answersMap p) = a_explanation a ∧
     status (matchQuestion answersMap p) = unanswered) ∧
  (∀ a, p_id p = "7" →
     status (matchQuestion {["07" := a]} p) = ungraded ∧
     correctKeys (matchQuestion {["07" := a]} p) = []).
Proof.
  split; [|split].
  - intros Hno. apply matchQuestion_absent.
    destruct (answersMap !! p_id p) as [a|] eqn:E; [|done].
    by destruct (Hno _ _ E).
  - apply matchQuestion_present.
  - intros a Hid.
    assert (H : ({["07" := a]} : gmap string Answer) !! p_id p = None).
    { rewrite Hid. by apply lookup_singleton_ne. }
    by destruct (matchQuestion_absent _ _ H) as (? & ? & _).
Qed.

Lemma match_by_exact_id_witness :
  status (matchQuestion {["07" := mkAnswer "07" ["A"] "because"]}
            (mkParsed "7" "Pick one" None [mkChoice "A" "x"; mkChoice "B" "y"] 1))
    = ungraded ∧
  correctKeys (matchQuestion {["7" := mkAnswer "7" ["A"] "because"]}
                 (mkParsed "7" "Pick one" None [mkChoice "A" "x"; mkChoice "B" "y"] 1))
    = ["A"].
Proof.
  split.
  - destruct (match_by_exact_id {["07" := mkAnswer "07" ["A"] "because"]}
               (mkParsed "7" "Pick one" None [mkChoice "A" "x"; mkChoice "B" "y"] 1))
      as (Habsent & _ & _).
    apply Habsent. intros k a Hk ->.
    by rewrite lookup_singleton_ne in Hk.
  - destruct (match_by_exact_id {["7" := mkAnswer "7" ["A"] "because"]}
               (mkParsed "7" "Pick one" None [mkChoice "A" "x"; mkChoice "B" "y"] 1))
      as (_ & Hpresent & _).
    apply (Hpresent (mkAnswer "7" ["A"] "because")).
    reflexivity.
Defined.

(** C5: after matching, the type is the explicit type when there is one;
    without one it is MULTIPLE exactly when there is more than one correct
    key, and SINGLE otherwise.  So an explicit SINGLE stays SINGLE whatever
    the number of correct keys, and an untagged question without an answer
    is SINGLE. *)
Theorem type_resolution (answersMap : gmap string Answer) (p : ParsedQuestion) :
  (∀ t, p_explicitType p = Some t → type (matchQuestion answersMap p) = t) ∧
  (p_explicitType p = None →
     (type (matchQuestion answersMap p) = MULTIPLE ↔
        (1 < length (correctKeys (matchQuestion answersMap p)))%nat) ∧
     (type (matchQuestion answersMap p) = SINGLE ↔
        (length (correctKeys (matchQuestion answersMap p)) ≤ 1)%nat)) ∧
  (p_explicitType p = Some SINGLE → type (matchQuestion answersMap p) = SINGLE) ∧
  (p_explicitType p = None → answersMap !! p_id p = None →
     correctKeys (matchQuestion answersMap p) = [] ∧
     type (matchQuestion answersMap p) = SINGLE).
Proof.
  pose proof (matchQuestion_type answersMap p) as Ht.
  split; [|split; [|split]].
  - intros t E. by rewrite Ht, E.
  - intros E. rewrite Ht, E.
    destruct (Nat.ltb_spec 1 (length (correctKeys (matchQuestion answersMap p))));
      split; split; intros; (done || lia).
  - intros E. by rewrite Ht, E.
  - intros E Hno.
    destruct (matchQuestion_absent _ _ Hno) as (_ & Hk & _).
    split; [done|]. by rewrite Ht, E, Hk.
Qed.

Lemma type_resolution_witness :
  type (matchQuestion {["1" := mkAnswer "1" ["A"; "C"] "two of them"]}
          (mkParsed "1" "Pick" (Some SINGLE) [mkChoice "A" "x"; mkChoice "C" "y"] 1))
    = SINGLE ∧
  type (matchQuestion {["1" := mkAnswer "1" ["A"; "C"] "two of them"]}
          (mkParsed "1" "Pick" None [mkChoice "A" "x"; mkChoice "C" "y"] 1))
    = MULTIPLE ∧
  type (matchQuestion {["1" := mkAnswer "1" ["A"; "C"] "two of them"]}
          (mkParsed "2" "Pick" None [mkChoice "A" "x"; mkChoice "C" "y"] 4))
    = SINGLE.
Proof.
  split; [|split].
  - destruct (type_resolution {["1" := mkAnswer "1" ["A"; "C"] "two of them"]}
               (mkParsed "1" "Pick" (Some SINGLE) [mkChoice "A" "x"; mkChoice "C" "y"] 1))
      as (_ & _ & Hsingle & _).
    apply Hsingle. reflexivity.
  - destruct (type_resolution {["1" := mkAnswer "1" ["A"; "C"] "two of them"]}
               (mkParsed "1" "Pick" None [mkChoice "A" "x"; mkChoice "C" "y"] 1))
      as (_ & Hinfer & _ & _).
    apply Hinfer; [reflexivity | vm_compute; lia].
  - destruct (type_resolution {["1" := mkAnswer "1" ["A"; "C"] "two of them"]}
               (mkParsed "2" "Pick" None [mkChoice "A" "x"; mkChoice "C" "y"] 4))
      as (_ & _ & _ & Hnone).
    apply Hnone; reflexivity.
Defined.

(** ** Interaction *)

Lemma includes_true arr k : includes arr k = true ↔ k ∈ arr.
Proof. unfold includes. apply bool_decide_eq_true. Qed.

Lemma includes_false arr k : includes arr k = false ↔ k ∉ arr.
Proof. unfold includes. apply bool_decide_eq_false. Qed.

Lemma every_includes (arr ks : list string) :
  forallb (includes arr) ks = true ↔ ∀ x, x ∈ ks → x ∈ arr.
Proof.
  rewrite forallb_forall. split; intros H x Hx.
  - apply includes_true, H. by apply list_elem_of_In.
  - apply includes_true, H. by apply list_elem_of_In.
Qed.

(** Stepping past the guard of the handler for a question that is neither
    correct nor incorrect. *)
Ltac pass_guard :=
  unfold handleInteraction;
  rewrite decide_False by (intros [?|?]; congruence).

(** The guard at the top of the handler. *)
Lemma handleInteraction_locked q k card g :
  status q = correct ∨ status q = incorrect →
  handleInteraction q k card g = (q, card, g).
Proof. intros H. unfold handleInteraction. by rewrite decide_True. Qed.

Lemma multiple_wrong_key q k card g :
  type q = MULTIPLE → status q ≠ correct → status q ≠ incorrect →
  k ∉ correctKeys q →
  res_q (handleInteraction q k card g) =
    set_userSelectedKeys (set_status q incorrect) (checkedKeys card) ∧
  stats (res_page (handleInteraction q k card g)) = incr_incorrect (stats g).
Proof.
  intros Ht Hc Hi Hk. pass_guard.
  rewrite decide_False by congruence.
  apply includes_false in Hk. rewrite Hk. done.
Qed.

Lemma multiple_right_key q k card g :
  type q = MULTIPLE → status q ≠ correct → status q ≠ incorrect →
  k ∈ correctKeys q →
  handleInteraction q k card g =
    if forallb (includes (checkedKeys card)) (correctKeys q) &&
       forallb (includes (correctKeys q)) (checkedKeys card)
    then (set_userSelectedKeys (set_status q correct) (checkedKeys card),
          revealExplanation
            (showStatusIcon
               (markAll mark_correct (checkedKeys card) (lockInputs card))
               correct),
          mkPage (incr_correct (stats g)) (updateScoreboard (incr_correct (stats g))))
    else (q, card, g).
Proof.
  intros Ht Hc Hi Hk. pass_guard.
  rewrite decide_False by congruence.
  apply includes_true in Hk. rewrite Hk. done.
Qed.

(** C1: on an unanswered MULTIPLE question, with S the checked keys of the
    card when the listener runs for key k: a key outside the correct keys
    makes the question incorrect and records S; a correct key with S equal
    to the correct keys as a set makes it correct and records S; a correct
    key with S a strict subset of the correct keys changes nothing.  The
    two transitions are terminal: every later call leaves the question as
    it is. *)
Theorem multiple_choice_transitions (q : Question) (k : string) (card : Card)
    (g : Page) :
  type q = MULTIPLE → status q = unanswered →
  (k ∉ correctKeys q →
     status (res_q (handleInteraction q k card g)) = incorrect ∧
     userSelectedKeys (res_q (handleInteraction q k card g))
       = Some (checkedKeys card) ∧
     ∀ k' card' g',
       handleInteraction (res_q (handleInteraction q k card g)) k' card' g'
       = (res_q (handleInteraction q k card g), card', g')) ∧
  (k ∈ correctKeys q →
   (∀ x, x ∈ checkedKeys card ↔ x ∈ correctKeys q) →
     status (res_q (handleInteraction q k card g)) = correct ∧
     userSelectedKeys (res_q (handleInteraction q k card g))
       = Some (checkedKeys card) ∧
     ∀ k' card' g',
       handleInteraction (res_q (handleInteraction q k card g)) k' card' g'
       = (res_q (handleInteraction q k card g), card', g')) ∧
  (k ∈ correctKeys q →
   (∀ x, x ∈ checkedKeys card → x ∈ correctKeys q) →
   (∃ y, y ∈ correctKeys q ∧ y ∉ checkedKeys card) →
     handleInteraction q k card g = (q, card, g) ∧
     status (res_q (handleInteraction q k card g)) = unanswered).
Proof.
  intros Ht Hs.
  assert (Hc : status q ≠ correct) by congruence.
  assert (Hi : status q ≠ incorrect) by congruence.
  split; [|split].
  - intros Hk.
    destruct (multiple_wrong_key q k card g Ht Hc Hi Hk) as [-> _].
    split; [done | split; [done|]].
    intros. by apply handleInteraction_locked; right.
  - intros Hk Heq.
    rewrite (multiple_right_key q k card g Ht Hc Hi Hk).
    assert (H1 : forallb (includes (checkedKeys card)) (correctKeys q) = true)
      by (apply every_includes; intros; by apply Heq).
    assert (H2 : forallb (includes (correctKeys q)) (checkedKeys card) = true)
      by (apply every_includes; intros; by apply Heq).
    rewrite H1, H2. cbn [andb].
    split; [done | split; [done|]].
    intros. by apply handleInteraction_locked; left.
  - intros Hk Hsub (y & Hy & Hny).
    rewrite (multiple_right_key q k card g Ht Hc Hi Hk).
    assert (H1 : forallb (includes (checkedKeys card)) (correctKeys q) = false).
    { apply not_true_iff_false. rewrite every_includes. intros H.
      by apply Hny, H. }
    rewrite H1. cbn [andb]. done.
Qed.

Example sample_session_parsed :
  Sample.session =
    mkSession [Sample.q1; Sample.q2; Sample.q7]
              [renderQuestion Sample.q1; renderQuestion Sample.q2;
               renderQuestion Sample.q7]
              Sample.page0.
Proof. vm_compute. reflexivity. Qed.

Lemma multiple_choice_transitions_witness :
  status (res_q (handleInteraction Sample.q2 "A"
                   (Sample.activated [1; 0] (renderQuestion Sample.q2))
                   Sample.page0)) = incorrect ∧
  status (res_q (handleInteraction Sample.q2 "D"
                   (Sample.activated [3; 1; 2] (renderQuestion Sample.q2))
                   Sample.page0)) = correct ∧
  handleInteraction Sample.q2 "C"
    (Sample.activated [1; 2] (renderQuestion Sample.q2)) Sample.page0
  = (Sample.q2, Sample.activated [1; 2] (renderQuestion Sample.q2), Sample.page0).
Proof.
  split; [|split].
  - destruct (multiple_choice_transitions Sample.q2 "A"
                (Sample.activated [1; 0] (renderQuestion Sample.q2))
                Sample.page0 eq_refl eq_refl) as (Hwrong & _ & _).
    apply Hwrong. compute_done.
  - destruct (multiple_choice_transitions Sample.q2 "D"
                (Sample.activated [3; 1; 2] (renderQuestion Sample.q2))
                Sample.page0 eq_refl eq_refl) as (_ & Hall & _).
    apply Hall; [compute_done|].
    intros x. vm_compute checkedKeys. vm_compute correctKeys. tauto.
  - destruct (multiple_choice_transitions Sample.q2 "C"
                (Sample.activated [1; 2] (renderQuestion Sample.q2))
                Sample.page0 eq_refl eq_refl) as (_ & _ & Hpart).
    apply Hpart; [compute_done| |].
    + intros x. vm_compute checkedKeys. vm_compute correctKeys.
      rewrite !elem_of_cons. tauto.
    + exists "D". split; compute_done.
Defined.

(** Locking disables every input, and the marks put on afterwards keep
    them disabled. *)
Lemma mark_first_disabled k m ls :
  Forall (fun l => input_disabled l = true) ls →
  Forall (fun l => input_disabled l = true) (mark_first k m ls).
Proof.
  induction 1 as [|l ls Hl Hls IH]; cbn; [constructor|].
  case_decide; constructor; auto.
Qed.

Lemma markAll_disabled m ks card :
  Forall (fun l => input_disabled l = true) (labels card) →
  Forall (fun l => input_disabled l = true) (labels (markAll m ks card)).
Proof.
  unfold markAll. revert card.
  induction ks as [|k ks IH]; intros card H; cbn; [done|].
  apply IH. cbn. by apply mark_first_disabled.
Qed.

Lemma lockInputs_disabled card :
  Forall (fun l => input_disabled l = true) (labels (lockInputs card)).
Proof.
  unfold lockInputs. cbn. apply Forall_forall. intros l Hl.
  apply list_elem_of_fmap in Hl as (l0 & -> & _). done.
Qed.

Lemma activate_disabled j card :
  Forall (fun l => input_disabled l = true) (labels card) →
  activate j card = None.
Proof.
  intros H. unfold activate.
  destruct (labels card !! j) as [l|] eqn:E; [|done].
  rewrite Forall_forall in H.
  rewrite (H l) by (by eapply list_elem_of_lookup_2). done.
Qed.

Lemma single_choice q k card g :
  type q = SINGLE → status q ≠ correct → status q ≠ incorrect →
  handleInteraction q k card g =
    if includes (correctKeys q) k
    then (set_userSelectedKeys (set_status q correct) [k],
          revealExplanation
            (showStatusIcon (markChoice (lockInputs card) k mark_correct) correct),
          mkPage (incr_correct (stats g)) (updateScoreboard (incr_correct (stats g))))
    else (set_userSelectedKeys (set_status q incorrect) [k],
          revealExplanation
            (showStatusIcon
               (markAll mark_correct (correctKeys q)
                  (markChoice (lockInputs card) k mark_incorrect))
               incorrect),
          mkPage (incr_incorrect (stats g))
                 (updateScoreboard (incr_incorrect (stats g)))).
Proof.
  intros Ht Hc Hi. pass_guard.
  rewrite decide_True by done.
  by destruct (includes (correctKeys q) k).
Qed.

(** C2: on an unanswered SINGLE question the first selection is terminal.
    The status becomes correct when the key is among the correct keys and
    incorrect otherwise, the matching counter goes up by one, the selected
    keys are the one-element list of the key, every input of the card is
    disabled, and afterwards the listener and the user's clicks change
    nothing. *)
Theorem single_choice_terminal (q : Question) (k : string) (card : Card)
    (g : Page) :
  type q = SINGLE → status q = unanswered →
  let r := handleInteraction q k card g in
  (k ∈ correctKeys q →
     status (res_q r) = correct ∧
     stats (res_page r) = incr_correct (stats g)) ∧
  (k ∉ correctKeys q →
     status (res_q r) = incorrect ∧
     stats (res_page r) = incr_incorrect (stats g)) ∧
  userSelectedKeys (res_q r) = Some [k] ∧
  (∀ l, l ∈ labels (res_card r) → input_disabled l = true) ∧
  (∀ k' card' g', handleInteraction (res_q r) k' card' g' = (res_q r, card', g')) ∧
  (∀ j, select j r = r).
Proof.
  intros Ht Hs r.
  assert (Hr : r = handleInteraction q k card g) by done.
  rewrite single_choice in Hr by congruence.
  assert (Hdis : Forall (fun l => input_disabled l = true) (labels (res_card r))).
  { rewrite Hr. destruct (includes (correctKeys q) k); cbn.
    - apply mark_first_disabled, lockInputs_disabled.
    - apply (markAll_disabled mark_correct (correctKeys q)
               (markChoice (lockInputs card) k mark_incorrect)).
      cbn. apply mark_first_disabled, lockInputs_disabled. }
  assert (Hterm : status (res_q r) = correct ∨ status (res_q r) = incorrect).
  { rewrite Hr. destruct (includes (correctKeys q) k); cbn; auto. }
  split; [|split; [|split; [|split; [|split]]]].
  - intros Hk. apply includes_true in Hk. by rewrite Hr, Hk.
  - intros Hk. apply includes_false in Hk. by rewrite Hr, Hk.
  - rewrite Hr. by destruct (includes (correctKeys q) k).
  - by apply Forall_forall.
  - intros. by apply handleInteraction_locked.
  - intros j. destruct r as [[q' card'] g']. unfold select.
    cbn in Hdis. by rewrite (activate_disabled j card' Hdis).
Qed.

Lemma single_choice_terminal_witness :
  status (res_q (handleInteraction Sample.q1 "C"
                   (Sample.activated [2] (renderQuestion Sample.q1))
                   Sample.page0)) = incorrect ∧
  status (res_q (handleInteraction Sample.q1 "B"
                   (Sample.activated [1] (renderQuestion Sample.q1))
                   Sample.page0)) = correct.
Proof.
  split.
  - destruct (single_choice_terminal Sample.q1 "C"
                (Sample.activated [2] (renderQuestion Sample.q1))
                Sample.page0 eq_refl eq_refl) as (_ & Hwrong & _).
    apply Hwrong. compute_done.
  - destruct (single_choice_terminal Sample.q1 "B"
                (Sample.activated [1] (renderQuestion Sample.q1))
                Sample.page0 eq_refl eq_refl) as (Hright & _).
    apply Hright. compute_done.
Defined.

(** ** Sessions *)

(** What one call of the handler can do: nothing at all, or close an open
    question and add one to exactly one of the two counters. *)
Lemma handleInteraction_outcome q k card g :
  handleInteraction q k card g = (q, card, g) ∨
  (terminal q = false ∧
   correctKeys (res_q (handleInteraction q k card g)) = correctKeys q ∧
   type (res_q (handleInteraction q k card g)) = type q ∧
   ((status (res_q (handleInteraction q k card g)) = correct ∧
     k ∈ correctKeys q ∧
     stats (res_page (handleInteraction q k card g)) = incr_correct (stats g)) ∨
    (status (res_q (handleInteraction q k card g)) = incorrect ∧
     (k ∉ correctKeys q) ∧
     stats (res_page (handleInteraction q k card g)) = incr_incorrect (stats g)))).
Proof.
  unfold handleInteraction.
  destruct (decide (status q = correct ∨ status q = incorrect)) as [Hl|Hl]; [by left|].
  assert (Hopen : terminal q = false) by (by apply bool_decide_eq_false).
  destruct (includes (correctKeys q) k) eqn:Hk;
    [apply includes_true in Hk | apply includes_false in Hk].
  - destruct (decide (type q = SINGLE)); cbn.
    + right. split; [done|]. split; [done|]. split; [done|]. by left.
    + destruct (forallb (includes (checkedKeys card)) (correctKeys q) &&
                forallb (includes (correctKeys q)) (checkedKeys card)); cbn.
      * right. split; [done|]. split; [done|]. split; [done|]. by left.
      * by left.
  - destruct (decide (type q = SINGLE)); cbn.
    + right. split; [done|]. split; [done|]. split; [done|]. by right.
    + right. split; [done|]. split; [done|]. split; [done|]. by right.
Qed.

Lemma open_count_cons q qs :
  open_count (q :: qs) =
  if terminal q then open_count qs else S (open_count qs).
Proof.
  unfold open_count. destruct (terminal q) eqn:E.
  - by rewrite filter_cons_False by (rewrite E; discriminate).
  - by rewrite filter_cons_True by done.
Qed.

Lemma open_count_insert_same qs i q q' :
  qs !! i = Some q → terminal q' = terminal q →
  open_count (<[i := q']> qs) = open_count qs.
Proof.
  revert i. induction qs as [|q0 qs IH]; intros [|i] Hq Ht; try done.
  - injection Hq as ->.
    change (<[0 := q']> (q :: qs)) with (q' :: qs).
    by rewrite !open_count_cons, Ht.
  - change (<[S i := q']> (q0 :: qs)) with (q0 :: <[i := q']> qs).
    rewrite !open_count_cons. by rewrite (IH i Hq Ht).
Qed.

Lemma open_count_insert_close qs i q q' :
  qs !! i = Some q → terminal q = false → terminal q' = true →
  S (open_count (<[i := q']> qs)) = open_count qs.
Proof.
  revert i. induction qs as [|q0 qs IH]; intros [|i] Hq Ho Ht; try done.
  - injection Hq as ->.
    change (<[0 := q']> (q :: qs)) with (q' :: qs).
    by rewrite !open_count_cons, Ho, Ht.
  - change (<[S i := q']> (q0 :: qs)) with (q0 :: <[i := q']> qs).
    rewrite !open_count_cons. specialize (IH i Hq Ho Ht).
    destruct (terminal q0); lia.
Qed.

(** A change event either leaves the questions and the globals alone or
    replaces one question by the result of one call of the handler. *)
Lemma change_event_spec i j s :
  (questions (change_event i j s) = questions s ∧
   page (change_event i j s) = page s) ∨
  ∃ q k card,
    questions s !! i = Some q ∧
    questions (change_event i j s)
      = <[i := res_q (handleInteraction q k card (page s))]> (questions s) ∧
    page (change_event i j s) = res_page (handleInteraction q k card (page s)).
Proof.
  unfold change_event.
  destruct (questions s !! i) as [q|] eqn:Eq; [|by left].
  destruct (cards s !! i) as [card|]; [|by left].
  destruct (activate j card) as [card'|]; [|by left].
  destruct (choices q !! j) as [choice|]; [|by left].
  right. exists q, (c_key choice), card'. split; [done|].
  by destruct (handleInteraction q (c_key choice) card' (page s)) as [[q' c'] g'].
Qed.

Lemma change_event_counts i j s :
  stat_correct (stats (page s)) ≤ stat_correct (stats (page (change_event i j s))) ∧
  stat_incorrect (stats (page s)) ≤ stat_incorrect (stats (page (change_event i j s))) ∧
  answered_total (change_event i j s) + open_count (questions (change_event i j s))
    = answered_total s + open_count (questions s) ∧
  (∀ i' q, questions s !! i' = Some q → terminal q = true →
     questions (change_event i j s) !! i' = Some q).
Proof.
  unfold answered_total.
  destruct (change_event_spec i j s) as [[-> ->] | (q & k & card & Hq & -> & ->)];
    [by repeat split|].
  destruct (handleInteraction_outcome q k card (page s))
    as [-> | (Ho & _ & _ & Hcase)]; cbn.
  - rewrite list_insert_id by done. by repeat split.
  - assert (Hclosed :
        terminal (res_q (handleInteraction q k card (page s))) = true).
    { apply bool_decide_eq_true. destruct Hcase as [(? & _)|(? & _)]; auto. }
    pose proof (open_count_insert_close _ _ _ _ Hq Ho Hclosed) as Hcount.
    assert (Hkeep : ∀ i' q0, questions s !! i' = Some q0 → terminal q0 = true →
              <[i := res_q (handleInteraction q k card (page s))]> (questions s) !! i'
              = Some q0).
    { intros i' q0 Hq0 Ht. destruct (decide (i = i')) as [->|Hne].
      - congruence.
      - by rewrite list_lookup_insert_ne. }
    destruct Hcase as [(_ & _ & ->) | (_ & _ & ->)]; cbn.
    + split; [lia|]. split; [lia|]. split; [lia|]. exact Hkeep.
    + split; [lia|]. split; [lia|]. split; [lia|]. exact Hkeep.
Qed.

Lemma run_cons i j events s :
  run ((i, j) :: events) s = run events (change_event i j s).
Proof. reflexivity. Qed.

Lemma run_counts events s :
  stat_correct (stats (page s)) ≤ stat_correct (stats (page (run events s))) ∧
  stat_incorrect (stats (page s)) ≤ stat_incorrect (stats (page (run events s))) ∧
  answered_total (run events s) + open_count (questions (run events s))
    = answered_total s + open_count (questions s) ∧
  (∀ i q, questions s !! i = Some q → terminal q = true →
     questions (run events s) !! i = Some q).
Proof.
  revert s. induction events as [|[i j] events IH]; intros s.
  - by repeat split.
  - rewrite run_cons.
    destruct (change_event_counts i j s) as (H1 & H2 & H3 & H4).
    destruct (IH (change_event i j s)) as (I1 & I2 & I3 & I4).
    split; [lia|]. split; [lia|]. split; [lia|].
    intros i' q Hq Ht. apply I4; [|done]. by apply H4.
Qed.

(** C3: once a question is correct or incorrect, a call of the handler on
    it changes neither the question, nor its card, nor the counters, and a
    change event on it leaves the questions and the counters as they are.
    Over any sequence of events of a session the two counters never go
    down, every increment closes one open question (the counters and the
    number of open questions add up to a constant), and a closed question
    stays the same: each question is counted at most once. *)
Theorem terminal_questions_are_locked :
  (∀ q k card g, status q = correct ∨ status q = incorrect →
     handleInteraction q k card g = (q, card, g)) ∧
  (∀ s i j q, questions s !! i = Some q →
     status q = correct ∨ status q = incorrect →
     questions (change_event i j s) = questions s ∧
     page (change_event i j s) = page s) ∧
  (∀ events s,
     stat_correct (stats (page s)) ≤ stat_correct (stats (page (run events s))) ∧
     stat_incorrect (stats (page s)) ≤ stat_incorrect (stats (page (run events s))) ∧
     answered_total (run events s) + open_count (questions (run events s))
       = answered_total s + open_count (questions s) ∧
     answered_total (run events s) ≤ answered_total s + open_count (questions s) ∧
     (∀ i q, questions s !! i = Some q →
        status q = correct ∨ status q = incorrect →
        questions (run events s) !! i = Some q)).
Proof.
  split; [|split].
  - apply handleInteraction_locked.
  - intros s i j q Hq Ht.
    destruct (change_event_spec i j s) as [H | (q' & k & card & Hq' & -> & ->)];
      [done|].
    assert (q' = q) as -> by congruence.
    rewrite handleInteraction_locked by done. cbn.
    by rewrite list_insert_id.
  - intros events s.
    destruct (run_counts events s) as (H1 & H2 & H3 & H4).
    split; [done|]. split; [done|]. split; [done|]. split; [lia|].
    intros i q Hq Ht. apply H4; [done|]. by apply bool_decide_eq_true.
Qed.

Lemma terminal_questions_are_locked_witness :
  questions (change_event 0 2 (run [(0, 1)] Sample.session))
    = questions (run [(0, 1)] Sample.session) ∧
  answered_total (run [(0, 1); (0, 2); (2, 0); (2, 1)] Sample.session) ≤ 3.
Proof.
  destruct terminal_questions_are_locked as (_ & Hevent & Hrun).
  split.
  - apply (Hevent (run [(0, 1)] Sample.session) 0 2
                  (set_userSelectedKeys (set_status Sample.q1 correct) ["B"])).
    + vm_compute. reflexivity.
    + left. reflexivity.
  - destruct (Hrun [(0, 1); (0, 2); (2, 0); (2, 1)] Sample.session)
      as (_ & _ & _ & Hle & _).
    exact Hle.
Defined.

(** ** Ungraded questions *)

Lemma keyless_handleInteraction q k card g :
  keyless q → keyless (res_q (handleInteraction q k card g)).
Proof.
  intros [Hk Hs].
  destruct (handleInteraction_outcome q k card g)
    as [-> | (_ & Hkeys & _ & [(_ & Hin & _) | (Hst & _ & _)])].
  - done.
  - rewrite Hk in Hin. by apply elem_of_nil in Hin.
  - split; [congruence | by right].
Qed.

Lemma keyless_change_event i j s i' q :
  questions s !! i' = Some q → keyless q →
  ∃ q', questions (change_event i j s) !! i' = Some q' ∧ keyless q'.
Proof.
  intros Hq Hk.
  destruct (change_event_spec i j s) as [[-> _] | (q0 & k & card & Hq0 & -> & _)];
    [by exists q|].
  destruct (decide (i = i')) as [->|Hne].
  - assert (q0 = q) as -> by congruence.
    eexists. split; [|by apply keyless_handleInteraction].
    apply list_lookup_insert_eq. by eapply lookup_lt_Some.
  - exists q. by rewrite list_lookup_insert_ne.
Qed.

Lemma keyless_run events s i q :
  questions s !! i = Some q → keyless q →
  ∃ q', questions (run events s) !! i = Some q' ∧ keyless q'.
Proof.
  revert s q. induction events as [|[i0 j0] events IH]; intros s q Hq Hk.
  - by exists q.
  - rewrite run_cons.
    destruct (keyless_change_event i0 j0 s i q Hq Hk) as (q1 & Hq1 & Hk1).
    by apply (IH _ q1).
Qed.

(** C6: a question the matcher left ungraded has no correct key; the first
    call of the handler on it, whatever the key and the type, makes it
    incorrect; and over any sequence of events of a session its status is
    ungraded or incorrect, never correct. *)
Theorem ungraded_never_correct :
  (∀ answersMap p, status (matchQuestion answersMap p) = ungraded →
     correctKeys (matchQuestion answersMap p) = []) ∧
  (∀ q k card g, status q = ungraded → correctKeys q = [] →
     status (res_q (handleInteraction q k card g)) = incorrect) ∧
  (∀ events s i q, questions s !! i = Some q →
     status q = ungraded → correctKeys q = [] →
     ∃ q', questions (run events s) !! i = Some q' ∧
           status q' ≠ correct ∧
           (status q' = ungraded ∨ status q' = incorrect)).
Proof.
  split; [|split].
  - intros answersMap p. unfold matchQuestion.
    by destruct (answersMap !! p_id p).
  - intros q k card g Hs Hk.
    destruct (handleInteraction_outcome q k card g)
      as [Hsame | (_ & _ & _ & [(_ & Hin & _) | (Hst & _ & _)])].
    + exfalso. revert Hsame. pass_guard.
      unfold includes. rewrite Hk.
      rewrite bool_decide_eq_false_2 by apply not_elem_of_nil.
      destruct (decide (type q = SINGLE)); cbn; intros [= Hq _ _];
        apply (f_equal status) in Hq; cbn in Hq; congruence.
    + rewrite Hk in Hin. by apply elem_of_nil in Hin.
    + done.
  - intros events s i q Hq Hs Hk.
    destruct (keyless_run events s i q Hq) as (q' & Hq' & Hk' & Hs');
      [split; auto|].
    exists q'. split; [done|]. split; [|done].
    destruct Hs' as [-> | ->]; discriminate.
Qed.

Lemma ungraded_never_correct_witness :
  status (res_q (handleInteraction Sample.q7 "A"
                   (Sample.activated [0] (renderQuestion Sample.q7))
                   Sample.page0)) = incorrect ∧
  ∃ q', questions (run [(2, 1); (2, 0); (0, 1)] Sample.session) !! 2 = Some q' ∧
        status q' ≠ correct ∧
        (status q' = ungraded ∨ status q' = incorrect).
Proof.
  destruct ungraded_never_correct as (_ & Hfirst & Hrun).
  split.
  - apply Hfirst; reflexivity.
  - apply (Hrun [(2, 1); (2, 0); (0, 1)] Sample.session 2 Sample.q7);
      [vm_compute | |]; reflexivity.
Defined.

(** ** The selected keys of a multiple-choice question *)

Lemma checkedKeys_sublist card :
  sublist (checkedKeys card) (map input_value (labels card)).
Proof.
  unfold checkedKeys. apply fmap_sublist, sublist_filter.
Qed.

(** C7, as stated, fails: on the card of sample question 2, whose choices
    are A to D, selecting B, then C, then A records the keys A, B, C, the
    checked inputs in the order of the card, and not B, C, A. *)
Lemma selection_order_not_recorded :
  status (res_q (select 0 (select 2 (select 1
            (Sample.q2, renderQuestion Sample.q2, Sample.page0))))) = incorrect ∧
  userSelectedKeys (res_q (select 0 (select 2 (select 1
            (Sample.q2, renderQuestion Sample.q2, Sample.page0)))))
    = Some ["A"; "B"; "C"] ∧
  userSelectedKeys (res_q (select 0 (select 2 (select 1
            (Sample.q2, renderQuestion Sample.q2, Sample.page0)))))
    ≠ Some ["B"; "C"; "A"].
Proof. vm_compute. split; [done|]. split; [done|]. discriminate. Qed.

(** C7, amended: on a MULTIPLE question with correct keys B, C, D, shown
    on a card whose inputs are the four choices A, B, C, D in this order,
    all of them unchecked and enabled checkboxes, selecting B changes
    neither the question nor the counters (it stays unanswered), nor does
    selecting C next, and selecting A then makes the question incorrect
    and records the checked keys in the order of the choices on the card:
    A, B, C.  In general the keys recorded when a wrong key closes a
    MULTIPLE question are a subsequence of the card's inputs in document
    order. *)
Theorem multiple_choice_records_card_order (q : Question) (card : Card) (g : Page) :
  type q = MULTIPLE → status q = unanswered →
  correctKeys q = ["B"; "C"; "D"] →
  map c_key (choices q) = ["A"; "B"; "C"; "D"] →
  map input_value (labels card) = ["A"; "B"; "C"; "D"] →
  Forall (fun l => input_type l = checkbox ∧ input_checked l = false ∧
                   input_disabled l = false) (labels card) →
  let x1 := select 1 (q, card, g) in
  let x2 := select 2 x1 in
  let x3 := select 0 x2 in
  (res_q x1 = q ∧ res_page x1 = g) ∧
  (res_q x2 = q ∧ res_page x2 = g) ∧
  status (res_q x3) = incorrect ∧
  userSelectedKeys (res_q x3) = Some ["A"; "B"; "C"] ∧
  stats (res_page x3) = incr_incorrect (stats g) ∧
  (∀ k card', k ∉ correctKeys q →
     ∃ l, userSelectedKeys (res_q (handleInteraction q k card' g)) = Some l ∧
          sublist l (map input_value (labels card'))).
Proof.
  intros Ht Hs Hk Hc Hv Hl.
  destruct q as [qid qtext et chs rl keys expl ty st sel]. cbn in *. subst.
  destruct chs as [|[ka ta] [|[kb tb] [|[kc tc] [|[kd td] [|? ?]]]]];
    try discriminate Hc.
  injection Hc as -> -> -> ->.
  destruct card as [ls hid icon]. cbn in Hv, Hl.
  destruct ls as [|[? ? ? ? ? ? ? ? ? ?] [|[? ? ? ? ? ? ? ? ? ?]
                 [|[? ? ? ? ? ? ? ? ? ?] [|[? ? ? ? ? ? ? ? ? ?] [|? ?]]]]];
    try discriminate Hv.
  injection Hv as -> -> -> ->.
  repeat match goal with
         | H : Forall _ (_ :: _) |- _ =>
             apply Forall_cons in H as [(? & ? & ?) H]; cbn in *; subst
         end.
  split; [by vm_compute|]. split; [by vm_compute|].
  split; [by vm_compute|]. split; [by vm_compute|]. split; [by vm_compute|].
  intros k card' Hk.
  destruct (multiple_wrong_key
              (mkQuestion qid qtext et
                 [mkChoice "A" ta; mkChoice "B" tb; mkChoice "C" tc; mkChoice "D" td]
                 rl ["B"; "C"; "D"] expl MULTIPLE unanswered sel) k card' g)
    as [-> _]; try done.
  eexists. split; [reflexivity|]. apply checkedKeys_sublist.
Qed.

Lemma multiple_choice_records_card_order_witness :
  map input_value (labels (renderQuestion Sample.q2)) = ["A"; "B"; "C"; "D"] ∧
  userSelectedKeys (res_q (select 0 (select 2 (select 1
      (Sample.q2, renderQuestion Sample.q2, Sample.page0)))))
  = Some ["A"; "B"; "C"].
Proof.
  split; [reflexivity|].
  apply (multiple_choice_records_card_order Sample.q2
           (renderQuestion Sample.q2) Sample.page0);
    try reflexivity.
  repeat constructor.
Defined.

(** ** The question parser *)

Section QuestionStart.
Import JS Contract.

Lemma upper_is_Q c : Ascii.eqb (upperChar c) "Q"%char = isQ c.
Proof. by destruct c as [[] [] [] [] [] [] [] []]. Qed.

Lemma isQ_not_digit c : isQ c = true → isDigit c = false.
Proof. by destruct c as [[] [] [] [] [] [] [] []]. Qed.

Lemma takeWhile_isEmpty p s : isEmpty (takeWhile p s) = negb (startsWith p s).
Proof. destruct s as [|c r]; cbn; [done|]. by destruct (p c). Qed.

(** The regular expression sees the line without its optional Q exactly
    as [afterQ] gives it. *)
Lemma qStartRegex_afterQ line :
  Parser.qStartRegex line =
  if isEmpty (takeWhile isDigit (afterQ line)) then None
  else
    let s1 := dropWhile isSep (dropWhile isDigit (afterQ line)) in
    let '(tag, s2) :=
      match Parser.matchTag s1 with
      | Some (t, r) => (Some t, r)
      | None => (None, s1)
      end in
    Some (takeWhile isDigit (afterQ line), tag, dotStar (dropWhile isSpace s2)).
Proof.
  unfold Parser.qStartRegex, afterQ.
  destruct line as [|c r]; [done|]. by rewrite upper_is_Q.
Qed.

Lemma qStartRegex_start line :
  questionStart line = true →
  ∃ tag txt, Parser.qStartRegex line = Some (questionStartId line, tag, txt).
Proof.
  unfold questionStart, questionStartId. intros H.
  rewrite qStartRegex_afterQ, takeWhile_isEmpty, H. cbn.
  destruct (Parser.matchTag _) as [[t r]|]; eauto.
Qed.

Lemma qStartRegex_no_start line :
  questionStart line = false → Parser.qStartRegex line = None.
Proof.
  unfold questionStart. intros H.
  by rewrite qStartRegex_afterQ, takeWhile_isEmpty, H.
Qed.

Lemma questionStart_nonempty line : questionStart line = true → isEmpty line = false.
Proof. by destruct line. Qed.

(** The ids of the questions the loop returns: those already pushed, the
    open one, and one per question-start line still to be read. *)
Lemma parseQuestionsLoop_ids lines i questions currentQ :
  map p_id (Parser.parseQuestionsLoop lines i questions currentQ) =
  map p_id questions ++ open_id currentQ ++
  map questionStartId
      (filter (fun line => questionStart line = true) (map trim lines)).
Proof.
  revert i questions currentQ.
  induction lines as [|l rest IH]; intros i questions currentQ.
  - cbn. destruct currentQ as [q|]; cbn.
    + by rewrite map_app.
    + by rewrite app_nil_r.
  - cbn [Parser.parseQuestionsLoop map].
    destruct (questionStart (trim l)) eqn:Hstart.
    + rewrite filter_cons_True by done.
      rewrite (questionStart_nonempty _ Hstart).
      destruct (qStartRegex_start _ Hstart) as (tag & txt & ->).
      rewrite IH. cbn.
      destruct currentQ as [q|]; cbn.
      * rewrite map_app. cbn. by rewrite <- app_assoc.
      * done.
    + rewrite filter_cons_False by (rewrite Hstart; discriminate).
      destruct (isEmpty (trim l)); [apply IH|].
      rewrite (qStartRegex_no_start _ Hstart).
      destruct currentQ as [q|]; [|apply IH].
      destruct (Parser.choiceRegex (trim l)) as [[k t]|]; [by rewrite IH|].
      destruct (last (p_choices q)); by rewrite IH.
Qed.

Lemma takeWhile_digits_app ds txt :
  allChars isDigit ds = true →
  match txt with String c _ => isDigit c = false | EmptyString => True end →
  takeWhile isDigit (ds +:+ txt) = ds ∧ dropWhile isDigit (ds +:+ txt) = txt.
Proof.
  intros Hds Htxt. induction ds as [|d ds IH].
  - change (EmptyString +:+ txt) with txt.
    destruct txt as [|c r]; [done|]. cbn. by rewrite Htxt.
  - cbn in Hds. apply andb_true_iff in Hds as [Hd Hds].
    change (String d ds +:+ txt) with (String d (ds +:+ txt)). cbn.
    rewrite Hd. destruct (IH Hds) as [-> ->]. done.
Qed.

Lemma bracket_only_upper c :
  Ascii.eqb (upperChar "["%char) (upperChar c) = true → c = "["%char.
Proof. by destruct c as [[] [] [] [] [] [] [] []]. Qed.

Lemma matchTag_needs_bracket c r :
  Ascii.eqb c "["%char = false → Parser.matchTag (String c r) = None.
Proof.
  intros Hc. unfold Parser.matchTag.
  assert (E : Ascii.eqb (upperChar "["%char) (upperChar c) = false).
  { destruct (Ascii.eqb (upperChar "["%char) (upperChar c)) eqn:E; [|done].
    apply bracket_only_upper in E. subst c. done. }
  change (stripPrefixCI "[Single]" (String c r))
    with (if Ascii.eqb (upperChar "["%char) (upperChar c)
          then stripPrefixCI "Single]" r else None).
  change (stripPrefixCI "[Multiple]" (String c r))
    with (if Ascii.eqb (upperChar "["%char) (upperChar c)
          then stripPrefixCI "Multiple]" r else None).
  by rewrite E.
Qed.

Lemma dotStar_plain txt :
  allChars (fun c => negb (isLineTerminator c)) txt = true → dotStar txt = txt.
Proof.
  unfold dotStar. induction txt as [|c r IH]; [done|]. cbn.
  intros [Hc Hr]%andb_true_iff. by rewrite Hc, (IH Hr).
Qed.

Lemma isSep_space c : isSep c = false → isSpace c = false.
Proof. unfold isSep. by intros [_ ?]%orb_false_iff. Qed.

(** Digits followed directly by a plain stem: the digits are the id and
    the stem is the text. *)
Lemma qStartRegex_unseparated line ds txt :
  afterQ line = ds +:+ txt → isEmpty ds = false →
  allChars isDigit ds = true → plainStem txt = true →
  Parser.qStartRegex line = Some (ds, None, txt).
Proof.
  intros Hline Hne Hds Hstem.
  unfold plainStem in Hstem. apply andb_true_iff in Hstem as [Hfirst Hterm].
  rewrite qStartRegex_afterQ, Hline.
  destruct (takeWhile_digits_app ds txt Hds) as [-> ->].
  { destruct txt as [|c r]; [done|].
    apply andb_true_iff in Hfirst as [[H _]%andb_true_iff _].
    by apply negb_true_iff in H. }
  rewrite Hne.
  destruct txt as [|c r]; [done|].
  apply andb_true_iff in Hfirst as [[Hd Hs]%andb_true_iff Hb].
  apply negb_true_iff in Hd, Hs, Hb.
  cbn [dropWhile]. rewrite Hs.
  rewrite (matchTag_needs_bracket _ _ Hb).
  cbn [dropWhile]. rewrite (isSep_space _ Hs).
  by rewrite (dotStar_plain _ Hterm).
Qed.

End QuestionStart.

(** C8, as stated, fails: the line 3abc has digits followed directly by
    other text, with no separator, and it opens question 3 with the stem
    abc. *)
Lemma question_start_needs_no_separator :
  Contract.separatedQuestionStart "3abc" = false ∧
  Parser.qStartRegex "3abc" = Some ("3", None, "abc") ∧
  Parser.parseQuestionsText "3abc" = [mkParsed "3" "abc" None [] 1].
Proof. vm_compute. done. Qed.

(** C8, amended: a trimmed line opens a new question exactly when it
    begins with an optional Q (in either case) followed by at least one
    digit; the separator, the tag and the stem may follow but none of
    them is required.  The parser returns one question per such line, in
    order, with the leading digits as its id.  A line whose digits are
    followed directly by other text is therefore a question start too:
    when that text begins with neither a digit, a separator nor an
    opening bracket and holds no line terminator, the digits are the id,
    there is no tag and that text is the stem text of the line, so that
    the line 3abc opens question 3 with the stem abc. *)
Theorem question_start_lines (text : string) :
  (∀ line, is_Some (Parser.qStartRegex line) ↔ Contract.questionStart line = true) ∧
  map p_id (Parser.parseQuestionsText text)
    = map Contract.questionStartId (Contract.questionStartLines text) ∧
  length (Parser.parseQuestionsText text)
    = length (Contract.questionStartLines text) ∧
  (∀ d rest, JS.isDigit d = true →
     is_Some (Parser.qStartRegex (String d rest))) ∧
  (∀ line ds txt,
     Contract.afterQ line = ds +:+ txt → JS.isEmpty ds = false →
     allChars JS.isDigit ds = true → plainStem txt = true →
     Parser.qStartRegex line = Some (ds, None, txt)) ∧
  Parser.parseQuestionsText "3abc" = [mkParsed "3" "abc" None [] 1].
Proof.
  assert (Hiff : ∀ line,
    is_Some (Parser.qStartRegex line) ↔ Contract.questionStart line = true).
  { intros line. destruct (Contract.questionStart line) eqn:E.
    - destruct (qStartRegex_start _ E) as (tag & txt & ->). by split.
    - rewrite (qStartRegex_no_start _ E). split; [by intros [? ?] | done]. }
  assert (Hids : map p_id (Parser.parseQuestionsText text)
    = map Contract.questionStartId (Contract.questionStartLines text)).
  { unfold Parser.parseQuestionsText. by rewrite parseQuestionsLoop_ids. }
  split; [done|]. split; [done|]. split; [|split; [|split]].
  - apply (f_equal length) in Hids. by rewrite !length_map in Hids.
  - intros d rest Hd. apply Hiff.
    unfold Contract.questionStart, Contract.afterQ.
    destruct (Contract.isQ d) eqn:HQ; [|done].
    apply isQ_not_digit in HQ. congruence.
  - apply qStartRegex_unseparated.
  - by vm_compute.
Qed.

Lemma question_start_lines_witness :
  is_Some (Parser.qStartRegex "3abc") ∧
  is_Some (Parser.qStartRegex "q12 [multiple] Pick two") ∧
  Parser.qStartRegex "Q12x > 0?" = Some ("12", None, "x > 0?").
Proof.
  split; [|split].
  - destruct (question_start_lines "3abc") as (_ & _ & _ & Hdigit & _).
    apply Hdigit. reflexivity.
  - destruct (question_start_lines "q12 [multiple] Pick two") as (Hiff & _).
    apply Hiff. reflexivity.
  - destruct (question_start_lines "Q12x > 0?") as (_ & _ & _ & _ & Hstem & _).
    apply Hstem; reflexivity.
Defined.

(** ** The answer parser *)

Section AnswerMap.
Import JS Contract.

Lemma setAll_app answers bs1 bs2 :
  setAll answers (bs1 ++ bs2) = setAll (setAll answers bs1) bs2.
Proof. apply foldl_app. Qed.

Lemma flushAnswer_setAll answers currentA :
  Parser.flushAnswer answers currentA = setAll answers (option_list currentA).
Proof. by destruct currentA. Qed.

(** The parser's loop sets the blocks of the text into the map, in the
    order of the text. *)
Lemma parseAnswersLoop_blocks lines answers currentA :
  Parser.parseAnswersLoop lines answers currentA
  = setAll answers (answerBlocksLoop lines currentA).
Proof.
  revert answers currentA.
  induction lines as [|l rest IH]; intros answers currentA.
  - apply flushAnswer_setAll.
  - cbn [Parser.parseAnswersLoop answerBlocksLoop].
    destruct (isEmpty (trim l)); [apply IH|].
    destruct (Parser.aStartRegex (trim l)) as [[aid keysText]|].
    + by rewrite IH, setAll_app, flushAnswer_setAll.
    + destruct currentA as [a|]; [|apply IH].
      destruct (Parser.expStartRegex (trim l)); apply IH.
Qed.

Lemma lastBlock_snoc aid blocks a :
  lastBlock aid (blocks ++ [a]) =
  if decide (a_id a = aid) then Some a else lastBlock aid blocks.
Proof.
  unfold lastBlock. rewrite filter_app.
  destruct (decide (a_id a = aid)) as [E|E].
  - rewrite filter_cons_True by done. cbn. apply last_snoc.
  - rewrite filter_cons_False by done. cbn. by rewrite app_nil_r.
Qed.

(** Last write wins: a lookup finds the last block with that id, and the
    earlier content of the map when no block has it. *)
Lemma setAll_lookup answers blocks aid :
  setAll answers blocks !! aid =
  match lastBlock aid blocks with
  | Some a => Some a
  | None => answers !! aid
  end.
Proof.
  induction blocks as [|a blocks IH] using rev_ind; [done|].
  rewrite setAll_app, lastBlock_snoc. cbn.
  destruct (decide (a_id a = aid)) as [<-|E].
  - apply lookup_insert_eq.
  - by rewrite lookup_insert_ne.
Qed.

Lemma lastBlock_Some aid blocks a :
  lastBlock aid blocks = Some a → a_id a = aid ∧ a ∈ blocks.
Proof.
  unfold lastBlock. intros H. apply last_Some_elem_of in H.
  apply list_elem_of_filter in H. tauto.
Qed.

Lemma lastBlock_None aid blocks :
  lastBlock aid blocks = None → ∀ a, a ∈ blocks → a_id a ≠ aid.
Proof.
  unfold lastBlock. intros H a Ha E.
  apply last_None in H.
  assert (Hin : a ∈ filter (fun a => a_id a = aid) blocks)
    by (by apply list_elem_of_filter).
  rewrite H in Hin. by apply elem_of_nil in Hin.
Qed.

End AnswerMap.

(** C9: the map returned for an answer text has no key twice, every entry
    sits under its own id, and the entry of an id is the last block of the
    text with that id, whatever the number of blocks sharing it; an id has
    an entry exactly when some block carries it. *)
Theorem answers_last_write_wins (text : string) :
  NoDup (map_to_list (Parser.parseAnswersText text)).*1 ∧
  (∀ aid, Parser.parseAnswersText text !! aid
          = Contract.lastBlock aid (Contract.answerBlocks text)) ∧
  (∀ aid a1 a2,
     (aid, a1) ∈ map_to_list (Parser.parseAnswersText text) →
     (aid, a2) ∈ map_to_list (Parser.parseAnswersText text) →
     a1 = a2 ∧ a_id a1 = aid) ∧
  (∀ aid blocks1 a blocks2,
     Contract.answerBlocks text = blocks1 ++ a :: blocks2 →
     a_id a = aid → (∀ b, b ∈ blocks2 → a_id b ≠ aid) →
     Parser.parseAnswersText text !! aid = Some a) ∧
  (∀ aid, is_Some (Parser.parseAnswersText text !! aid) ↔
          ∃ a, a ∈ Contract.answerBlocks text ∧ a_id a = aid).
Proof.
  assert (Hlookup : ∀ aid, Parser.parseAnswersText text !! aid
            = Contract.lastBlock aid (Contract.answerBlocks text)).
  { intros aid. unfold Parser.parseAnswersText, Contract.answerBlocks.
    rewrite parseAnswersLoop_blocks, setAll_lookup.
    by destruct (Contract.lastBlock _ _). }
  split; [apply NoDup_fst_map_to_list|].
  split; [done|]. split; [|split].
  - intros aid a1 a2 H1 H2.
    apply elem_of_map_to_list in H1, H2.
    split; [congruence|].
    rewrite Hlookup in H1. by apply lastBlock_Some in H1 as [? _].
  - intros aid blocks1 a blocks2 Hb Ha Hlater.
    rewrite Hlookup, Hb. unfold Contract.lastBlock.
    rewrite filter_app, filter_cons_True by done.
    assert (Hnone : filter (fun b => a_id b = aid) blocks2 = []).
    { clear -Hlater. induction blocks2 as [|b bs IH]; [done|].
      rewrite filter_cons_False by (apply Hlater, elem_of_cons; by left).
      apply IH. intros b' Hb'. apply Hlater, elem_of_cons. by right. }
    rewrite Hnone. apply last_snoc.
  - intros aid. rewrite Hlookup. split.
    + intros [a Ha]. exists a. apply lastBlock_Some in Ha. tauto.
    + intros (a & Hin & Ha).
      destruct (Contract.lastBlock aid (Contract.answerBlocks text)) eqn:E;
        [done|].
      by destruct (lastBlock_None _ _ E a Hin).
Qed.

Example sample_answer_blocks :
  Contract.answerBlocks Sample.answersText =
    [mkAnswer "1" ["C"] "first try";
     mkAnswer "2" ["B"; "C"; "D"] "three of them";
     mkAnswer "07" ["A"] "";
     mkAnswer "1" ["B"] ("because" +:+ Sample.nl +:+ "it is")].
Proof. vm_compute. reflexivity. Qed.

Lemma answers_last_write_wins_witness :
  Parser.parseAnswersText Sample.answersText !! "1"
  = Some (mkAnswer "1" ["B"] ("because" +:+ Sample.nl +:+ "it is")).
Proof.
  destruct (answers_last_write_wins Sample.answersText) as (_ & _ & _ & Hlast & _).
  apply (Hlast "1"
           [mkAnswer "1" ["C"] "first try";
            mkAnswer "2" ["B"; "C"; "D"] "three of them";
            mkAnswer "07" ["A"] ""]
           (mkAnswer "1" ["B"] ("because" +:+ Sample.nl +:+ "it is")) []).
  - vm_compute. reflexivity.
  - reflexivity.
  - intros b Hb. by apply elem_of_nil in Hb.
Defined.

(** ** The scenarios of the specification, run on the sample session *)

(** Selecting C on question 1 (correct key B) makes it incorrect, records
    C and counts one incorrect answer; selecting B, C, D in turn on
    question 2 makes it correct after D. *)
Example sample_scenarios :
  questions (run [(0, 2)] Sample.session) !! 0
    = Some (set_userSelectedKeys (set_status Sample.q1 incorrect) ["C"]) ∧
  stats (page (run [(0, 2)] Sample.session)) = mkStats 3 0 1 ∧
  questions (run [(1, 1); (1, 2)] Sample.session) !! 1 = Some Sample.q2 ∧
  questions (run [(1, 1); (1, 2); (1, 3)] Sample.session) !! 1
    = Some (set_userSelectedKeys (set_status Sample.q2 correct) ["B"; "C"; "D"]) ∧
  scoreboard (page (run [(0, 1); (1, 1); (1, 0); (2, 0)] Sample.session))
    = mkBoard 3 1 2 33.
Proof. vm_compute. done. Qed.

(* ===================================================================== *)
(** * Further properties of the scripts *)
(* ===================================================================== *)

(** ** The handler, case by case *)

Lemma terminal_true q : terminal q = true ↔ status q = correct ∨ status q = incorrect.
Proof. apply bool_decide_eq_true. Qed.

Lemma terminal_false q :
  terminal q = false ↔ status q ≠ correct ∧ status q ≠ incorrect.
Proof.
  unfold terminal. rewrite bool_decide_eq_false. tauto.
Qed.

(** The six ways through [handleInteraction]. *)
Lemma handleInteraction_cases q k card g :
  (terminal q = true ∧ handleInteraction q k card g = (q, card, g)) ∨
  (terminal q = false ∧ type q = SINGLE ∧ k ∈ correctKeys q ∧
   handleInteraction q k card g =
     (set_userSelectedKeys (set_status q correct) [k],
      revealExplanation
        (showStatusIcon (markChoice (lockInputs card) k mark_correct) correct),
      mkPage (incr_correct (stats g)) (updateScoreboard (incr_correct (stats g))))) ∨
  (terminal q = false ∧ type q = SINGLE ∧ (k ∉ correctKeys q) ∧
   handleInteraction q k card g =
     (set_userSelectedKeys (set_status q incorrect) [k],
      revealExplanation
        (showStatusIcon
           (markAll mark_correct (correctKeys q)
              (markChoice (lockInputs card) k mark_incorrect))
           incorrect),
      mkPage (incr_incorrect (stats g))
             (updateScoreboard (incr_incorrect (stats g))))) ∨
  (terminal q = false ∧ type q = MULTIPLE ∧ (k ∉ correctKeys q) ∧
   handleInteraction q k card g =
     (set_userSelectedKeys (set_status q incorrect) (checkedKeys card),
      revealExplanation
        (showStatusIcon
           (revealCorrect (checkedKeys card) (correctKeys q)
              (markChoice (lockInputs card) k mark_incorrect))
           incorrect),
      mkPage (incr_incorrect (stats g))
             (updateScoreboard (incr_incorrect (stats g))))) ∨
  (terminal q = false ∧ type q = MULTIPLE ∧ k ∈ correctKeys q ∧
   (∀ x, x ∈ checkedKeys card ↔ x ∈ correctKeys q) ∧
   handleInteraction q k card g =
     (set_userSelectedKeys (set_status q correct) (checkedKeys card),
      revealExplanation
        (showStatusIcon
           (markAll mark_correct (checkedKeys card) (lockInputs card))
           correct),
      mkPage (incr_correct (stats g)) (updateScoreboard (incr_correct (stats g))))) ∨
  (terminal q = false ∧ type q = MULTIPLE ∧ k ∈ correctKeys q ∧
   ¬ (∀ x, x ∈ checkedKeys card ↔ x ∈ correctKeys q) ∧
   handleInteraction q k card g = (q, card, g)).
Proof.
  destruct (terminal q) eqn:Ht.
  - left. split; [done|]. apply handleInteraction_locked. by apply terminal_true.
  - right. apply terminal_false in Ht as [Hc Hi].
    destruct (type q) eqn:Hty.
    + rewrite single_choice by done.
      destruct (includes (correctKeys q) k) eqn:Hk;
        [apply includes_true in Hk | apply includes_false in Hk].
      * by left.
      * right. by left.
    + do 2 right.
      destruct (decide (k ∈ correctKeys q)) as [Hk|Hk].
      * right. rewrite multiple_right_key by done.
        destruct (forallb (includes (checkedKeys card)) (correctKeys q)) eqn:H1;
          [destruct (forallb (includes (correctKeys q)) (checkedKeys card)) eqn:H2|];
          cbn [andb].
        -- left. rewrite every_includes in H1, H2.
           repeat split; auto.
        -- right. repeat split; auto. intros Heq.
           apply not_true_iff_false in H2. apply H2, every_includes.
           intros x. apply Heq.
        -- right. repeat split; auto. intros Heq.
           apply not_true_iff_false in H1. apply H1, every_includes.
           intros x. apply Heq.
      * left. repeat split; auto.
        unfold handleInteraction.
        rewrite decide_False by (intros [?|?]; congruence).
        rewrite decide_False by congruence.
        apply includes_false in Hk. by rewrite Hk.
Qed.

(** ** Marks *)

Lemma mark_rel_refl C I M l : mark_rel C I M l l.
Proof. unfold mark_rel. tauto. Qed.

Lemma mark_rel_trans C I M l1 l2 l3 :
  mark_rel C I M l1 l2 → mark_rel C I M l2 l3 → mark_rel C I M l1 l3.
Proof.
  unfold mark_rel, label_static.
  intros (Hs1 & ? & ? & ? & ? & ? & ? & Hc1 & Hi1 & Hm1)
         (Hs2 & ? & ? & ? & ? & ? & ? & Hc2 & Hi2 & Hm2).
  assert (Hkey : data_key l2 = data_key l1) by congruence.
  rewrite Hkey in Hc2, Hi2, Hm2.
  repeat split; try congruence; try tauto.
Qed.

Lemma add_mark_rel C I M m l :
  licensed C I M m (data_key l) → mark_rel C I M l (add_mark m l).
Proof.
  unfold mark_rel, label_static. intros H.
  destruct m; cbn in *; repeat split; auto.
Qed.

Lemma mark_first_rel C I M k m ls :
  licensed C I M m k → Forall2 (mark_rel C I M) ls (mark_first k m ls).
Proof.
  intros H. induction ls as [|l ls IH]; cbn; [constructor|].
  case_decide as E.
  - constructor.
    + apply add_mark_rel. by rewrite E.
    + apply Forall2_same_length_lookup_2; [done|].
      intros i x y Hx Hy. assert (x = y) as -> by congruence.
      apply mark_rel_refl.
  - constructor; [apply mark_rel_refl | done].
Qed.

Lemma Forall2_mark_rel_trans C I M ls1 ls2 ls3 :
  Forall2 (mark_rel C I M) ls1 ls2 → Forall2 (mark_rel C I M) ls2 ls3 →
  Forall2 (mark_rel C I M) ls1 ls3.
Proof.
  intros H. revert ls3.
  induction H as [|l1 l2 ls1 ls2 Hl Hls IH]; intros ls3 H3.
  - by inversion H3.
  - inversion H3 as [|? l3 ? ls3' Hl3 Hls3]; subst.
    constructor; [by eapply mark_rel_trans | by apply IH].
Qed.

Lemma markAll_rel C I M m ks card :
  (∀ k, k ∈ ks → licensed C I M m k) →
  Forall2 (mark_rel C I M) (labels card) (labels (markAll m ks card)).
Proof.
  unfold markAll. revert card.
  induction ks as [|k ks IH]; intros card H; cbn.
  - apply Forall2_same_length_lookup_2; [done|].
    intros i x y Hx Hy. assert (x = y) as -> by congruence.
    apply mark_rel_refl.
  - eapply Forall2_mark_rel_trans; [|apply IH].
    + cbn. apply mark_first_rel, H, elem_of_cons. by left.
    + intros k' Hk'. apply H, elem_of_cons. by right.
Qed.

Lemma revealCorrect_rel C I M checked ks card :
  (∀ k, k ∈ ks → k ∈ checked → C k) →
  (∀ k, k ∈ ks → k ∉ checked → M k) →
  Forall2 (mark_rel C I M) (labels card)
          (labels (revealCorrect checked ks card)).
Proof.
  unfold revealCorrect. revert card.
  induction ks as [|k ks IH]; intros card HC HM; cbn.
  - apply Forall2_same_length_lookup_2; [done|].
    intros i x y Hx Hy. assert (x = y) as -> by congruence.
    apply mark_rel_refl.
  - eapply Forall2_mark_rel_trans; [|apply IH].
    + destruct (includes checked k) eqn:E; cbn; apply mark_first_rel; cbn.
      * apply HC; [apply elem_of_cons; by left | by apply includes_true].
      * apply HM; [apply elem_of_cons; by left | by apply includes_false].
    + intros k' Hk'. apply HC, elem_of_cons. by right.
    + intros k' Hk'. apply HM, elem_of_cons. by right.
Qed.

(** ** Cards under the browser's changes *)

Lemma label_static_inv l l' :
  label_static l' = label_static l →
  data_key l' = data_key l ∧ input_type l' = input_type l ∧
  input_name l' = input_name l ∧ input_value l' = input_value l.
Proof. unfold label_static. intros [= ? ? ? ?]. auto. Qed.

Lemma same_but_checked_refl l : same_but_checked l l.
Proof. unfold same_but_checked. tauto. Qed.

Lemma set_checked_same b l : same_but_checked l (set_checked b l).
Proof. unfold same_but_checked, label_static. cbn. tauto. Qed.

Lemma uncheck_group_same name l : same_but_checked l (uncheck_group name l).
Proof.
  unfold uncheck_group. case_decide;
    [apply set_checked_same | apply same_but_checked_refl].
Qed.

Lemma uncheck_group_checked name l :
  input_checked (uncheck_group name l) = true → input_checked l = true.
Proof. unfold uncheck_group. by case_decide. Qed.

Lemma uncheck_group_value name l :
  input_value (uncheck_group name l) = input_value l.
Proof. unfold uncheck_group. by case_decide. Qed.

Lemma uncheck_group_checkbox name l :
  input_type l = checkbox → uncheck_group name l = l.
Proof.
  intros H. unfold uncheck_group.
  rewrite decide_False; [done|]. intros [? _]. congruence.
Qed.

Lemma Forall2_refl_on {A} (R : A → A → Prop) (l : list A) :
  (∀ x, R x x) → Forall2 R l l.
Proof. intros H. induction l; constructor; auto. Qed.

Lemma Forall2_map_r_same {A} (R : A → A → Prop) (f : A → A) (l : list A) :
  (∀ x, R x (f x)) → Forall2 R l (map f l).
Proof. intros H. induction l; cbn; constructor; auto. Qed.

(** The labels of a card after the browser has acted on its [j]-th
    input. *)
Lemma activate_labels j card card' :
  activate j card = Some card' →
  Forall2 same_but_checked (labels card) (labels card') ∧
  explanation_hidden card' = explanation_hidden card ∧
  status_icon card' = status_icon card ∧
  ∃ l, labels card !! j = Some l ∧ input_disabled l = false.
Proof.
  unfold activate. intros H.
  destruct (labels card !! j) as [l|] eqn:El; [|done].
  destruct (input_disabled l) eqn:Ed; [done|].
  destruct (input_type l).
  - destruct (input_checked l); [done|]. injection H as <-. cbn.
    split; [|by eauto].
    apply Forall2_same_length_lookup_2.
    { by rewrite length_insert, length_map. }
    intros i x y Hx Hy.
    apply list_lookup_insert_Some in Hy as [(-> & <- & _) | (Hne & Hy)].
    + rewrite El in Hx. injection Hx as <-. apply set_checked_same.
    + rewrite list_lookup_fmap, Hx in Hy. injection Hy as <-.
      apply uncheck_group_same.
  - injection H as <-. cbn. split; [|by eauto].
    apply Forall2_same_length_lookup_2; [by rewrite length_insert|].
    intros i x y Hx Hy.
    apply list_lookup_insert_Some in Hy as [(-> & <- & _) | (Hne & Hy)].
    + rewrite El in Hx. injection Hx as <-. apply set_checked_same.
    + assert (x = y) as -> by congruence. apply same_but_checked_refl.
Qed.

(** On a card of checkboxes the checked keys after the browser's action
    are the old ones, with the key of the input added when it was
    unchecked. *)
Lemma activate_checkbox_keys j card card' l :
  activate j card = Some card' → labels card !! j = Some l →
  input_type l = checkbox →
  (∀ x, x ∈ checkedKeys card' → x = input_value l ∨ x ∈ checkedKeys card) ∧
  (input_value l ∈ checkedKeys card' ∨ input_value l ∈ checkedKeys card).
Proof.
  unfold activate. intros H El Ht. rewrite El, Ht in H.
  destruct (input_disabled l); [done|]. injection H as <-.
  unfold checkedKeys. cbn. split.
  - intros x Hx. apply list_elem_of_fmap in Hx as (l0 & -> & Hl0).
    apply list_elem_of_filter in Hl0 as [Hc Hl0].
    apply list_elem_of_lookup in Hl0 as [i Hi].
    apply list_lookup_insert_Some in Hi as [(-> & <- & _) | (Hne & Hi)].
    + by left.
    + right. apply list_elem_of_fmap. exists l0. split; [done|].
      apply list_elem_of_filter. split; [done|].
      by eapply list_elem_of_lookup_2.
  - destruct (input_checked l) eqn:Ec.
    + right. apply list_elem_of_fmap. exists l. split; [done|].
      apply list_elem_of_filter. split; [done|].
      by eapply list_elem_of_lookup_2.
    + left. apply list_elem_of_fmap.
      exists (set_checked (negb false) l). split; [done|].
      apply list_elem_of_filter. split; [done|].
      apply list_elem_of_insert. by eapply lookup_lt_Some.
Qed.

(** A card keeps being in step with its question when only checks change
    and no wrong key gets checked on an open MULTIPLE card. *)
Lemma card_ok_checks q card card' :
  card_ok q card →
  Forall2 same_but_checked (labels card) (labels card') →
  explanation_hidden card' = explanation_hidden card →
  status_icon card' = status_icon card →
  (terminal q = false → type q = MULTIPLE →
     ∀ x, x ∈ checkedKeys card' → x ∈ correctKeys q) →
  card_ok q card'.
Proof.
  intros (Hst & Hdis & Hhid & Hicon & Hopen & _ & Hsound & Hrev) H2 Hh Hi Hck.
  assert (Hper : ∀ (P : ChoiceLabel → Prop),
            (∀ l l', same_but_checked l l' → P l → P l') →
            Forall P (labels card) → Forall P (labels card')).
  { intros P HP HF. apply Forall_lookup. intros i y Hy.
    destruct (Forall2_lookup_r _ _ _ _ _ H2 Hy) as (x & Hx & Hxy).
    eapply HP; [done|]. by eapply Forall_lookup_1. }
  unfold card_ok. split; [|split; [|split; [|split; [|split; [|split; [|split]]]]]].
  - rewrite <- Hst. symmetry. apply list_eq_Forall2.
    apply Forall2_fmap. eapply Forall2_impl; [done|].
    intros l l' (E & _). by rewrite E.
  - apply (Hper _); [|done].
    intros l l' (_ & E1 & E2 & _) [? ?]. split; congruence.
  - congruence.
  - congruence.
  - intros Ho. apply (Hper _); [|by apply Hopen].
    unfold unmarked. intros l l' (_ & _ & _ & E1 & E2 & E3) (? & ? & ?).
    repeat split; congruence.
  - done.
  - apply (Hper _); [|done].
    unfold marks_sound, label_static.
    intros l l' (E0 & _ & _ & E1 & E2 & E3) (? & ? & ? & ?).
    apply label_static_inv in E0 as (Ek & _).
    rewrite Ek, E1, E2, E3. tauto.
  - intros Hinc c Hc Hin.
    assert (Hin' : c ∈ map data_key (labels card)).
    { apply list_elem_of_fmap in Hin as (l' & -> & Hl').
      apply list_elem_of_lookup in Hl' as [i Hi'].
      destruct (Forall2_lookup_r _ _ _ _ _ H2 Hi') as (x & Hx & (E0 & _)).
      apply label_static_inv in E0 as (Ek & _).
      apply list_elem_of_fmap. exists x. split; [done|].
      by eapply list_elem_of_lookup_2. }
    destruct (Hrev Hinc c Hc Hin') as (l & Hl & Hk & Hm).
    apply list_elem_of_lookup in Hl as [i Hi'].
    destruct (Forall2_lookup_l _ _ _ _ _ H2 Hi') as (y & Hy & (E0 & _ & _ & E1 & _ & E3)).
    apply label_static_inv in E0 as (Ek & _).
    exists y. split; [by eapply list_elem_of_lookup_2|].
    split; [congruence|]. rewrite E1, E3. done.
Qed.

(** ** Cards under the handler's closing steps *)

Lemma lock_label_static l : label_static (lock_label l) = label_static l.
Proof. reflexivity. Qed.

(** A mark set by [markChoice] is found on the card, and the later marking
    steps keep it. *)
Lemma mark_first_marks k m ls :
  k ∈ map data_key ls →
  ∃ i l, mark_first k m ls !! i = Some l ∧ data_key l = k ∧ has_mark m l = true.
Proof.
  induction ls as [|l0 ls IH]; cbn; intros H.
  - by apply elem_of_nil in H.
  - case_decide as E.
    + exists 0, (add_mark m l0). split; [done|]. split; [done|]. by destruct m.
    + apply elem_of_cons in H as [H|H]; [congruence|].
      destruct (IH H) as (i & l & Hi & Hk & Hm). by exists (S i), l.
Qed.

Lemma mark_rel_keeps C I M m l l' :
  mark_rel C I M l l' → has_mark m l = true →
  data_key l' = data_key l ∧ has_mark m l' = true.
Proof.
  intros (E0 & _ & _ & _ & Hc & Hi & Hm & _) H.
  apply label_static_inv in E0 as (Ek & _).
  split; [done|]. destruct m; cbn in *; auto.
Qed.

Lemma mark_rel_keys C I M ls ls' :
  Forall2 (mark_rel C I M) ls ls' → map data_key ls' = map data_key ls.
Proof.
  intros H. apply list_eq_Forall2, Forall2_fmap.
  apply Forall2_flip. eapply Forall2_impl; [done|].
  intros l l' (E0 & _). by apply label_static_inv in E0 as (Ek & _).
Qed.

Lemma markAll_complete m ks card c :
  c ∈ ks → c ∈ map data_key (labels card) →
  ∃ l, l ∈ labels (markAll m ks card) ∧ data_key l = c ∧ has_mark m l = true.
Proof.
  revert card. induction ks as [|k ks IH]; intros card Hc Hin.
  - by apply elem_of_nil in Hc.
  - change (markAll m (k :: ks) card) with (markAll m ks (markChoice card k m)).
    destruct (decide (c = k)) as [->|Hne].
    + destruct (mark_first_marks k m (labels card) Hin) as (i & l & Hi & Hk & Hm).
      pose proof (markAll_rel (fun _ => True) (fun _ => True) (fun _ => True)
                    m ks (markChoice card k m)) as Hrel.
      destruct (Forall2_lookup_l _ _ _ _ _ (Hrel ltac:(by destruct m)) Hi)
        as (l' & Hl' & Hll').
      destruct (mark_rel_keeps _ _ _ m _ _ Hll' Hm) as [Ek Hm'].
      exists l'. split; [by eapply list_elem_of_lookup_2|]. split; congruence.
    + apply elem_of_cons in Hc as [?|Hc]; [done|].
      apply IH; [done|]. cbn.
      rewrite (mark_rel_keys (fun _ => True) (fun _ => True) (fun _ => True)
                 (labels card)); [done|].
      apply mark_first_rel. by destruct m.
Qed.

Lemma revealCorrect_cons checked k ks card :
  revealCorrect checked (k :: ks) card =
  revealCorrect checked ks
    (if includes checked k then markChoice card k mark_correct
     else markChoice card k mark_missed).
Proof. reflexivity. Qed.

Lemma revealCorrect_complete checked ks card c :
  c ∈ ks → c ∈ map data_key (labels card) →
  ∃ l, l ∈ labels (revealCorrect checked ks card) ∧ data_key l = c ∧
       (cls_correct_choice l = true ∨ cls_missed_correct l = true).
Proof.
  revert card. induction ks as [|k ks IH]; intros card Hc Hin.
  - by apply elem_of_nil in Hc.
  - rewrite revealCorrect_cons.
    destruct (decide (c = k)) as [->|Hne].
    + set (m := if includes checked k then mark_correct else mark_missed).
      assert (Hcard : (if includes checked k then markChoice card k mark_correct
                       else markChoice card k mark_missed) = markChoice card k m)
        by (unfold m; by destruct (includes checked k)).
      rewrite Hcard.
      destruct (mark_first_marks k m (labels card) Hin) as (i & l & Hi & Hk & Hm).
      pose proof (revealCorrect_rel (fun _ => True) (fun _ => True) (fun _ => True)
                    checked ks (markChoice card k m)) as Hrel.
      destruct (Forall2_lookup_l _ _ _ _ _ (Hrel ltac:(done) ltac:(done)) Hi)
        as (l' & Hl' & Hll').
      destruct (mark_rel_keeps _ _ _ m _ _ Hll' Hm) as [Ek Hm'].
      exists l'. split; [by eapply list_elem_of_lookup_2|].
      split; [congruence|].
      unfold m in Hm'. destruct (includes checked k); cbn in Hm'; auto.
    + apply elem_of_cons in Hc as [?|Hc]; [done|].
      apply IH; [done|].
      assert (Hkeys : ∀ m, map data_key (labels (markChoice card k m))
                           = map data_key (labels card)).
      { intros m. cbn.
        apply (mark_rel_keys (fun _ => True) (fun _ => True) (fun _ => True)).
        apply mark_first_rel. by destruct m. }
      destruct (includes checked k); by rewrite Hkeys.
Qed.

(** The card a closing step of the handler leaves is in step with the
    closed question. *)
Lemma close_card q q' card X C I M :
  map label_static (labels card) = map label_static (labels (renderQuestion q)) →
  Forall unmarked (labels card) →
  Forall2 (mark_rel C I M) (map lock_label (labels card)) (labels X) →
  (∀ x, I x → x ∉ correctKeys q') →
  (∀ x, C x → x ∈ correctKeys q') →
  (∀ x, M x → x ∈ correctKeys q') →
  (∀ x, C x → M x → False) →
  renderQuestion q' = renderQuestion q →
  terminal q' = true →
  (status q' = incorrect → reveal_complete (correctKeys q') (labels X)) →
  card_ok q' (revealExplanation (showStatusIcon X (status q'))).
Proof.
  intros Hst Hun Hrel HI HC HM HCM Hrender Hterm Hrev.
  assert (Hfrom : ∀ y, y ∈ labels X →
            ∃ l, l ∈ labels card ∧ mark_rel C I M (lock_label l) y).
  { intros y Hy. apply list_elem_of_lookup in Hy as [i Hi].
    destruct (Forall2_lookup_r _ _ _ _ _ Hrel Hi) as (x & Hx & Hxy).
    rewrite list_lookup_fmap in Hx.
    destruct (labels card !! i) as [l|] eqn:El; [|done].
    injection Hx as <-. exists l. split; [by eapply list_elem_of_lookup_2 | done]. }
  unfold card_ok. cbn [labels revealExplanation showStatusIcon
                       explanation_hidden status_icon].
  rewrite Hterm. cbn [negb].
  split; [|split; [|split; [|split; [|split; [|split; [|split]]]]]];
    try done.
  - rewrite Hrender, <- Hst. apply list_eq_Forall2.
    apply Forall2_fmap, Forall2_flip.
    apply Forall2_same_length_lookup_2.
    { apply Forall2_length in Hrel. by rewrite length_map in Hrel. }
    intros i x y Hx Hy.
    destruct (Forall2_lookup_r _ _ _ _ _ Hrel Hy) as (x' & Hx' & (E0 & _)).
    rewrite list_lookup_fmap, Hx in Hx'. injection Hx' as <-.
    by rewrite E0.
  - apply Forall_forall. intros y Hy.
    destruct (Hfrom y Hy) as (l & _ & (_ & _ & Ed & Ec & _)).
    by rewrite Ed, Ec.
  - apply Forall_forall. intros y Hy.
    destruct (Hfrom y Hy) as (l & Hl & (E0 & _ & _ & _ & _ & _ & _ & Hc & Hi & Hm)).
    rewrite Forall_forall in Hun. destruct (Hun l Hl) as (U1 & U2 & U3).
    apply label_static_inv in E0 as (Ek & _). cbn in Ek, Hc, Hi, Hm.
    rewrite U1 in Hc. rewrite U2 in Hi. rewrite U3 in Hm.
    unfold marks_sound. rewrite Ek.
    split; [|split; [|split]].
    + intros Hy'. destruct (Hi Hy') as [?|?]; [done | by apply HI].
    + intros Hy'. destruct (Hc Hy') as [?|?]; [done | by apply HC].
    + intros Hy'. destruct (Hm Hy') as [?|?]; [done | by apply HM].
    + intros [Hy1 Hy2].
      destruct (Hc Hy1) as [?|?]; [done|].
      destruct (Hm Hy2) as [?|?]; [done|]. by eapply HCM.
Qed.

(** ** One step of a session *)

Lemma open_card_facts q card card' :
  card_ok q card → terminal q = false →
  Forall2 same_but_checked (labels card) (labels card') →
  map label_static (labels card') = map label_static (labels (renderQuestion q)) ∧
  Forall unmarked (labels card').
Proof.
  intros (Hst & _ & _ & _ & Hopen & _) Ht H2. split.
  - rewrite <- Hst. symmetry. apply list_eq_Forall2, Forall2_fmap.
    eapply Forall2_impl; [done|]. intros l l' (E & _). by rewrite E.
  - apply Forall_lookup. intros i y Hy.
    destruct (Forall2_lookup_r _ _ _ _ _ H2 Hy)
      as (x & Hx & (_ & _ & _ & E1 & E2 & E3)).
    pose proof (Hopen Ht) as Hun. rewrite Forall_lookup in Hun.
    destruct (Hun i x Hx) as (? & ? & ?).
    unfold unmarked. repeat split; congruence.
Qed.

(** The label and the choice at the same position of a card in step with
    its question. *)
Lemma card_ok_aligned q card j l choice :
  card_ok q card → labels card !! j = Some l → choices q !! j = Some choice →
  data_key l = c_key choice ∧ input_value l = c_key choice ∧
  input_type l = (if decide (type q = SINGLE) then radio else checkbox).
Proof.
  intros (Hst & _) Hl Hc.
  assert (H : map label_static (labels card) !! j = Some (label_static l))
    by (by rewrite list_lookup_fmap, Hl).
  rewrite Hst in H. cbn in H.
  rewrite list_lookup_fmap, list_lookup_fmap, Hc in H. cbn in H.
  apply (inj Some) in H. symmetry in H.
  apply label_static_inv in H as (? & ? & _ & ?). auto.
Qed.

Lemma checkedKeys_values card x :
  x ∈ checkedKeys card → x ∈ map input_value (labels card).
Proof.
  unfold checkedKeys. intros H.
  apply list_elem_of_fmap in H as (l & -> & Hl).
  apply list_elem_of_filter in Hl as [_ Hl].
  by apply list_elem_of_fmap_2.
Qed.

Lemma static_values ls ls' :
  map label_static ls = map label_static ls' →
  map input_value ls = map input_value ls'.
Proof.
  intros H.
  assert (E : ∀ l : list ChoiceLabel,
            map input_value l = map (fun t : string * InputType * string * string => t.2)
                                    (map label_static l)).
  { intros l. rewrite map_map. by apply map_ext. }
  by rewrite !E, H.
Qed.

Lemma render_values q :
  map input_value (labels (renderQuestion q)) = map c_key (choices q).
Proof. cbn. rewrite map_map. by apply map_ext. Qed.

Lemma render_keys q :
  map data_key (labels (renderQuestion q)) = map c_key (choices q).
Proof. cbn. rewrite map_map. by apply map_ext. Qed.

Lemma static_keys ls ls' :
  map label_static ls = map label_static ls' →
  map data_key ls = map data_key ls'.
Proof.
  intros H.
  assert (E : ∀ l : list ChoiceLabel,
            map data_key l = map (fun t : string * InputType * string * string => t.1.1.1)
                                 (map label_static l)).
  { intros l. rewrite map_map. by apply map_ext. }
  by rewrite !E, H.
Qed.

(** The listener keeps question and card in step. *)
Lemma handler_step_ok q card card' choice j g :
  verdict_ok q → selected_among_choices q → card_ok q card →
  activate j card = Some card' → choices q !! j = Some choice →
  verdict_ok (res_q (handleInteraction q (c_key choice) card' g)) ∧
  selected_among_choices (res_q (handleInteraction q (c_key choice) card' g)) ∧
  card_ok (res_q (handleInteraction q (c_key choice) card' g))
          (res_card (handleInteraction q (c_key choice) card' g)).
Proof.
  intros Hv Hsel Hok Hact Hchoice.
  destruct (activate_labels j card card' Hact) as (H2 & Hh & Hi & l & Hl & Hen).
  assert (Hopen : terminal q = false).
  { destruct Hok as (_ & Hdis & _). rewrite Forall_lookup in Hdis.
    destruct (Hdis j l Hl) as [E _]. congruence. }
  destruct (open_card_facts q card card' Hok Hopen H2) as (Hst' & Hun').
  destruct (card_ok_aligned q card j l choice Hok Hl Hchoice) as (Ekey & Eval & Etype).
  set (k := c_key choice) in *.
  assert (Hkin : k ∈ map c_key (choices q)).
  { apply list_elem_of_fmap. exists choice. split; [done|].
    by eapply list_elem_of_lookup_2. }
  assert (Hvals : ∀ x, x ∈ checkedKeys card' → x ∈ map c_key (choices q)).
  { intros x Hx. apply checkedKeys_values in Hx.
    by rewrite (static_values _ _ Hst'), render_values in Hx. }
  assert (Hkeys' : map data_key (labels card') = map c_key (choices q))
    by (by rewrite (static_keys _ _ Hst'), render_keys).
  destruct (handleInteraction_cases q k card' g)
    as [(Ht & _) | [(_ & Hty & Hk & ->) | [(_ & Hty & Hk & ->) |
       [(_ & Hty & Hk & ->) | [(_ & Hty & Hk & Heq & ->) |
        (_ & Hty & Hk & Hneq & ->)]]]]]; [congruence|..].
  - (* SINGLE, correct key *)
    split; [|split].
    + unfold verdict_ok. cbn. exists [k].
      split; [done|]. split; [|split].
      * intros x Hx. apply list_elem_of_singleton in Hx. by subst.
      * eauto.
      * intros E. congruence.
    + intros x l0 [= <-] Hx. apply list_elem_of_singleton in Hx. by subst.
    + set (q' := set_userSelectedKeys (set_status q correct) [k]).
      change (card_ok q' (revealExplanation
                (showStatusIcon (markChoice (lockInputs card') k mark_correct)
                                (status q')))).
      apply (close_card q q' card'
               (markChoice (lockInputs card') k mark_correct)
               (fun x => x = k) (fun _ => False) (fun _ => False));
        try done.
      * cbn. by apply mark_first_rel.
      * intros x ->. done.
  - (* SINGLE, wrong key *)
    split; [|split].
    + unfold verdict_ok. cbn. exists [k], k.
      split; [done|]. split; [by apply list_elem_of_singleton|].
      split; [done|]. split; [|done].
      intros x Hx. apply list_elem_of_singleton in Hx. by left.
    + intros x l0 [= <-] Hx. apply list_elem_of_singleton in Hx. by subst.
    + assert (Hrel : Forall2 (mark_rel (fun x => x ∈ correctKeys q) (fun x => x = k)
                                 (fun _ => False))
                (map lock_label (labels card'))
                (labels (markAll mark_correct (correctKeys q)
                           (markChoice (lockInputs card') k mark_incorrect)))).
      { eapply Forall2_mark_rel_trans; [|by apply markAll_rel].
        cbn. by apply mark_first_rel. }
      set (q' := set_userSelectedKeys (set_status q incorrect) [k]).
      change (card_ok q' (revealExplanation
                (showStatusIcon
                   (markAll mark_correct (correctKeys q)
                      (markChoice (lockInputs card') k mark_incorrect))
                   (status q')))).
      apply (close_card q q' card' _ _ _ _ Hst' Hun' Hrel); try done.
      * intros x ->. done.
      * intros _ c Hc Hin.
        destruct (markAll_complete mark_correct (correctKeys q)
                    (markChoice (lockInputs card') k mark_incorrect) c Hc)
          as (y & Hy & Hyk & Hym).
        { rewrite (mark_rel_keys _ _ _ _ _ Hrel) in Hin.
          cbn. rewrite (mark_rel_keys (fun _ => True) (fun _ => True)
                          (fun _ => True) (map lock_label (labels card')));
            [done|].
          by apply mark_first_rel. }
        exists y. split; [done|]. split; [done|]. by left.
  - (* MULTIPLE, wrong key *)
    assert (Hbox : input_type l = checkbox).
    { rewrite Etype. rewrite decide_False; [done | congruence]. }
    destruct (activate_checkbox_keys j card card' l Hact Hl Hbox) as (Hsub & Hnew).
    rewrite Eval in Hsub, Hnew.
    destruct Hok as (_ & _ & _ & _ & _ & Hchk & _).
    specialize (Hchk Hopen Hty).
    split; [|split].
    + unfold verdict_ok. cbn. exists (checkedKeys card'), k.
      split; [done|]. split; [|split; [done|split]].
      * destruct Hnew as [?|Hold]; [done|]. by destruct (Hk (Hchk _ Hold)).
      * intros x Hx. destruct (Hsub x Hx) as [?|?]; auto.
      * intros E. congruence.
    + intros x l0 [= <-] Hx. by apply Hvals.
    + assert (Hrel : Forall2 (mark_rel
                                (fun x => x ∈ correctKeys q ∧ x ∈ checkedKeys card')
                                (fun x => x = k)
                                (fun x => x ∈ correctKeys q ∧ x ∉ checkedKeys card'))
                (map lock_label (labels card'))
                (labels (revealCorrect (checkedKeys card') (correctKeys q)
                           (markChoice (lockInputs card') k mark_incorrect)))).
      { eapply Forall2_mark_rel_trans; [|by apply revealCorrect_rel].
        cbn. by apply mark_first_rel. }
      set (q' := set_userSelectedKeys (set_status q incorrect) (checkedKeys card')).
      change (card_ok q' (revealExplanation
                (showStatusIcon
                   (revealCorrect (checkedKeys card') (correctKeys q)
                      (markChoice (lockInputs card') k mark_incorrect))
                   (status q')))).
      apply (close_card q q' card' _ _ _ _ Hst' Hun' Hrel); try done.
      * intros x ->. done.
      * by intros x [? _].
      * by intros x [? _].
      * intros x [_ ?] [_ ?]. done.
      * intros _ c Hc Hin.
        apply (revealCorrect_complete (checkedKeys card') (correctKeys q)
                 (markChoice (lockInputs card') k mark_incorrect) c Hc).
        rewrite (mark_rel_keys _ _ _ _ _ Hrel) in Hin.
        cbn. rewrite (mark_rel_keys (fun _ => True) (fun _ => True)
                        (fun _ => True) (map lock_label (labels card')));
          [done|].
        by apply mark_first_rel.
  - (* MULTIPLE, the selection is complete *)
    split; [|split].
    + unfold verdict_ok. cbn. exists (checkedKeys card').
      split; [done|]. split; [|split].
      * intros x Hx. by apply Heq.
      * intros E. congruence.
      * intros _ x Hx. by apply Heq.
    + intros x l0 [= <-] Hx. by apply Hvals.
    + set (q' := set_userSelectedKeys (set_status q correct) (checkedKeys card')).
      change (card_ok q' (revealExplanation
                (showStatusIcon
                   (markAll mark_correct (checkedKeys card') (lockInputs card'))
                   (status q')))).
      apply (close_card q q' card'
               (markAll mark_correct (checkedKeys card') (lockInputs card'))
               (fun x => x ∈ checkedKeys card') (fun _ => False) (fun _ => False));
        try done.
      * by apply (markAll_rel _ _ _ mark_correct (checkedKeys card')
                    (lockInputs card')).
      * intros x Hx. by apply Heq.
  - (* MULTIPLE, the selection is still partial *)
    assert (Hbox : input_type l = checkbox).
    { rewrite Etype. rewrite decide_False; [done | congruence]. }
    destruct (activate_checkbox_keys j card card' l Hact Hl Hbox) as (Hsub & _).
    rewrite Eval in Hsub.
    split; [done|]. split; [done|].
    apply (card_ok_checks q card card' Hok H2 Hh Hi).
    intros _ _ x Hx. destruct (Hsub x Hx) as [->|Hold]; [done|].
    destruct Hok as (_ & _ & _ & _ & _ & Hchk & _). by apply Hchk.
Qed.

(** ** The invariant over a whole session *)

Lemma count_status_cons st q qs :
  count_status st (q :: qs) =
  (if decide (status q = st) then 1 else 0) + count_status st qs.
Proof.
  unfold count_status. case_decide.
  - by rewrite filter_cons_True.
  - by rewrite filter_cons_False.
Qed.

Lemma count_status_insert st qs i q q' :
  qs !! i = Some q →
  count_status st (<[i := q']> qs) + (if decide (status q = st) then 1 else 0)
  = count_status st qs + (if decide (status q' = st) then 1 else 0).
Proof.
  revert i. induction qs as [|q0 qs IH]; intros [|i] Hq; try done.
  - injection Hq as ->.
    change (<[0 := q']> (q :: qs)) with (q' :: qs).
    rewrite !count_status_cons. lia.
  - change (<[S i := q']> (q0 :: qs)) with (q0 :: <[i := q']> qs).
    rewrite !count_status_cons. specialize (IH i Hq). lia.
Qed.

Lemma count_status_none st qs :
  Forall (fun q => status q ≠ st) qs → count_status st qs = 0.
Proof.
  induction 1 as [|q qs Hq _ IH]; [done|].
  rewrite count_status_cons, IH. by rewrite decide_False.
Qed.

(** What a call of the handler does to the counters and the scoreboard. *)
Lemma handler_counts q k card g :
  total (stats (res_page (handleInteraction q k card g))) = total (stats g) ∧
  stat_correct (stats (res_page (handleInteraction q k card g)))
    + (if decide (status q = correct) then 1 else 0)
  = stat_correct (stats g)
    + (if decide (status (res_q (handleInteraction q k card g)) = correct)
       then 1 else 0) ∧
  stat_incorrect (stats (res_page (handleInteraction q k card g)))
    + (if decide (status q = incorrect) then 1 else 0)
  = stat_incorrect (stats g)
    + (if decide (status (res_q (handleInteraction q k card g)) = incorrect)
       then 1 else 0) ∧
  (scoreboard g = updateScoreboard (stats g) →
   scoreboard (res_page (handleInteraction q k card g))
   = updateScoreboard (stats (res_page (handleInteraction q k card g)))).
Proof.
  destruct (handleInteraction_cases q k card g)
    as [(_ & ->) | [(Ht & _ & _ & ->) | [(Ht & _ & _ & ->) |
       [(Ht & _ & _ & ->) | [(Ht & _ & _ & _ & ->) | (_ & _ & _ & _ & ->)]]]]];
    cbn [res_q res_page fst snd stats total stat_correct stat_incorrect
         scoreboard incr_correct incr_incorrect status set_status
         set_userSelectedKeys];
    try apply terminal_false in Ht as [Hc Hi];
    (split; [done|]);
    (split; [repeat case_decide; try congruence; lia|]);
    (split; [repeat case_decide; try congruence; lia|]); done.
Qed.

Lemma uncheck_group_card_ok name q card :
  card_ok q card → card_ok q (uncheck_group_card name card).
Proof.
  intros Hok. apply (card_ok_checks q card); try done.
  - cbn. apply Forall2_map_r_same. apply uncheck_group_same.
  - intros Ho Hty x Hx.
    destruct Hok as (_ & _ & _ & _ & _ & Hchk & _). apply (Hchk Ho Hty).
    unfold checkedKeys in *. cbn in Hx.
    apply list_elem_of_fmap in Hx as (l' & -> & Hl').
    apply list_elem_of_filter in Hl' as [Hc Hl'].
    apply list_elem_of_fmap in Hl' as (l & -> & Hl).
    rewrite uncheck_group_value. apply list_elem_of_fmap_2.
    apply list_elem_of_filter. split; [|done].
    by eapply uncheck_group_checked.
Qed.

Lemma change_event_ok i j s : session_ok s → session_ok (change_event i j s).
Proof.
  intros Hs. pose proof Hs as (Hlen & Hq & Htot & Hcor & Hinc & Hboard).
  unfold change_event.
  destruct (questions s !! i) as [q|] eqn:Eq; [|done].
  destruct (cards s !! i) as [card|] eqn:Ec; [|done].
  destruct (activate j card) as [card'|] eqn:Ea; [|done].
  destruct (choices q !! j) as [choice|] eqn:Ech; [|done].
  destruct (Hq i q Eq) as (Hv & Hsel & card0 & Ec0 & Hok).
  assert (card0 = card) as -> by congruence.
  pose proof (handler_step_ok q card card' choice j (page s) Hv Hsel Hok Ea Ech)
    as (Hv' & Hsel' & Hok').
  pose proof (handler_counts q (c_key choice) card' (page s))
    as (Ht' & Hc' & Hi' & Hb').
  destruct (handleInteraction q (c_key choice) card' (page s))
    as [[q' card''] g'] eqn:Eh.
  cbn [res_q res_card res_page fst snd] in *.
  set (others := match radio_group j card with
                 | Some name => map (uncheck_group_card name) (cards s)
                 | None => cards s
                 end).
  assert (Hlo : length others = length (cards s)).
  { unfold others. destruct (radio_group j card); [apply length_map | done]. }
  assert (Hother : ∀ i0 q0, questions s !! i0 = Some q0 →
            ∃ c, others !! i0 = Some c ∧ card_ok q0 c).
  { intros i0 q0 Hq0. destruct (Hq i0 q0 Hq0) as (_ & _ & c & Hc0 & Hok0).
    unfold others. destruct (radio_group j card) as [name|].
    - exists (uncheck_group_card name c). split.
      + by rewrite list_lookup_fmap, Hc0.
      + by apply uncheck_group_card_ok.
    - by exists c. }
  unfold session_ok. cbn [questions cards page].
  split; [by rewrite !length_insert, Hlo|].
  split; [|split; [|split; [|split]]].
  - intros i0 q0 Hq0.
    apply list_lookup_insert_Some in Hq0 as [(-> & <- & Hlt) | (Hne & Hq0)].
    + split; [done|]. split; [done|]. exists card''. split; [|done].
      apply list_lookup_insert_eq. rewrite Hlo, Hlen. done.
    + destruct (Hq i0 q0 Hq0) as (Hv0 & Hsel0 & _).
      destruct (Hother i0 q0 Hq0) as (c & Hc0 & Hok0).
      split; [done|]. split; [done|]. exists c. split; [|done].
      by rewrite list_lookup_insert_ne.
  - by rewrite length_insert, Ht'.
  - pose proof (count_status_insert correct (questions s) i q q' Eq). lia.
  - pose proof (count_status_insert incorrect (questions s) i q q' Eq). lia.
  - by apply Hb'.
Qed.

Lemma run_ok events s : session_ok s → session_ok (run events s).
Proof.
  revert s. induction events as [|[i j] events IH]; intros s Hs; [done|].
  rewrite run_cons. by apply IH, change_event_ok.
Qed.

Lemma matchQuestion_open answersMap p :
  status (matchQuestion answersMap p) ≠ correct ∧
  status (matchQuestion answersMap p) ≠ incorrect ∧
  userSelectedKeys (matchQuestion answersMap p) = None.
Proof. unfold matchQuestion. by destruct (answersMap !! p_id p). Qed.

Lemma renderQuestion_ok q :
  terminal q = false → card_ok q (renderQuestion q).
Proof.
  intros Ht. unfold card_ok. rewrite Ht. cbn.
  split; [done|]. split; [|split; [done|split; [done|split; [|split; [|split]]]]].
  - apply Forall_forall. intros l Hl.
    apply list_elem_of_fmap in Hl as (c & -> & _). done.
  - intros _. apply Forall_forall. intros l Hl.
    apply list_elem_of_fmap in Hl as (c & -> & _). done.
  - intros _ _ x Hx. exfalso. unfold checkedKeys in Hx. cbn in Hx.
    apply list_elem_of_fmap in Hx as (l & _ & Hl).
    apply list_elem_of_filter in Hl as [Hc Hl].
    apply list_elem_of_fmap in Hl as (c & -> & _). done.
  - apply Forall_forall. intros l Hl.
    apply list_elem_of_fmap in Hl as (c & -> & _).
    unfold marks_sound. cbn. repeat split; try done. by intros [? _].
  - intros Hi. apply terminal_false in Ht as [_ ?]. done.
Qed.

Lemma startSession_ok parsed answersMap :
  session_ok (startSession parsed answersMap).
Proof.
  unfold startSession, processAndRender, session_ok. cbn.
  split; [by rewrite length_map|].
  split; [|split; [done|split; [|split; [|done]]]].
  - intros i q Hq.
    rewrite list_lookup_fmap in Hq.
    destruct (parsed !! i) as [p|] eqn:Ep; [|done]. injection Hq as <-.
    destruct (matchQuestion_open answersMap p) as (Hc & Hi & Hu).
    split; [|split].
    + unfold verdict_ok.
      destruct (status (matchQuestion answersMap p)); done.
    + intros x l Hl. congruence.
    + exists (renderQuestion (matchQuestion answersMap p)). split.
      * by rewrite !list_lookup_fmap, Ep.
      * apply renderQuestion_ok. by apply terminal_false.
  - symmetry. apply count_status_none, Forall_forall. intros q Hq.
    apply list_elem_of_fmap in Hq as (p & -> & _).
    by destruct (matchQuestion_open answersMap p) as (? & _).
  - symmetry. apply count_status_none, Forall_forall. intros q Hq.
    apply list_elem_of_fmap in Hq as (p & -> & _).
    by destruct (matchQuestion_open answersMap p) as (_ & ? & _).
Qed.

(** ** Properties of every session *)

Lemma run_length events s :
  length (questions (run events s)) = length (questions s).
Proof.
  revert s. induction events as [|[i j] events IH]; intros s; [done|].
  rewrite run_cons, IH.
  destruct (change_event_spec i j s) as [[-> _] | (q & k & card & _ & -> & _)];
    [done | apply length_insert].
Qed.

Lemma count_status_two qs :
  count_status correct qs + count_status incorrect qs ≤ length qs.
Proof.
  induction qs as [|q qs IH]; [done|].
  rewrite !count_status_cons. cbn [length].
  repeat case_decide; try congruence; lia.
Qed.

(** X1: in a session started by [processAndRender], after any sequence of
    change events, the total is the number of parsed questions, the
    correct and incorrect counters are the numbers of questions whose
    status is correct and incorrect, the answered questions never
    outnumber the total, and the scoreboard shows the counters. *)
Theorem counters_match_statuses (parsed : list ParsedQuestion)
    (answersMap : gmap string Answer) (events : list (nat * nat)) :
  let s := run events (startSession parsed answersMap) in
  length (questions s) = length parsed ∧
  total (stats (page s)) = length parsed ∧
  stat_correct (stats (page s)) = count_status correct (questions s) ∧
  stat_incorrect (stats (page s)) = count_status incorrect (questions s) ∧
  stat_correct (stats (page s)) + stat_incorrect (stats (page s))
    ≤ total (stats (page s)) ∧
  scoreboard (page s) = updateScoreboard (stats (page s)).
Proof.
  intros s.
  assert (Hok : session_ok s) by apply run_ok, startSession_ok.
  destruct Hok as (_ & _ & Htot & Hc & Hi & Hb).
  assert (Hlen : length (questions s) = length parsed).
  { unfold s. rewrite run_length. unfold startSession, processAndRender. cbn.
    apply length_map. }
  split; [done|]. split; [congruence|]. split; [done|]. split; [done|].
  split; [|done].
  rewrite Hc, Hi, Htot. apply count_status_two.
Qed.

Lemma handleInteraction_same_content q k card g :
  same_content q (res_q (handleInteraction q k card g)).
Proof.
  destruct (handleInteraction_cases q k card g)
    as [(_ & ->) | [(_ & _ & _ & ->) | [(_ & _ & _ & ->) |
       [(_ & _ & _ & ->) | [(_ & _ & _ & _ & ->) | (_ & _ & _ & _ & ->)]]]]];
    by repeat split.
Qed.

Lemma same_content_trans q1 q2 q3 :
  same_content q1 q2 → same_content q2 q3 → same_content q1 q3.
Proof.
  unfold same_content. intros (? & ? & ? & ? & ? & ? & ? & ?)
                              (? & ? & ? & ? & ? & ? & ? & ?).
  repeat split; congruence.
Qed.

Lemma change_event_same_content i j s i0 q :
  questions s !! i0 = Some q →
  ∃ q', questions (change_event i j s) !! i0 = Some q' ∧ same_content q q'.
Proof.
  intros Hq.
  destruct (change_event_spec i j s) as [[-> _] | (q0 & k & card & Hq0 & -> & _)].
  - exists q. by repeat split.
  - destruct (decide (i = i0)) as [->|Hne].
    + assert (q0 = q) as -> by congruence.
      eexists. split; [|apply handleInteraction_same_content].
      apply list_lookup_insert_eq. by eapply lookup_lt_Some.
    + exists q. split; [by rewrite list_lookup_insert_ne | by repeat split].
Qed.

(** X2: whatever the events, a question keeps its id, text, explicit type,
    choices, source line, correct keys, explanation and resolved type: the
    listener writes [status] and [userSelectedKeys] and nothing else, and
    the list of questions keeps its length. *)
Theorem questions_keep_their_content (s : Session) (events : list (nat * nat))
    (i : nat) (q : Question) :
  questions s !! i = Some q →
  length (questions (run events s)) = length (questions s) ∧
  ∃ q', questions (run events s) !! i = Some q' ∧
        q_id q' = q_id q ∧ q_text q' = q_text q ∧
        explicitType q' = explicitType q ∧ choices q' = choices q ∧
        rawLine q' = rawLine q ∧ correctKeys q' = correctKeys q ∧
        explanation q' = explanation q ∧ type q' = type q.
Proof.
  intros Hq. split; [apply run_length|].
  revert s q Hq. induction events as [|[i0 j0] events IH]; intros s q Hq.
  - exists q. by repeat split.
  - rewrite run_cons.
    destruct (change_event_same_content i0 j0 s i q Hq) as (q1 & Hq1 & H1).
    destruct (IH _ q1 Hq1) as (q2 & Hq2 & H2).
    exists q2. split; [done|].
    by apply (same_content_trans q q1 q2).
Qed.

Lemma questions_keep_their_content_witness :
  ∃ q', questions (run [(1, 1); (1, 0); (0, 2)] Sample.session) !! 1 = Some q' ∧
        correctKeys q' = ["B"; "C"; "D"] ∧ type q' = MULTIPLE.
Proof.
  destruct (questions_keep_their_content Sample.session
              [(1, 1); (1, 0); (0, 2)] 1 Sample.q2 eq_refl)
    as (_ & q' & Hq' & _ & _ & _ & _ & _ & Hk & _ & Ht).
  exists q'. split; [done|]. split; [exact Hk | exact Ht].
Defined.

(** A card that holds the choices and nothing else is the one the
    invariant starts from. *)
Lemma choices_only_card q card : choices_only q card → card = renderQuestion q.
Proof.
  destruct card as [ls hid icon]. intros (Hl & Hh & Hi). cbn in *. subst.
  unfold renderQuestion. f_equal.
  induction Hl as [|choice l chs ls Hcl _ IH]; [done|].
  cbn. rewrite IH. f_equal.
  destruct l; destruct Hcl as (? & ? & ? & ? & ? & ? & ? & ? & ? & ?).
  cbn in *. by subst.
Qed.

Lemma renderQuestion_choices_only q : choices_only q (renderQuestion q).
Proof.
  split; [|done]. cbn.
  induction (choices q) as [|c cs IH]; constructor; [|done].
  cbn. by repeat split.
Qed.

Lemma fresh_session_ok s : fresh_session s → session_ok s.
Proof.
  intros (Hcards & Hopen & Hstats & Hboard).
  assert (Hnone : ∀ st, st = correct ∨ st = incorrect →
                        count_status st (questions s) = 0).
  { intros st Hst. apply count_status_none, Forall_forall. intros q Hq.
    rewrite Forall_forall in Hopen. destruct (Hopen q Hq) as [[E|E] _];
      rewrite E; by destruct Hst as [-> | ->]. }
  split; [symmetry; by eapply Forall2_length|].
  split; [|split; [by rewrite Hstats|split; [|split; [|done]]]].
  - intros i q Hq.
    rewrite Forall_forall in Hopen.
    destruct (Hopen q) as [Hst Hsel]; [by eapply list_elem_of_lookup_2|].
    split; [|split].
    + unfold verdict_ok. by destruct Hst as [-> | ->].
    + intros x l Hl. congruence.
    + destruct (Forall2_lookup_l _ _ _ _ _ Hcards Hq) as (card & Hc & Hcq).
      exists card. split; [done|].
      rewrite (choices_only_card _ _ Hcq). apply renderQuestion_ok.
      apply terminal_false. by destruct Hst as [-> | ->].
  - rewrite Hstats. cbn. symmetry. apply Hnone. by left.
  - rewrite Hstats. cbn. symmetry. apply Hnone. by right.
Qed.

(** The session of the model's [processAndRender] is a fresh one. *)
Lemma startSession_fresh parsed answersMap :
  fresh_session (startSession parsed answersMap).
Proof.
  unfold startSession, processAndRender, fresh_session. cbn.
  split; [|split; [|done]].
  - induction parsed as [|p ps IH]; constructor; [|done].
    apply renderQuestion_choices_only.
  - apply Forall_forall. intros q Hq.
    apply list_elem_of_fmap in Hq as (p & -> & _).
    unfold matchQuestion. by destruct (answersMap !! p_id p); split; auto.
Qed.

(** X3: in a session that starts fresh (open questions without recorded
    keys, cards that hold the choices and nothing else) the verdicts are
    sound after any sequence of change events.  A question marked correct
    has recorded only correct keys, a single one when it is SINGLE and
    all of them when it is MULTIPLE; a question marked incorrect has
    recorded a key that is not correct, and beside it only correct keys;
    an open question has recorded nothing; and every recorded key is the
    key of one of the question's choices. *)
Theorem verdicts_are_sound (s0 : Session) (events : list (nat * nat))
    (i : nat) (q : Question) :
  fresh_session s0 →
  questions (run events s0) !! i = Some q →
  (status q = correct →
     ∃ l, userSelectedKeys q = Some l ∧
          (∀ x, x ∈ l → x ∈ correctKeys q) ∧
          (type q = SINGLE → ∃ k, l = [k]) ∧
          (type q = MULTIPLE → ∀ x, x ∈ correctKeys q → x ∈ l)) ∧
  (status q = incorrect →
     ∃ l k, userSelectedKeys q = Some l ∧ k ∈ l ∧ (k ∉ correctKeys q) ∧
            (∀ x, x ∈ l → x = k ∨ x ∈ correctKeys q) ∧
            (type q = SINGLE → l = [k])) ∧
  (status q = unanswered ∨ status q = ungraded → userSelectedKeys q = None) ∧
  (∀ l x, userSelectedKeys q = Some l → x ∈ l → x ∈ map c_key (choices q)).
Proof.
  intros Hfresh Hq.
  assert (Hok : session_ok (run events s0)) by by apply run_ok, fresh_session_ok.
  destruct Hok as (_ & Hall & _).
  destruct (Hall i q Hq) as (Hv & Hsel & _).
  unfold verdict_ok in Hv.
  split; [|split; [|split]].
  - intros E. by rewrite E in Hv.
  - intros E. by rewrite E in Hv.
  - intros [E|E]; by rewrite E in Hv.
  - intros l x Hl Hx. by apply (Hsel x l).
Qed.

Lemma verdicts_are_sound_witness :
  fresh_session Sample.session ∧
  questions (run [(1, 1); (1, 2); (1, 0)] Sample.session) !! 1
    = Some (set_userSelectedKeys (set_status Sample.q2 incorrect) ["A"; "B"; "C"]) ∧
  ∃ l k, userSelectedKeys
           (set_userSelectedKeys (set_status Sample.q2 incorrect) ["A"; "B"; "C"])
         = Some l ∧ k ∈ l ∧ (k ∉ ["B"; "C"; "D"]) ∧
         ∀ x, x ∈ l → x = k ∨ x ∈ ["B"; "C"; "D"].
Proof.
  assert (Hfresh : fresh_session Sample.session) by apply startSession_fresh.
  assert (Hq : questions (run [(1, 1); (1, 2); (1, 0)] Sample.session) !! 1
    = Some (set_userSelectedKeys (set_status Sample.q2 incorrect) ["A"; "B"; "C"]))
    by (vm_compute; reflexivity).
  split; [done|]. split; [done|].
  destruct (verdicts_are_sound Sample.session [(1, 1); (1, 2); (1, 0)] 1 _ Hfresh Hq)
    as (_ & Hinc & _).
  destruct (Hinc eq_refl) as (l & k & Hl & Hin & Hout & Hrest & _).
  exists l, k. split; [exact Hl|]. split; [exact Hin|]. split; [exact Hout | exact Hrest].
Defined.

(** X4: in a session that starts fresh (cards that hold the choices and
    nothing else, explanations hidden, no status icon), after any
    sequence of change events the inputs and labels of a card are
    disabled exactly when its question is closed (correct or incorrect),
    its explanation is shown and its status icon set exactly then, and a
    click on any choice of a closed question leaves the whole session as
    it is. *)
Theorem closed_cards_are_locked (s0 : Session) (events : list (nat * nat))
    (i : nat) (q : Question) (card : Card) :
  fresh_session s0 →
  questions (run events s0) !! i = Some q →
  cards (run events s0) !! i = Some card →
  (∀ l, l ∈ labels card →
     input_disabled l = terminal q ∧ cls_disabled l = terminal q) ∧
  explanation_hidden card = negb (terminal q) ∧
  status_icon card = (if terminal q then Some (status q) else None) ∧
  (status q = correct ∨ status q = incorrect →
     ∀ j, change_event i j (run events s0) = run events s0).
Proof.
  intros Hfresh Hq Hc.
  assert (Hok : session_ok (run events s0)) by by apply run_ok, fresh_session_ok.
  destruct Hok as (_ & Hall & _).
  destruct (Hall i q Hq) as (_ & _ & card0 & Hc0 & Hcard).
  assert (card0 = card) as -> by congruence.
  destruct Hcard as (_ & Hdis & Hhid & Hicon & _).
  split; [by apply Forall_forall|]. split; [done|]. split; [done|].
  intros Hterm j. apply terminal_true in Hterm.
  unfold change_event. rewrite Hq, Hc.
  assert (Hact : activate j card = None).
  { apply activate_disabled. eapply Forall_impl; [done|].
    intros l [E _]. by rewrite E. }
  by rewrite Hact.
Qed.

Lemma closed_cards_are_locked_witness :
  fresh_session Sample.session ∧
  status_icon (Sample.closed2) = Some incorrect ∧
  change_event 1 3 (run [(1, 1); (1, 0)] Sample.session)
  = run [(1, 1); (1, 0)] Sample.session.
Proof.
  assert (Hfresh : fresh_session Sample.session) by apply startSession_fresh.
  split; [done|].
  destruct (closed_cards_are_locked Sample.session [(1, 1); (1, 0)] 1
              (set_userSelectedKeys (set_status Sample.q2 incorrect) ["A"; "B"])
              Sample.closed2 Hfresh)
    as (_ & _ & Hicon & Hlocked).
  - vm_compute. reflexivity.
  - vm_compute. reflexivity.
  - split; [exact Hicon|]. apply Hlocked. by right.
Defined.

(** X5: in a session that starts fresh (cards that hold the choices and
    nothing else) the marks on a card follow the answer key after any
    sequence of change events.  The labels carry the keys of the
    question's choices, in order; the red mark sits only on a key that is
    not correct, the green and the amber mark only on correct keys and
    never together; a card carries no mark while its question is open;
    and once a question is incorrect, every correct key that is among its
    choices is revealed, in green or in amber. *)
Theorem marks_follow_the_answer_key (s0 : Session) (events : list (nat * nat))
    (i : nat) (q : Question) (card : Card) :
  fresh_session s0 →
  questions (run events s0) !! i = Some q →
  cards (run events s0) !! i = Some card →
  map data_key (labels card) = map c_key (choices q) ∧
  (∀ l, l ∈ labels card →
     (cls_incorrect_choice l = true → data_key l ∉ correctKeys q) ∧
     (cls_correct_choice l = true → data_key l ∈ correctKeys q) ∧
     (cls_missed_correct l = true → data_key l ∈ correctKeys q) ∧
     ¬ (cls_correct_choice l = true ∧ cls_missed_correct l = true)) ∧
  (status q ≠ correct → status q ≠ incorrect →
     ∀ l, l ∈ labels card →
       cls_correct_choice l = false ∧ cls_incorrect_choice l = false ∧
       cls_missed_correct l = false) ∧
  (status q = incorrect →
     ∀ c, c ∈ correctKeys q → c ∈ map c_key (choices q) →
       ∃ l, l ∈ labels card ∧ data_key l = c ∧
            (cls_correct_choice l = true ∨ cls_missed_correct l = true)).
Proof.
  intros Hfresh Hq Hc.
  assert (Hok : session_ok (run events s0)) by by apply run_ok, fresh_session_ok.
  destruct Hok as (_ & Hall & _).
  destruct (Hall i q Hq) as (_ & _ & card0 & Hc0 & Hcard).
  assert (card0 = card) as -> by congruence.
  destruct Hcard as (Hst & _ & _ & _ & Hopen & _ & Hsound & Hrev).
  assert (Hkeys : map data_key (labels card) = map c_key (choices q))
    by (by rewrite (static_keys _ _ Hst), render_keys).
  split; [done|]. split; [|split].
  - intros l Hl. rewrite Forall_forall in Hsound. by apply Hsound.
  - intros H1 H2 l Hl.
    assert (Ht : terminal q = false) by (by apply terminal_false).
    specialize (Hopen Ht). rewrite Forall_forall in Hopen. by apply Hopen.
  - intros Hinc c Hin Hch. apply (Hrev Hinc c Hin). by rewrite Hkeys.
Qed.

Lemma marks_follow_the_answer_key_witness :
  fresh_session Sample.session ∧
  map data_key (labels Sample.closed2) = ["A"; "B"; "C"; "D"] ∧
  ∃ l, l ∈ labels Sample.closed2 ∧ data_key l = "D" ∧
       (cls_correct_choice l = true ∨ cls_missed_correct l = true).
Proof.
  assert (Hfresh : fresh_session Sample.session) by apply startSession_fresh.
  split; [done|].
  destruct (marks_follow_the_answer_key Sample.session [(1, 1); (1, 0)] 1
              (set_userSelectedKeys (set_status Sample.q2 incorrect) ["A"; "B"])
              Sample.closed2 Hfresh)
    as (Hkeys & _ & _ & Hreveal).
  - vm_compute. reflexivity.
  - vm_compute. reflexivity.
  - split; [exact Hkeys|]. apply (Hreveal eq_refl "D"); compute_done.
Defined.

Lemma wrongQs_length qs : length (wrongQs qs) = count_status incorrect qs.
Proof. reflexivity. Qed.

(** X6: in a session started by [processAndRender], after any sequence of
    change events, the results modal and the export agree with the
    counters: the export lists as many questions as the incorrect counter
    says, in the order of the questions, each with the keys the user
    selected (never absent) among which one is not a correct key; the
    modal shows the note that nothing is to be reviewed exactly when the
    incorrect counter is 0, lists as many wrong answers as the counter
    says otherwise, and shows the percentage of the scoreboard. *)
Theorem results_agree_with_counters (parsed : list ParsedQuestion)
    (answersMap : gmap string Answer) (events : list (nat * nat)) :
  let s := run events (startSession parsed answersMap) in
  length (ex_incorrectQuestions (exportResults s))
    = stat_incorrect (ex_stats (exportResults s)) ∧
  map e_id (ex_incorrectQuestions (exportResults s))
    = map q_id (filter (fun q => status q = incorrect) (questions s)) ∧
  (∀ e, e ∈ ex_incorrectQuestions (exportResults s) →
     ∃ l k, e_userSelected e = Some l ∧ k ∈ l ∧ (k ∉ e_correct e)) ∧
  (wrongAnswersList (showResults s) = None ↔
     stat_incorrect (stats (page s)) = 0) ∧
  (∀ ws, wrongAnswersList (showResults s) = Some ws →
     length ws = summaryIncorrect (showResults s)) ∧
  summaryPercent (showResults s) = scorePercent (scoreboard (page s)).
Proof.
  intros s.
  assert (Hok : session_ok s) by apply run_ok, startSession_ok.
  destruct Hok as (_ & Hall & _ & _ & Hinc & Hboard).
  split; [|split; [|split; [|split; [|split]]]].
  - unfold exportResults. cbn. by rewrite length_map, wrongQs_length.
  - unfold exportResults, wrongQs. cbn. rewrite map_map. by apply map_ext.
  - intros e He. unfold exportResults in He. cbn in He.
    apply list_elem_of_fmap in He as (q & -> & Hq).
    apply list_elem_of_filter in Hq as [Hst Hq].
    apply list_elem_of_lookup in Hq as [i Hi].
    destruct (Hall i q Hi) as (Hv & _). unfold verdict_ok in Hv.
    rewrite Hst in Hv. destruct Hv as (l & k & Hl & Hin & Hout & _).
    exists l, k. by cbn.
  - unfold showResults. cbn. rewrite Hinc, <- wrongQs_length.
    destruct (wrongQs (questions s)); cbn; split; done.
  - intros ws. unfold showResults. cbn. rewrite Hinc, <- wrongQs_length.
    destruct (wrongQs (questions s)) as [|w ws0] eqn:E; [done|].
    intros [= <-]. cbn. by rewrite length_map.
  - unfold showResults. cbn. by rewrite Hboard.
Qed.

(** ** More on the question parser *)

Section QuestionLines.
Import JS Contract.

(** The ids and source lines of the questions the loop returns. *)
Lemma parseQuestionsLoop_lines lines i questions currentQ :
  map id_line (Parser.parseQuestionsLoop lines i questions currentQ) =
  map id_line questions ++ option_list (id_line <$> currentQ) ++
  startsFrom i lines.
Proof.
  revert i questions currentQ.
  induction lines as [|l rest IH]; intros i questions currentQ.
  - cbn. destruct currentQ as [q|]; cbn.
    + by rewrite map_app.
    + by rewrite app_nil_r.
  - cbn [Parser.parseQuestionsLoop startsFrom].
    destruct (questionStart (trim l)) eqn:Hstart.
    + rewrite (questionStart_nonempty _ Hstart).
      destruct (qStartRegex_start _ Hstart) as (tag & txt & ->).
      rewrite IH. cbn.
      destruct currentQ as [q|]; cbn.
      * rewrite map_app. cbn. by rewrite <- app_assoc.
      * done.
    + destruct (isEmpty (trim l)); [apply IH|].
      rewrite (qStartRegex_no_start _ Hstart).
      destruct currentQ as [q|]; [|apply IH].
      destruct (Parser.choiceRegex (trim l)) as [[k t]|]; [by rewrite IH|].
      destruct (last (p_choices q)); by rewrite IH.
Qed.

Lemma startsFrom_elem i lines d r :
  (d, r) ∈ startsFrom i lines →
  ∃ n l, lines !! n = Some l ∧ r = i + n + 1 ∧
         questionStart (trim l) = true ∧ d = questionStartId (trim l).
Proof.
  revert i. induction lines as [|l rest IH]; intros i H; cbn in H.
  - by apply elem_of_nil in H.
  - destruct (questionStart (trim l)) eqn:E.
    + apply elem_of_cons in H as [[= -> ->] | H].
      * exists 0, l. repeat split; [lia | done].
      * destruct (IH _ H) as (n & l' & Hn & -> & Hs & ->).
        exists (S n), l'. repeat split; [done | lia | done].
    + destruct (IH _ H) as (n & l' & Hn & -> & Hs & ->).
      exists (S n), l'. repeat split; [done | lia | done].
Qed.

Lemma startsFrom_increasing i lines a b x y :
  a < b → startsFrom i lines !! a = Some x → startsFrom i lines !! b = Some y →
  x.2 < y.2.
Proof.
  revert i a b. induction lines as [|l rest IH]; intros i a b Hab Ha Hb; cbn in *.
  - done.
  - destruct (questionStart (trim l)) eqn:E; [|by eapply IH].
    destruct a as [|a], b as [|b]; try lia; cbn in *.
    + injection Ha as <-. cbn.
      destruct y as [d r].
      destruct (startsFrom_elem (S i) rest d r) as (n & _ & _ & -> & _).
      { by eapply list_elem_of_lookup_2. }
      cbn. lia.
    + eapply (IH (S i) a b); [lia | done | done].
Qed.

Lemma takeWhile_allChars p s : allChars p (takeWhile p s) = true.
Proof. induction s as [|c r IH]; cbn; [done|]. destruct (p c) eqn:E; cbn; [by rewrite E|done]. Qed.

Lemma questionStartId_digits line :
  questionStart line = true →
  questionStartId line ≠ EmptyString ∧
  allChars isDigit (questionStartId line) = true.
Proof.
  unfold questionStart, questionStartId. intros H.
  split; [|apply takeWhile_allChars].
  destruct (afterQ line) as [|c r]; [done|]. cbn in *. by rewrite H.
Qed.

End QuestionLines.

(** X7: every question [parseQuestionsText] returns carries a non-empty
    string of digits as id, and its [rawLine] is the number, counted from
    1, of the line of the text that opened it: that line, trimmed, is a
    question start whose leading digits are the id.  The questions come in
    the order of their lines. *)
Theorem questions_point_to_their_lines (text : string) :
  (∀ q, q ∈ Parser.parseQuestionsText text →
     p_id q ≠ EmptyString ∧ allChars JS.isDigit (p_id q) = true ∧
     1 ≤ p_rawLine q ∧
     ∃ l, JS.splitLines text !! (p_rawLine q - 1) = Some l ∧
          Contract.questionStart (JS.trim l) = true ∧
          Contract.questionStartId (JS.trim l) = p_id q) ∧
  (∀ a b qa qb, a < b →
     Parser.parseQuestionsText text !! a = Some qa →
     Parser.parseQuestionsText text !! b = Some qb →
     p_rawLine qa < p_rawLine qb).
Proof.
  assert (Hlines : map id_line (Parser.parseQuestionsText text)
                   = startsFrom 0 (JS.splitLines text)).
  { unfold Parser.parseQuestionsText. by rewrite parseQuestionsLoop_lines. }
  split.
  - intros q Hq.
    assert (Hin : id_line q ∈ startsFrom 0 (JS.splitLines text)).
    { rewrite <- Hlines. by apply list_elem_of_fmap_2. }
    destruct (startsFrom_elem 0 _ _ _ Hin) as (n & l & Hn & Hr & Hs & Hd).
    destruct (questionStartId_digits _ Hs) as [Hne Hdig].
    rewrite <- Hd in Hne, Hdig.
    split; [done|]. split; [done|]. split; [lia|].
    exists l. replace (p_rawLine q - 1) with n by lia. by rewrite <- Hd.
  - intros a b qa qb Hab Ha Hb.
    apply (startsFrom_increasing 0 (JS.splitLines text) a b (id_line qa) (id_line qb));
      [done | |]; rewrite <- Hlines, list_lookup_fmap.
    + by rewrite Ha.
    + by rewrite Hb.
Qed.

Lemma questions_point_to_their_lines_witness :
  p_id (mkParsed "2" "Which ones?" (Some MULTIPLE)
          [mkChoice "A" "a"; mkChoice "B" "b"; mkChoice "C" "c"; mkChoice "D" "d"] 6)
    ≠ EmptyString ∧
  1 ≤ 6.
Proof.
  destruct (questions_point_to_their_lines Sample.questionsText) as (Hq & _).
  destruct (Hq (mkParsed "2" "Which ones?" (Some MULTIPLE)
                  [mkChoice "A" "a"; mkChoice "B" "b"; mkChoice "C" "c";
                   mkChoice "D" "d"] 6))
    as (Hne & _ & Hline & _).
  - vm_compute. apply elem_of_cons. right. apply elem_of_cons. by left.
  - split; [exact Hne | exact Hline].
Defined.

Section QuestionInvariant.
Import JS.

Variable P : ParsedQuestion → Prop.

Hypothesis P_start : ∀ line qid tag txt n,
  Parser.qStartRegex line = Some (qid, tag, txt) →
  P (mkParsed qid txt tag [] n).
Hypothesis P_choice : ∀ q line k t,
  P q → Parser.choiceRegex line = Some (k, t) →
  P (mkParsed (p_id q) (p_text q) (p_explicitType q)
       (p_choices q ++ [mkChoice (toUpperCase k) t]) (p_rawLine q)).
Hypothesis P_more_choice : ∀ q txt init c,
  P q → p_choices q = init ++ [c] →
  P (mkParsed (p_id q) (p_text q) (p_explicitType q)
       (init ++ [mkChoice (c_key c) txt]) (p_rawLine q)).
Hypothesis P_more_text : ∀ q txt,
  P q → p_choices q = [] →
  P (mkParsed (p_id q) txt (p_explicitType q) (p_choices q) (p_rawLine q)).

(** A property of questions that the four updates of the loop keep holds
    for every question the parser returns. *)
Lemma parseQuestionsLoop_invariant lines i questions currentQ :
  Forall P questions → (∀ q, currentQ = Some q → P q) →
  Forall P (Parser.parseQuestionsLoop lines i questions currentQ).
Proof.
  revert i questions currentQ.
  induction lines as [|l rest IH]; intros i questions currentQ Hqs Hcur.
  - cbn. destruct currentQ as [q|]; [|done].
    apply Forall_app. split; [done|]. constructor; [by apply Hcur | constructor].
  - cbn [Parser.parseQuestionsLoop].
    destruct (isEmpty (trim l)); [by apply IH|].
    destruct (Parser.qStartRegex (trim l)) as [[[qid tag] txt]|] eqn:Eq.
    + apply IH.
      * destruct currentQ as [q|]; [|done].
        apply Forall_app. split; [done|].
        constructor; [by apply Hcur | constructor].
      * intros q [= <-]. by eapply P_start.
    + destruct currentQ as [q|]; [|by apply IH].
      specialize (Hcur q eq_refl).
      destruct (Parser.choiceRegex (trim l)) as [[k t]|] eqn:Ec.
      * apply IH; [done|]. intros q' [= <-]. by eapply P_choice.
      * destruct (last (p_choices q)) as [c|] eqn:El.
        -- apply IH; [done|]. intros q' [= <-].
           apply last_Some in El as [init Hinit].
           rewrite Hinit, removelast_last. by apply P_more_choice.
        -- apply IH; [done|]. intros q' [= <-].
           apply P_more_text; [done|]. by apply last_None.
Qed.

End QuestionInvariant.

Lemma isUpper_upperChar c : JS.isUpper c = true → JS.upperChar c = c.
Proof. by destruct c as [[] [] [] [] [] [] [] []]. Qed.

Lemma choiceRegex_key line k t :
  Parser.choiceRegex line = Some (k, t) → isKey k ∧ JS.toUpperCase k = k.
Proof.
  unfold Parser.choiceRegex.
  destruct (JS.dropWhile JS.isSpace line) as [|c [|m r]]; try done.
  destruct (JS.isUpper c) eqn:Eu; [|done].
  destruct (JS.isChoiceMark m); [|done]. cbn. intros [= <- <-].
  split; [by exists c|]. cbn. by rewrite isUpper_upperChar.
Qed.

(** X8: every choice of every question [parseQuestionsText] returns has
    a key made of exactly one upper-case letter, whatever the text. *)
Theorem choice_keys_are_letters (text : string) (q : ParsedQuestion) (c : Choice) :
  q ∈ Parser.parseQuestionsText text → c ∈ p_choices q →
  ∃ k, c_key c = String k EmptyString ∧ JS.isUpper k = true.
Proof.
  intros Hq Hc.
  assert (H : Forall (fun q => Forall (fun c => isKey (c_key c)) (p_choices q))
                     (Parser.parseQuestionsText text)).
  { unfold Parser.parseQuestionsText. apply parseQuestionsLoop_invariant.
    - intros. cbn. constructor.
    - intros q0 line k t H0 Hk. cbn.
      apply Forall_app. split; [done|].
      constructor; [|constructor]. cbn.
      destruct (choiceRegex_key _ _ _ Hk) as [Hkey ->]. done.
    - intros q0 txt init c0 H0 Hinit. cbn. rewrite Hinit in H0.
      apply Forall_app in H0 as [Hi Hl]. apply Forall_app. split; [done|].
      constructor; [|constructor]. cbn. by inversion Hl.
    - intros q0 txt H0 _. done.
    - constructor.
    - done. }
  rewrite Forall_forall in H. specialize (H q Hq).
  rewrite Forall_forall in H. exact (H c Hc).
Qed.

Lemma choice_keys_are_letters_witness :
  ∃ k, c_key (mkChoice "B" "b") = String k EmptyString ∧ JS.isUpper k = true.
Proof.
  apply (choice_keys_are_letters Sample.questionsText
           (mkParsed "2" "Which ones?" (Some MULTIPLE)
              [mkChoice "A" "a"; mkChoice "B" "b"; mkChoice "C" "c";
               mkChoice "D" "d"] 6)).
  - vm_compute. apply elem_of_cons. right. apply elem_of_cons. by left.
  - apply elem_of_cons. right. apply elem_of_cons. by left.
Defined.

(** ** The two versions of the parsers *)

Section TwoVersions.
Import JS.

Lemma str_app_cons x (a b : string) : String x a +:+ b = String x (a +:+ b).
Proof. reflexivity. Qed.

Lemma str_app_nil_l (b : string) : EmptyString +:+ b = b.
Proof. reflexivity. Qed.

Lemma str_app_assoc (a b c : string) : (a +:+ b) +:+ c = a +:+ (b +:+ c).
Proof. induction a as [|x a IH]; [done|]. by rewrite !str_app_cons, IH. Qed.

Lemma str_app_nil_r (a : string) : a +:+ EmptyString = a.
Proof. induction a as [|x a IH]; [done|]. by rewrite str_app_cons, IH. Qed.

Lemma spaceForLF_app a b : spaceForLF (a +:+ b) = spaceForLF a +:+ spaceForLF b.
Proof.
  induction a as [|x a IH]; [done|].
  rewrite str_app_cons. cbn. by rewrite IH.
Qed.

Lemma spaceForLF_noLF s : noLF s = true → spaceForLF s = s.
Proof.
  induction s as [|c r IH]; [done|]. unfold noLF. cbn.
  intros [Hc Hr]%andb_true_iff. rewrite (IH Hr).
  by destruct (Ascii.eqb c LF).
Qed.

Lemma spaceForLF_isEmpty s : isEmpty (spaceForLF s) = isEmpty s.
Proof. by destruct s. Qed.

Lemma allChars_weaken (p p' : ascii → bool) s :
  (∀ c, p c = true → p' c = true) → allChars p s = true → allChars p' s = true.
Proof.
  intros Hp. induction s as [|c r IH]; [done|]. cbn.
  intros [Hc Hr]%andb_true_iff. by rewrite (Hp _ Hc), (IH Hr).
Qed.

Lemma takeWhile_noLF p s : noLF s = true → noLF (takeWhile p s) = true.
Proof.
  unfold noLF. induction s as [|c r IH]; [done|]. cbn.
  intros [Hc Hr]%andb_true_iff. destruct (p c); [|done]. cbn.
  by rewrite Hc, (IH Hr).
Qed.

Lemma dropWhile_noLF p s : noLF s = true → noLF (dropWhile p s) = true.
Proof.
  unfold noLF. induction s as [|c r IH]; [done|]. cbn.
  intros H. destruct (p c); [|done].
  apply andb_true_iff in H as [_ Hr]. by apply IH.
Qed.

Lemma trimEnd_noLF s : noLF s = true → noLF (trimEnd s) = true.
Proof.
  unfold noLF. induction s as [|c r IH]; [done|]. cbn.
  intros [Hc Hr]%andb_true_iff.
  destruct (isSpace c && isEmpty (trimEnd r)); [done|]. cbn.
  by rewrite Hc, (IH Hr).
Qed.

Lemma trim_noLF s : noLF s = true → noLF (trim s) = true.
Proof. intros H. by apply trimEnd_noLF, dropWhile_noLF. Qed.

Lemma dotStar_noLF s : noLF (dotStar s) = true.
Proof.
  unfold noLF, dotStar. induction s as [|c r IH]; [done|]. cbn.
  destruct (isLineTerminator c) eqn:E; [done|]. cbn. rewrite IH.
  by destruct c as [[] [] [] [] [] [] [] []].
Qed.

Lemma digits_noLF s : noLF (takeWhile isDigit s) = true.
Proof.
  apply (allChars_weaken isDigit); [|apply takeWhile_allChars].
  by intros [[] [] [] [] [] [] [] []].
Qed.

Lemma splitLines_nonempty s : splitLines s ≠ [].
Proof.
  destruct s as [|c r]; [done|]. cbn.
  destruct (Ascii.eqb c LF); [done|].
  destruct (Ascii.eqb c CR).
  - destruct r as [|c2 r2]; [by destruct (splitLines _)|].
    destruct (Ascii.eqb c2 LF); [done|]. by destruct (splitLines _).
  - by destruct (splitLines _).
Qed.

Lemma splitLines_noLF s : Forall (fun l => noLF l = true) (splitLines s).
Proof.
  assert (H : ∀ n s, String.length s ≤ n →
                Forall (fun l => noLF l = true) (splitLines s)).
  { clear s. induction n as [|n IH]; intros [|c r] Hn;
      try (by repeat constructor); [cbn in Hn; lia|].
    cbn in Hn. assert (Hr : String.length r ≤ n) by lia.
    assert (Hkeep : Ascii.eqb c LF = false →
      Forall (fun l => noLF l = true)
        match splitLines r with
        | l :: ls => String c l :: ls
        | [] => [String c EmptyString]
        end).
    { intros Hc. specialize (IH r Hr).
      destruct (splitLines r) as [|l ls] eqn:E;
        [by destruct (splitLines_nonempty r)|].
      inversion IH as [|? ? Hl Hls]; subst. constructor; [|done].
      unfold noLF in *. cbn. by rewrite Hc, Hl. }
    cbn [splitLines]. destruct (Ascii.eqb c LF) eqn:Hc.
    - constructor; [done|]. by apply IH.
    - destruct (Ascii.eqb c CR); [|by apply Hkeep].
      destruct r as [|c2 r2]; [by apply Hkeep|].
      destruct (Ascii.eqb c2 LF); [|by apply Hkeep].
      constructor; [done|]. apply IH. cbn in Hr. lia. }
  by apply (H (String.length s)).
Qed.

Lemma qStartRegex_noLF line qid tag txt :
  Parser.qStartRegex line = Some (qid, tag, txt) → noLF txt = true.
Proof.
  unfold Parser.qStartRegex.
  destruct (isEmpty _); [done|].
  destruct (Parser.matchTag _) as [[t r]|]; intros [= _ _ <-]; apply dotStar_noLF.
Qed.

Lemma choiceRegex_noLF line k t :
  Parser.choiceRegex line = Some (k, t) → noLF t = true.
Proof.
  unfold Parser.choiceRegex.
  destruct (dropWhile isSpace line) as [|c [|m r]]; try done.
  destruct (isUpper c && isChoiceMark m); [|done].
  intros [= _ <-]. apply dotStar_noLF.
Qed.

Lemma expStartRegex_noLF line e :
  Parser.expStartRegex line = Some e → noLF e = true.
Proof.
  unfold Parser.expStartRegex.
  destruct (stripPrefixCI _ _); [|done]. intros [= <-]. apply dotStar_noLF.
Qed.

Lemma last_map_list {A B} (f : A → B) (l : list A) :
  last (map f l) = f <$> last l.
Proof.
  induction l as [|x [|y l] IH]; [done..|].
  change (last (map f (y :: l)) = f <$> last (y :: l)). exact IH.
Qed.

Lemma removelast_map_list {A B} (f : A → B) (l : list A) :
  removelast (map f l) = map f (removelast l).
Proof.
  induction l as [|x [|y l] IH]; [done..|].
  change (f x :: removelast (map f (y :: l)) = f x :: map f (removelast (y :: l))).
  by rewrite IH.
Qed.

(** The earlier loop, run on the image of the later loop's state, ends in
    the image of the later loop's result. *)
Lemma legacy_questions_loop lines i questions currentQ :
  Forall (fun l => noLF l = true) lines →
  Legacy.parseQuestionsLoop lines i (map spaceForLF_question questions)
    (spaceForLF_question <$> currentQ)
  = map spaceForLF_question (Parser.parseQuestionsLoop lines i questions currentQ).
Proof.
  intros Hlines. revert i questions currentQ.
  induction Hlines as [|l rest Hl Hrest IH]; intros i questions currentQ.
  - cbn. destruct currentQ as [q|]; cbn; [|done]. by rewrite map_app.
  - cbn [Legacy.parseQuestionsLoop Parser.parseQuestionsLoop].
    apply trim_noLF in Hl.
    destruct (isEmpty (trim l)); [apply IH|].
    destruct (Parser.qStartRegex (trim l)) as [[[qid tag] txt]|] eqn:Eq.
    + apply qStartRegex_noLF in Eq.
      rewrite <- IH. f_equal.
      * destruct currentQ as [q|]; cbn; [|done]. by rewrite map_app.
      * cbn. unfold spaceForLF_question. cbn. by rewrite (spaceForLF_noLF _ Eq).
    + destruct currentQ as [q|]; [|apply (IH _ _ None)].
      cbn [fmap option_fmap option_map].
      destruct (Parser.choiceRegex (trim l)) as [[k t]|] eqn:Ec.
      * apply choiceRegex_noLF in Ec. rewrite <- IH. f_equal.
        cbn. unfold spaceForLF_question. cbn. rewrite map_app. cbn.
        unfold spaceForLF_choice. cbn. by rewrite (spaceForLF_noLF _ Ec).
      * cbn [spaceForLF_question p_choices p_text p_id p_explicitType p_rawLine].
        rewrite last_map_list.
        destruct (last (p_choices q)) as [c|]; cbn [fmap option_fmap option_map].
        -- rewrite <- IH. f_equal. cbn. unfold spaceForLF_question. cbn.
           rewrite removelast_map_list, map_app. cbn.
           unfold spaceForLF_choice. cbn.
           rewrite spaceForLF_app. cbn. rewrite (spaceForLF_noLF _ Hl).
           assert (E : Ascii.eqb LF LF = true) by done. by rewrite E.
        -- rewrite <- IH. f_equal. cbn. unfold spaceForLF_question. cbn.
           rewrite !spaceForLF_app, spaceForLF_isEmpty, (spaceForLF_noLF _ Hl).
           by destruct (isEmpty (p_text q)).
Qed.

Lemma flushAnswer_fmap answers currentA :
  Parser.flushAnswer (spaceForLF_answer <$> answers) (spaceForLF_answer <$> currentA)
  = spaceForLF_answer <$> Parser.flushAnswer answers currentA.
Proof. destruct currentA as [a|]; cbn; [|done]. by rewrite fmap_insert. Qed.

Lemma legacy_answers_loop lines (answers : gmap string Answer) currentA :
  Forall (fun l => noLF l = true) lines →
  Legacy.parseAnswersLoop lines (spaceForLF_answer <$> answers)
    (spaceForLF_answer <$> currentA)
  = spaceForLF_answer <$> Parser.parseAnswersLoop lines answers currentA.
Proof.
  intros Hlines. revert answers currentA.
  induction Hlines as [|l rest Hl Hrest IH]; intros answers currentA.
  - apply flushAnswer_fmap.
  - cbn [Legacy.parseAnswersLoop Parser.parseAnswersLoop].
    apply trim_noLF in Hl.
    destruct (isEmpty (trim l)); [apply IH|].
    destruct (Parser.aStartRegex (trim l)) as [[aid keysText]|].
    + rewrite flushAnswer_fmap. by rewrite <- IH.
    + destruct currentA as [a|]; [|apply (IH _ None)].
      cbn [fmap option_fmap option_map].
      destruct (Parser.expStartRegex (trim l)) as [e|] eqn:Ee.
      * apply expStartRegex_noLF in Ee. rewrite <- IH. f_equal.
        cbn. unfold spaceForLF_answer. cbn. by rewrite (spaceForLF_noLF _ Ee).
      * rewrite <- IH. f_equal. cbn. unfold spaceForLF_answer. cbn.
        rewrite !spaceForLF_app, spaceForLF_isEmpty, (spaceForLF_noLF _ Hl).
        by destruct (isEmpty (a_explanation a)).
Qed.

End TwoVersions.

(** X9: the two versions of the script held by the file parse alike.
    What the earlier [parseQuestionsText] returns for a text is what the
    later one returns with every line feed inside a question text or a
    choice text replaced by a space, and likewise for the explanations of
    [parseAnswersText]; ids, tags, choice keys, source lines, correct keys
    and the keys of the map are the same. *)
Theorem versions_differ_by_the_joint (text : string) :
  Legacy.parseQuestionsText text
    = map spaceForLF_question (Parser.parseQuestionsText text) ∧
  Legacy.parseAnswersText text
    = spaceForLF_answer <$> Parser.parseAnswersText text.
Proof.
  split.
  - unfold Legacy.parseQuestionsText, Parser.parseQuestionsText.
    rewrite <- legacy_questions_loop by apply splitLines_noLF. done.
  - unfold Legacy.parseAnswersText, Parser.parseAnswersText.
    rewrite <- legacy_answers_loop by apply splitLines_noLF.
    by rewrite fmap_empty.
Qed.

(** ** More on the answer parser *)

Section AnswerKeys.
Import JS.

Local Notation "'keysOf' keysText" :=
  (map (fun k => toUpperCase (trim k)) (splitComma keysText))
  (at level 10, keysText at level 9).
Local Notation "'noComma'" := (allChars (fun c => negb (Ascii.eqb c ","%char))).

Lemma isLetter_upper c : isLetter c = true → isUpper (upperChar c) = true.
Proof. by destruct c as [[] [] [] [] [] [] [] []]. Qed.

Lemma isLetter_not_space c : isLetter c = true → isSpace c = false.
Proof. by destruct c as [[] [] [] [] [] [] [] []]. Qed.

Lemma isLetter_not_comma c : isLetter c = true → Ascii.eqb c ","%char = false.
Proof. by destruct c as [[] [] [] [] [] [] [] []]. Qed.

Lemma isSpace_not_comma c : isSpace c = true → Ascii.eqb c ","%char = false.
Proof. by destruct c as [[] [] [] [] [] [] [] []]. Qed.

Lemma allChars_app p a b :
  allChars p (a +:+ b) = allChars p a && allChars p b.
Proof.
  induction a as [|x a IH]; [done|].
  rewrite str_app_cons. cbn. by rewrite IH, andb_assoc.
Qed.

Lemma splitComma_nonempty s : splitComma s ≠ [].
Proof.
  destruct s as [|c r]; [done|]. cbn.
  destruct (Ascii.eqb c ","%char); [done|]. by destruct (splitComma r).
Qed.

Lemma splitComma_noComma a : noComma a = true → splitComma a = [a].
Proof.
  induction a as [|x a IH]; [done|]. cbn.
  intros [Hx Ha]%andb_true_iff. apply negb_true_iff in Hx.
  by rewrite Hx, (IH Ha).
Qed.

Lemma splitComma_app a b :
  noComma a = true → splitComma (a +:+ String ","%char b) = a :: splitComma b.
Proof.
  induction a as [|x a IH]; [done|]. rewrite str_app_cons. cbn.
  intros [Hx Ha]%andb_true_iff. apply negb_true_iff in Hx.
  by rewrite Hx, (IH Ha).
Qed.

Lemma dropWhile_spaces ws s :
  allChars isSpace ws = true → dropWhile isSpace (ws +:+ s) = dropWhile isSpace s.
Proof.
  induction ws as [|x ws IH]; [done|]. rewrite str_app_cons. cbn.
  intros [Hx Hws]%andb_true_iff. by rewrite Hx, (IH Hws).
Qed.

Lemma trimEnd_spaces ws : allChars isSpace ws = true → trimEnd ws = EmptyString.
Proof.
  induction ws as [|x ws IH]; [done|]. cbn.
  intros [Hx Hws]%andb_true_iff. by rewrite (IH Hws), Hx.
Qed.

(** A letter between white space is one key. *)
Lemma key_piece ws c ws' :
  allChars isSpace ws = true → isLetter c = true → allChars isSpace ws' = true →
  noComma (ws +:+ String c ws') = true ∧
  isKey (toUpperCase (trim (ws +:+ String c ws'))).
Proof.
  intros Hws Hc Hws'. split.
  - rewrite allChars_app. cbn. rewrite (isLetter_not_comma _ Hc). cbn.
    apply andb_true_iff.
    split; (eapply allChars_weaken; [|eassumption]);
      intros x Hx; by rewrite (isSpace_not_comma _ Hx).
  - unfold trim. rewrite (dropWhile_spaces _ _ Hws). cbn.
    rewrite (isLetter_not_space _ Hc). cbn.
    rewrite (trimEnd_spaces _ Hws'), (isLetter_not_space _ Hc). cbn.
    exists (upperChar c). split; [done|]. by apply isLetter_upper.
Qed.

Lemma keys_last ws c :
  allChars isSpace ws = true → isLetter c = true →
  Forall isKey (keysOf (ws +:+ String c EmptyString)).
Proof.
  intros Hws Hc.
  destruct (key_piece ws c EmptyString Hws Hc eq_refl) as [Hno Hkey].
  rewrite (splitComma_noComma _ Hno). cbn. by constructor.
Qed.

Lemma keys_more ws c ws' rest :
  allChars isSpace ws = true → isLetter c = true → allChars isSpace ws' = true →
  Forall isKey (keysOf rest) →
  Forall isKey (keysOf (ws +:+ String c (ws' +:+ String ","%char rest))).
Proof.
  intros Hws Hc Hws' Hrest.
  destruct (key_piece ws c ws' Hws Hc Hws') as [Hno Hkey].
  assert (E : ws +:+ String c (ws' +:+ String ","%char rest)
              = (ws +:+ String c ws') +:+ String ","%char rest).
  { by rewrite str_app_assoc, str_app_cons. }
  rewrite E, (splitComma_app _ _ Hno). cbn. by constructor.
Qed.

(** The text the repetition consumes, put behind a first letter, splits
    into keys. *)
Lemma moreKeys_keys s :
  ∀ (afterComma : bool) (pending ws : string) (c : ascii),
    allChars isSpace ws = true → isLetter c = true →
    (if afterComma
     then ∃ p1 p2, pending = p1 +:+ String ","%char p2 ∧
                   allChars isSpace p1 = true ∧ allChars isSpace p2 = true
     else allChars isSpace pending = true) →
    Forall isKey (keysOf (ws +:+ String c (Parser.moreKeys afterComma pending s))).
Proof.
  induction s as [|x r IH]; intros afterComma pending ws c Hws Hc Hp.
  - cbn. by apply keys_last.
  - cbn [Parser.moreKeys]. destruct (isSpace x) eqn:Hx.
    + apply IH; [done..|]. destruct afterComma.
      * destruct Hp as (p1 & p2 & -> & H1 & H2).
        exists p1, (p2 +:+ String x EmptyString). split; [|split; [done|]].
        -- by rewrite str_app_assoc, str_app_cons.
        -- rewrite allChars_app, H2. cbn. by rewrite Hx.
      * rewrite allChars_app, Hp. cbn. by rewrite Hx.
    + destruct afterComma.
      * destruct Hp as (p1 & p2 & -> & H1 & H2).
        destruct (isLetter x) eqn:Hl; [|by apply keys_last].
        rewrite str_app_assoc, str_app_cons.
        apply keys_more; [done..|].
        apply (IH false EmptyString p2 x); done.
      * destruct (Ascii.eqb x ","%char) eqn:Hcomma; [|by apply keys_last].
        apply IH; [done..|].
        exists pending, EmptyString. split; [|done].
        apply Ascii.eqb_eq in Hcomma. by subst x.
Qed.

Lemma aStartRegex_shape line aid keysText :
  Parser.aStartRegex line = Some (aid, keysText) →
  aid = takeWhile isDigit line ∧ isEmpty aid = false ∧
  Forall isKey (keysOf keysText).
Proof.
  unfold Parser.aStartRegex.
  destruct (isEmpty (takeWhile isDigit line)) eqn:Hd; [done|].
  destruct (stripPrefixCI _ _) as [s|]; [|done].
  destruct (dropWhile isSpace s) as [|c r]; [done|].
  destruct (isLetter c) eqn:Hc; [|done].
  intros [= <- <-]. split; [done|]. split; [done|].
  apply (moreKeys_keys r false EmptyString EmptyString c); done.
Qed.

(** The answers the loop collects are well formed when the open one is. *)
Lemma answerBlocksLoop_invariant (P : Answer → Prop) lines currentA :
  (∀ line aid keysText,
     Parser.aStartRegex line = Some (aid, keysText) →
     P (mkAnswer aid (keysOf keysText) EmptyString)) →
  (∀ a e, P a → P (mkAnswer (a_id a) (a_correctKeys a) e)) →
  (∀ a, currentA = Some a → P a) →
  Forall P (Contract.answerBlocksLoop lines currentA).
Proof.
  intros Hstart Hexp. revert currentA.
  induction lines as [|l rest IH]; intros currentA Hcur.
  - destruct currentA as [a|]; cbn; [|done]. constructor; [by apply Hcur|done].
  - cbn [Contract.answerBlocksLoop].
    destruct (isEmpty (trim l)); [by apply IH|].
    destruct (Parser.aStartRegex (trim l)) as [[aid keysText]|] eqn:Ea.
    + apply Forall_app. split.
      * destruct currentA as [a|]; cbn; [|done].
        constructor; [by apply Hcur|done].
      * apply IH. intros a [= <-]. by eapply Hstart.
    + destruct currentA as [a|]; [|by apply IH].
      destruct (Parser.expStartRegex (trim l)); apply IH;
        intros a' [= <-]; by apply Hexp, Hcur.
Qed.

(** Every block of an answer text has a non-empty id made of digits and a
    non-empty list of keys, each one upper-case letter. *)
Lemma answerBlocks_well_formed text a :
  a ∈ Contract.answerBlocks text →
  isEmpty (a_id a) = false ∧ allChars isDigit (a_id a) = true ∧
  a_correctKeys a ≠ [] ∧ Forall isKey (a_correctKeys a).
Proof.
  intros Hin.
  pose (P := fun a : Answer =>
    isEmpty (a_id a) = false ∧ allChars isDigit (a_id a) = true ∧
    a_correctKeys a ≠ [] ∧ Forall isKey (a_correctKeys a)).
  assert (H : Forall P (Contract.answerBlocksLoop (splitLines text) None)).
  { apply answerBlocksLoop_invariant.
    - intros line aid keysText Ha.
      destruct (aStartRegex_shape _ _ _ Ha) as (-> & Hne & Hkeys).
      split; [done|]. split; [apply takeWhile_allChars|]. split; [|done].
      cbn. intros E. apply map_eq_nil in E. by apply splitComma_nonempty in E.
    - by intros b e Hb.
    - done. }
  rewrite Forall_forall in H. exact (H a Hin).
Qed.

Lemma parseAnswersText_lookup text aid :
  Parser.parseAnswersText text !! aid
  = Contract.lastBlock aid (Contract.answerBlocks text).
Proof.
  unfold Parser.parseAnswersText, Contract.answerBlocks.
  rewrite parseAnswersLoop_blocks, setAll_lookup.
  by destruct (Contract.lastBlock _ _).
Qed.

End AnswerKeys.

(** X10: every entry of the map [parseAnswersText] returns is well
    formed, whatever the text: it sits under its own id, the id is a
    non-empty string of digits, and its correct keys are a non-empty list
    of single upper-case letters. *)
Theorem answers_are_well_formed (text : string) (aid : string) (a : Answer) :
  Parser.parseAnswersText text !! aid = Some a →
  a_id a = aid ∧
  JS.isEmpty aid = false ∧ allChars JS.isDigit aid = true ∧
  a_correctKeys a ≠ [] ∧
  ∀ k, k ∈ a_correctKeys a →
       ∃ c, k = String c EmptyString ∧ JS.isUpper c = true.
Proof.
  rewrite parseAnswersText_lookup. intros Eb.
  apply lastBlock_Some in Eb as [Hid Hin].
  split; [done|]. subst aid.
  destruct (answerBlocks_well_formed _ _ Hin) as (H1 & H2 & H3 & H4).
  split; [done|]. split; [done|]. split; [done|].
  intros k Hk. rewrite Forall_forall in H4. exact (H4 k Hk).
Qed.

Lemma answers_are_well_formed_witness :
  a_id (mkAnswer "2" ["B"; "C"; "D"] "three of them") = "2" ∧
  JS.isEmpty "2" = false ∧ allChars JS.isDigit "2" = true ∧
  a_correctKeys (mkAnswer "2" ["B"; "C"; "D"] "three of them") ≠ [] ∧
  ∀ k, k ∈ a_correctKeys (mkAnswer "2" ["B"; "C"; "D"] "three of them") →
       ∃ c, k = String c EmptyString ∧ JS.isUpper c = true.
Proof.
  apply (answers_are_well_formed Sample.answersText). vm_compute. reflexivity.
Defined.

(** ** Uploads *)

Section Uploads.
Import JS Contract.

Lemma setAll_size answers blocks :
  size (setAll answers blocks) ≤ size answers + length blocks.
Proof.
  induction blocks as [|a blocks IH] using rev_ind; [cbn; lia|].
  rewrite setAll_app, length_app. cbn.
  pose proof (map_size_insert (a_id a) a (setAll answers blocks)) as Hs.
  destruct (setAll answers blocks !! a_id a); cbn in Hs; lia.
Qed.

Lemma setAll_nonempty answers blocks :
  blocks ≠ [] → size (setAll answers blocks) ≠ 0.
Proof.
  destruct blocks as [|a blocks _] using rev_ind; [done|]. intros _.
  rewrite setAll_app. cbn. intros E. apply map_size_empty_iff in E.
  by apply insert_non_empty in E.
Qed.

(** One block per answer-start line, after the one that is open. *)
Lemma answerBlocksLoop_length lines currentA :
  length (answerBlocksLoop lines currentA) =
  length (option_list currentA) +
  length (filter (fun line => is_Some (Parser.aStartRegex line)) (map trim lines)).
Proof.
  revert currentA. induction lines as [|l rest IH]; intros currentA.
  - cbn. lia.
  - cbn [answerBlocksLoop map].
    destruct (Parser.aStartRegex (trim l)) as [[aid keysText]|] eqn:Ea.
    + rewrite filter_cons_True by (by rewrite Ea).
      assert (Hne : isEmpty (trim l) = false).
      { destruct (trim l); [done|done]. }
      rewrite Hne, length_app, IH. cbn. lia.
    + rewrite filter_cons_False by (rewrite Ea; by intros [? ?]).
      destruct (isEmpty (trim l)); [apply IH|].
      destruct currentA as [a|]; [|apply IH].
      destruct (Parser.expStartRegex (trim l)); by rewrite IH.
Qed.

Lemma trimEnd_dropWhile s :
  trimEnd (dropWhile isSpace s) = dropWhile isSpace (trimEnd s).
Proof.
  induction s as [|c r IH]; [done|]. cbn.
  destruct (isSpace c) eqn:Hc; cbn.
  - destruct (trimEnd r) as [|x t] eqn:Er; cbn.
    + by rewrite IH.
    + by rewrite Hc, IH.
  - by rewrite Hc.
Qed.

Lemma trim_by_trimEnd x y : trimEnd x = trimEnd y → trim x = trim y.
Proof. unfold trim. rewrite !trimEnd_dropWhile. by intros ->. Qed.

Lemma splitLines_LF r : splitLines (String LF r) = EmptyString :: splitLines r.
Proof. reflexivity. Qed.

(** Splitting a text followed by a line feed and a second text: the lines
    of the first, then the lines of the second; only white space at the
    end of the first text's last line can differ. *)
Lemma splitLines_app_LF a b :
  Forall2 (fun x y => trimEnd x = trimEnd y)
    (splitLines (a +:+ String LF b)) (splitLines a ++ splitLines b).
Proof.
  assert (Hrefl : ∀ l : list string,
            Forall2 (fun x y => trimEnd x = trimEnd y) l l).
  { intros l. induction l; by constructor. }
  assert (H : ∀ n a, String.length a ≤ n →
    Forall2 (fun x y => trimEnd x = trimEnd y)
      (splitLines (a +:+ String LF b)) (splitLines a ++ splitLines b)).
  { clear a. induction n as [|n IH]; intros [|c r] Hn;
      try (rewrite str_app_nil_l, splitLines_LF; by apply Hrefl);
      [cbn in Hn; lia|].
    cbn in Hn. assert (Hr : String.length r ≤ n) by lia.
    rewrite str_app_cons.
    assert (Hkeep :
      Forall2 (fun x y => trimEnd x = trimEnd y)
        match splitLines (r +:+ String LF b) with
        | l :: ls => String c l :: ls
        | [] => [String c EmptyString]
        end
        (match splitLines r with
         | l :: ls => String c l :: ls
         | [] => [String c EmptyString]
         end ++ splitLines b)).
    { specialize (IH r Hr).
      destruct (splitLines r) as [|l' ls'] eqn:E';
        [by destruct (splitLines_nonempty r)|].
      destruct (splitLines (r +:+ String LF b)) as [|l ls] eqn:E;
        [by destruct (splitLines_nonempty (r +:+ String LF b))|].
      cbn in IH. inversion IH as [|? ? ? ? Hl Hls]; subst.
      cbn. constructor; [|done]. cbn. by rewrite Hl. }
    cbn [splitLines]. destruct (Ascii.eqb c LF) eqn:Hc.
    - cbn. constructor; [done|]. by apply IH.
    - destruct (Ascii.eqb c CR) eqn:Hcr; [|exact Hkeep].
      destruct r as [|c2 r2].
      + rewrite str_app_nil_l. cbn.
        apply Ascii.eqb_eq in Hcr. subst c. constructor; [done|]. apply Hrefl.
      + rewrite str_app_cons. destruct (Ascii.eqb c2 LF) eqn:Hc2.
        * cbn. constructor; [done|]. apply IH. cbn in Hr. lia.
        * rewrite <- str_app_cons. exact Hkeep. }
  by apply (H (String.length a)).
Qed.

Lemma trimmed_lines_app_LF a b :
  map trim (splitLines (a +:+ String LF b))
  = map trim (splitLines a) ++ map trim (splitLines b).
Proof.
  rewrite <- map_app.
  induction (splitLines_app_LF a b) as [|x y l l' Hxy _ IH]; [done|].
  cbn. by rewrite (trim_by_trimEnd _ _ Hxy), IH.
Qed.

Lemma allText_from acc contents :
  foldl (fun acc content =>
           acc +:+ (content +:+ String LF (String LF EmptyString)))
        acc contents
  = acc +:+ allText contents.
Proof.
  unfold allText. revert acc.
  induction contents as [|c cs IH]; intros acc; cbn.
  - by rewrite str_app_nil_r.
  - rewrite IH, (IH (_ +:+ _)), str_app_nil_l. by rewrite str_app_assoc.
Qed.

Lemma allText_cons c cs :
  allText (c :: cs) = c +:+ String LF (String LF (allText cs)).
Proof.
  unfold allText at 1. cbn. rewrite allText_from, str_app_nil_l.
  rewrite str_app_assoc. by rewrite !str_app_cons, str_app_nil_l.
Qed.

(** The question-start lines of the assembled text are those of the
    files, file after file. *)
Lemma questionStartLines_allText contents :
  questionStartLines (allText contents)
  = concat (map questionStartLines contents).
Proof.
  induction contents as [|c cs IH]; [done|].
  unfold questionStartLines in *.
  rewrite allText_cons, trimmed_lines_app_LF, splitLines_LF, filter_app.
  cbn [map concat]. rewrite <- IH. f_equal.
Qed.

Lemma concat_nil_all {A} (l : list (list A)) :
  concat l = [] → Forall (fun x => x = []) l.
Proof.
  induction l as [|x l IH]; [done|]. cbn.
  intros [-> Hl]%app_eq_nil. constructor; [done|]. by apply IH.
Qed.

Lemma parseQuestionsText_ids text :
  map p_id (Parser.parseQuestionsText text)
  = map questionStartId (questionStartLines text).
Proof. unfold Parser.parseQuestionsText. by rewrite parseQuestionsLoop_ids. Qed.

Lemma allText_ids contents :
  map p_id (Parser.parseQuestionsText (allText contents))
  = concat (map (fun c => map p_id (Parser.parseQuestionsText c)) contents).
Proof.
  rewrite parseQuestionsText_ids, questionStartLines_allText.
  induction contents as [|c cs IH]; [done|].
  cbn [map concat]. by rewrite map_app, IH, <- parseQuestionsText_ids.
Qed.

End Uploads.

(** X11: [handleAnswersUpload] shows its error exactly when no trimmed
    line of the file is an answer start; otherwise it stores the parsed
    map, which has at least one entry and at most one per answer-start
    line. *)
Theorem answers_upload_outcome (content : string) :
  match answersUpload content with
  | inr msg =>
      answerStartLines content = [] ∧
      msg = "Error parsing answers: No valid answers found. Please check the file format."
  | inl m =>
      m = Parser.parseAnswersText content ∧
      1 ≤ size m ∧ size m ≤ length (answerStartLines content)
  end.
Proof.
  unfold answersUpload, answerStartLines, Parser.parseAnswersText.
  rewrite parseAnswersLoop_blocks.
  pose proof (answerBlocksLoop_length (JS.splitLines content) None) as Hlen.
  pose proof (setAll_size ∅ (Contract.answerBlocksLoop (JS.splitLines content) None))
    as Hsize.
  rewrite map_size_empty in Hsize. cbn in Hlen, Hsize.
  case_decide as Hz.
  - split; [|done].
    destruct (Contract.answerBlocksLoop (JS.splitLines content) None) as [|b bs] eqn:E.
    + cbn in Hlen. symmetry in Hlen. by apply length_zero_iff_nil in Hlen.
    + by destruct (setAll_nonempty ∅ (b :: bs)).
  - split; [done|]. split; lia.
Qed.

(** X12: [handleQuestionsUpload] does nothing when no file is selected.
    Otherwise it parses the contents joined in order, each followed by two
    line feeds: the ids it gets are the ids of the first file's questions,
    then those of the second, and so on, and it shows its error exactly
    when no file has a question of its own. *)
Theorem questions_upload_outcome (contents : list string) :
  (questionsUpload contents = None ↔ contents = []) ∧
  match questionsUpload contents with
  | None => True
  | Some (inl qs) =>
      qs = Parser.parseQuestionsText (allText contents) ∧ qs ≠ [] ∧
      map p_id qs
      = concat (map (fun c => map p_id (Parser.parseQuestionsText c)) contents)
  | Some (inr msg) =>
      (∀ c, c ∈ contents → Parser.parseQuestionsText c = []) ∧
      msg = "Error parsing questions: No valid questions found. Please check the file format."
  end.
Proof.
  split.
  - unfold questionsUpload. destruct contents as [|c cs]; [done|].
    by destruct (Parser.parseQuestionsText _).
  - pose proof (allText_ids contents) as Hids.
    unfold questionsUpload. destruct contents as [|c0 cs0]; [done|].
    destruct (Parser.parseQuestionsText (allText (c0 :: cs0))) as [|q qs] eqn:E.
    + split; [|done]. intros c Hc.
      symmetry in Hids. apply concat_nil_all in Hids as Hall.
      rewrite Forall_forall in Hall.
      specialize (Hall (map p_id (Parser.parseQuestionsText c))).
      assert (Hin : map p_id (Parser.parseQuestionsText c)
                    ∈ map (fun c => map p_id (Parser.parseQuestionsText c)) (c0 :: cs0)).
      { apply list_elem_of_fmap. by exists c. }
      specialize (Hall Hin). by apply map_eq_nil in Hall.
    + done.
Qed.

(** ** From the two texts to the session *)

(** A property of a question that every call of the handler keeps holds
    of the question throughout a session. *)
Lemma run_question_invariant (P : Question → Prop) :
  (∀ q k card g, P q → P (res_q (handleInteraction q k card g))) →
  ∀ events s i q, questions s !! i = Some q → P q →
    ∃ q', questions (run events s) !! i = Some q' ∧ P q'.
Proof.
  intros Hstep events.
  induction events as [|[i0 j0] events IH]; intros s i q Hq HP.
  - by exists q.
  - rewrite run_cons.
    destruct (change_event_spec i0 j0 s)
      as [[Hsame _] | (q0 & k & card & Hq0 & Hins & _)].
    + apply (IH _ i q); [by rewrite Hsame | done].
    + destruct (decide (i0 = i)) as [->|Hne].
      * assert (q0 = q) as -> by congruence.
        apply (IH _ i (res_q (handleInteraction q k card (page s)))).
        -- rewrite Hins. apply list_lookup_insert_eq. by eapply lookup_lt_Some.
        -- by apply Hstep.
      * apply (IH _ i q); [|done]. rewrite Hins. by rewrite list_lookup_insert_ne.
Qed.

Lemma matchQuestion_fields answersMap p :
  q_id (matchQuestion answersMap p) = p_id p ∧
  q_text (matchQuestion answersMap p) = p_text p ∧
  explicitType (matchQuestion answersMap p) = p_explicitType p ∧
  choices (matchQuestion answersMap p) = p_choices p ∧
  rawLine (matchQuestion answersMap p) = p_rawLine p.
Proof. unfold matchQuestion. by destruct (answersMap !! p_id p). Qed.

Lemma handleInteraction_graded q k card g :
  status q ≠ ungraded → status (res_q (handleInteraction q k card g)) ≠ ungraded.
Proof.
  intros Hs.
  destruct (handleInteraction_outcome q k card g)
    as [-> | (_ & _ & _ & [(-> & _) | (-> & _)])]; done.
Qed.

(** X13: from the two uploaded texts to the state of a session, whatever
    the events.  Question [i] of the session is question [i] of the parsed
    questions text; it is graded against the last block of the answers
    text that carries its id: its correct keys and explanation are that
    block's, the keys are a non-empty list of single upper-case letters
    and the question is never ungraded; when no block carries the id it
    has no correct key and the placeholder explanation, and it is never
    marked correct.  Its type is the tag of its line, or else follows the
    number of correct keys. *)
Theorem graded_against_the_last_block (questionsText answersText : string)
    (events : list (nat * nat)) (i : nat) (q : Question) :
  questions (run events (startSession (Parser.parseQuestionsText questionsText)
                           (Parser.parseAnswersText answersText))) !! i = Some q →
  ∃ p, Parser.parseQuestionsText questionsText !! i = Some p ∧
       q_id q = p_id p ∧ q_text q = p_text p ∧ choices q = p_choices p ∧
       rawLine q = p_rawLine p ∧
       type q = match p_explicitType p with
                | Some t => t
                | None => if (1 <? length (correctKeys q))%nat
                          then MULTIPLE else SINGLE
                end ∧
       match Contract.lastBlock (p_id p) (Contract.answerBlocks answersText) with
       | Some a =>
           correctKeys q = a_correctKeys a ∧ explanation q = a_explanation a ∧
           correctKeys q ≠ [] ∧
           (∀ k, k ∈ correctKeys q →
                 ∃ c, k = String c EmptyString ∧ JS.isUpper c = true) ∧
           status q ≠ ungraded
       | None =>
           correctKeys q = [] ∧ explanation q = "No answer key found." ∧
           status q ≠ correct ∧ status q ≠ unanswered
       end.
Proof.
  set (parsed := Parser.parseQuestionsText questionsText).
  set (answersMap := Parser.parseAnswersText answersText).
  intros Hq.
  assert (Hstart : questions (startSession parsed answersMap)
                   = map (matchQuestion answersMap) parsed) by done.
  assert (Hlt : i < length (map (matchQuestion answersMap) parsed)).
  { rewrite <- Hstart, <- (run_length events). by eapply lookup_lt_Some. }
  rewrite length_map in Hlt.
  destruct (lookup_lt_is_Some_2 parsed i Hlt) as [p Hp].
  assert (Hq0 : questions (startSession parsed answersMap) !! i
                = Some (matchQuestion answersMap p)).
  { rewrite Hstart. change (map ?f ?l) with (f <$> l).
    by rewrite list_lookup_fmap, Hp. }
  set (q0 := matchQuestion answersMap p) in *.
  destruct (run_question_invariant
              (fun q' => same_content q0 q' ∧
                         (status q0 ≠ ungraded → status q' ≠ ungraded) ∧
                         (keyless q0 → keyless q'))) with
    (events := events) (s := startSession parsed answersMap) (i := i) (q := q0)
    as (q' & Hq' & Hsame & Hgraded & Hkeyless).
  { intros q1 k card g (H1 & H2 & H3). split; [|split].
    - eapply same_content_trans; [exact H1|]. apply handleInteraction_same_content.
    - intros H. by apply handleInteraction_graded, H2.
    - intros H. by apply keyless_handleInteraction, H3. }
  { done. }
  { split; [by repeat split|]. by split. }
  assert (q' = q) as -> by congruence.
  destruct Hsame as (Hid & Htext & Hexp & Hch & Hraw & Hkeys & Hexpl & Hty).
  destruct (matchQuestion_fields answersMap p) as (Fid & Ftext & Fexp & Fch & Fraw).
  fold q0 in Fid, Ftext, Fexp, Fch, Fraw.
  exists p. split; [done|].
  split; [congruence|]. split; [congruence|].
  split; [congruence|]. split; [congruence|].
  split.
  { rewrite Hty, Hkeys. apply matchQuestion_type. }
  pose proof (parseAnswersText_lookup answersText (p_id p)) as Hlook.
  fold answersMap in Hlook.
  destruct (Contract.lastBlock (p_id p) (Contract.answerBlocks answersText))
    as [a|] eqn:Eb.
  - destruct (matchQuestion_present _ _ _ Hlook) as (Hk0 & He0 & Hs0).
    fold q0 in Hk0, He0, Hs0.
    apply lastBlock_Some in Eb as [_ Hin].
    destruct (answerBlocks_well_formed _ _ Hin) as (_ & _ & Hne & Hall).
    rewrite Hkeys, Hexpl, Hk0, He0.
    split; [done|]. split; [done|]. split; [done|]. split.
    + intros k Hk. rewrite Forall_forall in Hall. exact (Hall k Hk).
    + apply Hgraded. by rewrite Hs0.
  - destruct (matchQuestion_absent _ _ Hlook) as (Hs0 & Hk0 & He0).
    fold q0 in Hk0, He0, Hs0.
    destruct Hkeyless as [_ Hst]; [split; [done | by left]|].
    rewrite Hkeys, Hexpl, Hk0, He0.
    split; [done|]. split; [done|].
    destruct Hst as [-> | ->]; by split.
Qed.

Lemma graded_against_the_last_block_witness :
  ∃ p, Parser.parseQuestionsText Sample.questionsText !! 0 = Some p ∧
       q_id (set_userSelectedKeys (set_status Sample.q1 correct) ["B"]) = p_id p.
Proof.
  destruct (graded_against_the_last_block Sample.questionsText Sample.answersText
              [(0, 1)] 0
              (set_userSelectedKeys (set_status Sample.q1 correct) ["B"]))
    as (p & Hp & Hid & _).
  - vm_compute. reflexivity.
  - by exists p.
Defined.

(** ** The renderer's preprocessing *)

Section Preprocess.
Import JS Renderer.

Lemma dropN_0 s : dropN 0 s = s.
Proof. by destruct s. Qed.

Lemma takeN_nil n : takeN n EmptyString = EmptyString.
Proof. by destruct n. Qed.

Lemma dropN_nil n : dropN n EmptyString = EmptyString.
Proof. by destruct n. Qed.

Lemma takeN_dropN n s : takeN n s +:+ dropN n s = s.
Proof.
  revert s. induction n as [|n IH]; intros [|c r]; try done.
  cbn. by rewrite str_app_cons, IH.
Qed.

Lemma takeN_add a d s : takeN (a + d) s = takeN a s +:+ takeN d (dropN a s).
Proof.
  revert s. induction a as [|a IH]; intros s.
  - by rewrite dropN_0.
  - destruct s as [|c r]; cbn.
    + by rewrite takeN_nil.
    + by rewrite str_app_cons, IH.
Qed.

Lemma dropN_add a b s : dropN a (dropN b s) = dropN (b + a) s.
Proof.
  revert s. induction b as [|b IH]; intros s.
  - by rewrite dropN_0.
  - destruct s as [|c r]; cbn; [by rewrite dropN_nil | apply IH].
Qed.

Lemma dropN_S i t c r : dropN i t = String c r → dropN (S i) t = r.
Proof.
  intros H. replace (S i) with (i + 1) by lia.
  by rewrite <- dropN_add, H.
Qed.

Lemma substring_le s a b : a ≤ b → substring s a b = takeN (b - a) (dropN a s).
Proof.
  intros H. unfold substring.
  by rewrite Nat.max_r, Nat.min_l by done.
Qed.

Lemma takeN_substring s a b :
  a ≤ b → takeN a s +:+ substring s a b = takeN b s.
Proof.
  intros H. rewrite substring_le by done.
  replace b with (a + (b - a)) at 2 by lia. by rewrite takeN_add.
Qed.

(** A group from its opening character to its closing one. *)
Lemma substring_group t li i lc r char rest' :
  dropN li t = String lc r → li < i → dropN i t = String char rest' →
  substring t li (i + 1)
  = String lc (substring t (li + 1) i +:+ String char EmptyString).
Proof.
  intros Hl Hlt Hi.
  rewrite !substring_le by lia.
  replace (i + 1 - li) with (S (i - (li + 1) + 1)) by lia.
  rewrite Hl. cbn [takeN]. f_equal.
  replace (li + 1) with (S li) by lia. rewrite (dropN_S _ _ _ _ Hl).
  rewrite takeN_add. f_equal.
  assert (E : dropN (i - S li) r = String char rest').
  { rewrite <- (dropN_S _ _ _ _ Hl), dropN_add.
    by replace (S li + (i - S li)) with i by lia. }
  by rewrite E.
Qed.

Lemma anyChar_app p a b : anyChar p (a +:+ b) = anyChar p a || anyChar p b.
Proof.
  induction a as [|c a IH]; [done|].
  rewrite str_app_cons. cbn. by rewrite IH, orb_assoc.
Qed.

Lemma anyChar_takeN p n s : anyChar p s = false → anyChar p (takeN n s) = false.
Proof.
  revert s. induction n as [|n IH]; intros [|c r]; try done. cbn.
  intros [Hc Hr]%orb_false_iff. by rewrite Hc, (IH _ Hr).
Qed.

Lemma anyChar_dropN p n s : anyChar p s = false → anyChar p (dropN n s) = false.
Proof.
  revert s. induction n as [|n IH]; intros [|c r]; try done. cbn.
  intros [Hc Hr]%orb_false_iff. by apply IH.
Qed.

Lemma anyChar_substring p s a b :
  anyChar p s = false → anyChar p (substring s a b) = false.
Proof. intros H. by apply anyChar_takeN, anyChar_dropN. Qed.

Lemma withoutBackslashes_app a b :
  withoutBackslashes (a +:+ b) = withoutBackslashes a +:+ withoutBackslashes b.
Proof.
  induction a as [|c a IH]; [done|]. rewrite str_app_cons. cbn.
  destruct (Ascii.eqb c backslash); [done|]. by rewrite str_app_cons, IH.
Qed.

(** A text without backtick has nothing to mask. *)
Lemma maskLoop_plain s codeBlocks :
  noBacktick s = true → maskLoop s 0 codeBlocks = (s, codeBlocks).
Proof.
  unfold noBacktick. induction s as [|c r IH]; [done|]. cbn [anyChar maskLoop].
  intros [Hc Hr]%negb_true_iff%orb_false_iff.
  unfold maskRegex. cbn [ticks]. rewrite Hc. cbn [maskGroup].
  rewrite IH; [done|]. by rewrite Hr.
Qed.

Lemma preprocessMath_plain text :
  noBacktick text = true →
  preprocessMath text = scanLoop text text 0 None EmptyString [] 0.
Proof.
  intros H. unfold preprocessMath. rewrite (maskLoop_plain _ _ H).
  destruct text; [done|]. done.
Qed.

(** The scan, for any relation between its result and the text that
    appending respects and that holds between what a closed group adds
    and the group itself. *)
Lemma scanLoop_rel (R : string → string → Prop) t :
  (∀ a, R a a) →
  (∀ a b c d, R a b → R c d → R (a +:+ c) (b +:+ d)) →
  (∀ last char i rest' r,
     dropN i t = String char rest' → closes (e_char last) char = true →
     e_index last < i → isOpen (e_char last) = true →
     dropN (e_index last) t = String (e_char last) r →
     R (closeGroup t last char i) (substring t (e_index last) (i + 1))) →
  ∀ rest i prev result stack lastIndex,
    dropN i t = rest → scan_ok t i stack lastIndex →
    R result (takeN lastIndex t) →
    R (scanLoop t rest i prev result stack lastIndex) t.
Proof.
  intros Hrefl Happ Hgroup rest.
  induction rest as [|char rest' IH];
    intros i prev result stack lastIndex Hrest Hok HR.
  - cbn. rewrite <- (takeN_dropN lastIndex t) at 2. by apply Happ.
  - pose proof (dropN_S _ _ _ _ Hrest) as Hnext.
    destruct Hok as [Hle Hbottom].
    assert (Hsame : scan_ok t (S i) stack lastIndex).
    { split; [lia|]. destruct (last stack) as [b|]; [|done].
      destruct Hbottom as (? & ? & ? & ?). repeat split; [done | lia | done..]. }
    cbn [scanLoop]. destruct (escaped prev); [by apply IH|].
    destruct (isOpen char) eqn:Hopen.
    + destruct stack as [|top stack'].
      * apply IH; [done| |].
        -- split; [lia|]. cbn. repeat split; [lia | done | by eexists].
        -- rewrite <- (takeN_substring t lastIndex i) by done. by apply Happ.
      * apply IH; [done| |done].
        split; [lia|]. change (last (mkEntry char i :: top :: stack'))
          with (last (top :: stack')).
        destruct (last (top :: stack')) as [b|]; [|done].
        destruct Hbottom as (? & ? & ? & ?). repeat split; [done | lia | done..].
    + destruct (isClose char); [|by apply IH].
      destruct stack as [|top stack']; [by apply IH|].
      destruct (closes (e_char top) char) eqn:Hcl; [|by apply IH].
      destruct stack' as [|y ys].
      * cbn in Hbottom. destruct Hbottom as (Hidx & Hlt & Hop & r & Hr).
        apply IH; [done| |].
        -- split; [lia|done].
        -- rewrite <- (takeN_substring t lastIndex (i + 1)) by lia.
           apply Happ; [done|]. rewrite <- Hidx.
           apply (Hgroup top char i rest' r); try done; [lia | by rewrite Hidx].
      * apply IH; [done| |done].
        split; [lia|]. change (last (top :: y :: ys)) with (last (y :: ys)) in Hbottom.
        destruct (last (y :: ys)) as [b|]; [|done].
        destruct Hbottom as (? & ? & ? & ?). repeat split; [done | lia | done..].
Qed.

Lemma closes_chars o c :
  closes o c = true →
  (o = "("%char ∧ c = ")"%char) ∨ (o = "["%char ∧ c = "]"%char).
Proof.
  unfold closes. intros [[H1 H2]%andb_true_iff | [H1 H2]%andb_true_iff]%orb_true_iff;
    apply Ascii.eqb_eq in H1, H2; auto.
Qed.

End Preprocess.

(** X14: on a text without backtick, [preprocessMath] only ever inserts
    backslashes: with every backslash taken out, its result and the text
    are the same string. *)
Theorem preprocessMath_only_adds_backslashes (text : string) :
  noBacktick text = true →
  Renderer.withoutBackslashes (Renderer.preprocessMath text)
  = Renderer.withoutBackslashes text.
Proof.
  intros H. rewrite (preprocessMath_plain _ H).
  apply (scanLoop_rel
           (fun a b => Renderer.withoutBackslashes a = Renderer.withoutBackslashes b)).
  - done.
  - intros a b c d Hab Hcd. by rewrite !withoutBackslashes_app, Hab, Hcd.
  - intros last char i rest' r Hi Hcl Hlt Hop Hr.
    rewrite (substring_group _ _ _ _ _ _ _ Hr Hlt Hi).
    unfold Renderer.closeGroup.
    destruct (_ && _).
    + rewrite !withoutBackslashes_app.
      destruct (closes_chars _ _ Hcl) as [[-> ->] | [-> ->]]; cbn;
        by rewrite withoutBackslashes_app.
    + by rewrite (substring_group _ _ _ _ _ _ _ Hr Hlt Hi).
  - apply dropN_0.
  - by split.
  - done.
Qed.

(** X15: a text without backtick that has no opening parenthesis or
    bracket, or none of the characters = \ _ ^ > <, comes back from
    [preprocessMath] unchanged. *)
Theorem preprocessMath_leaves_plain_text (text : string) :
  noBacktick text = true →
  Renderer.anyChar Renderer.isOpen text = false ∨ Renderer.mathSymbols text = false →
  Renderer.preprocessMath text = text.
Proof.
  intros H Hplain. rewrite (preprocessMath_plain _ H).
  apply (scanLoop_rel eq).
  - done.
  - by intros a b c d -> ->.
  - intros last char i rest' r Hi Hcl Hlt Hop Hr.
    destruct Hplain as [Hno | Hno].
    + apply (anyChar_dropN _ (Renderer.e_index last)) in Hno.
      rewrite Hr in Hno. cbn in Hno. by rewrite Hop in Hno.
    + unfold Renderer.closeGroup.
      unfold Renderer.mathSymbols in *.
      by rewrite (anyChar_substring _ _ _ _ Hno).
  - apply dropN_0.
  - by split.
  - done.
Qed.

Lemma preprocessMath_leaves_plain_text_witness :
  Renderer.preprocessMath "Pick (a) or [b], not both" = "Pick (a) or [b], not both".
Proof.
  apply preprocessMath_leaves_plain_text; [reflexivity|]. right. reflexivity.
Defined.

Section Convert.
Import JS Renderer.

Lemma takeN_app_length a x : takeN (String.length a) (a +:+ x) = a.
Proof.
  induction a as [|c a IH]; [by destruct x|].
  rewrite str_app_cons. cbn. by rewrite IH.
Qed.

Lemma dropN_app_length a x : dropN (String.length a) (a +:+ x) = x.
Proof.
  induction a as [|c a IH]; [apply dropN_0|].
  rewrite str_app_cons. cbn. exact IH.
Qed.

Lemma length_app_str a b :
  String.length (a +:+ b) = String.length a + String.length b.
Proof.
  induction a as [|c a IH]; [done|]. rewrite str_app_cons. cbn. by rewrite IH.
Qed.

(** Over characters that are no bracket the scan only advances. *)
Lemma scanLoop_no_bracket t a rest i prev result stack lastIndex :
  anyChar isBracket a = false →
  scanLoop t (a +:+ rest) i prev result stack lastIndex
  = scanLoop t rest (i + String.length a) (lastChar prev a) result stack lastIndex.
Proof.
  revert i prev. induction a as [|c a IH]; intros i prev Ha.
  - rewrite str_app_nil_l. cbn. by rewrite Nat.add_0_r.
  - cbn in Ha. apply orb_false_iff in Ha as [Hc Ha].
    unfold isBracket in Hc. apply orb_false_iff in Hc as [Ho Hc].
    rewrite str_app_cons. cbn [scanLoop lastChar String.length].
    rewrite Ho, Hc. replace (i + S (String.length a)) with (S i + String.length a) by lia.
    destruct (escaped prev); by apply IH.
Qed.

Lemma scanLoop_no_bracket_end t a i prev result stack lastIndex :
  anyChar isBracket a = false →
  scanLoop t a i prev result stack lastIndex = result +:+ dropN lastIndex t.
Proof.
  intros Ha. rewrite <- (str_app_nil_r a) at 1.
  by rewrite scanLoop_no_bracket.
Qed.

Lemma lastChar_escaped prev a :
  escaped prev = false → anyChar (fun c => Ascii.eqb c backslash) a = false →
  escaped (lastChar prev a) = false.
Proof.
  revert prev. induction a as [|c a IH]; intros prev Hp Ha; [done|].
  cbn in Ha. apply orb_false_iff in Ha as [Hc Ha]. cbn. by apply IH.
Qed.

End Convert.

(** X16: a top-level group that looks like mathematics is given LaTeX
    delimiters.  In a text without backtick and without backslash, made
    of a part without brackets, a parenthesised or bracketed content
    without brackets that holds one of = _ ^ > < and does not begin with
    two dollar signs, and a rest without brackets, [preprocessMath] puts a
    backslash before the opening and before the closing character of the
    group and changes nothing else. *)
Theorem preprocessMath_converts_math_group
    (before content after : string) (o c : ascii) :
  Renderer.closes o c = true →
  noBacktick (before +:+ content +:+ after) = true →
  Renderer.anyChar isBracket (before +:+ content +:+ after) = false →
  Renderer.anyChar (fun x => Ascii.eqb x Renderer.backslash) (before +:+ content) = false →
  Renderer.mathSymbols content = true →
  Renderer.isExplicitLatex content = false →
  Renderer.preprocessMath (before +:+ String o (content +:+ String c after))
  = before +:+ String Renderer.backslash
      (String o (content +:+ String Renderer.backslash (String c after))).
Proof.
  intros Hcl Htick Hbr Hbs Hmath Hlatex.
  set (t := before +:+ String o (content +:+ String c after)).
  assert (Hoc : (o = "("%char ∧ c = ")"%char) ∨ (o = "["%char ∧ c = "]"%char))
    by by apply closes_chars.
  unfold noBacktick in Htick. apply negb_true_iff in Htick.
  rewrite !anyChar_app in Htick. rewrite !anyChar_app in Hbr.
  rewrite anyChar_app in Hbs.
  apply orb_false_iff in Htick as [Ht1 [Ht2 Ht3]%orb_false_iff].
  apply orb_false_iff in Hbr as [Hb1 [Hb2 Hb3]%orb_false_iff].
  apply orb_false_iff in Hbs as [Hs1 Hs2].
  assert (Hplain : noBacktick t = true).
  { unfold noBacktick, t. apply negb_true_iff.
    rewrite anyChar_app. cbn. rewrite anyChar_app. cbn.
    rewrite Ht1, Ht2, Ht3. by destruct Hoc as [[-> ->] | [-> ->]]. }
  rewrite (preprocessMath_plain _ Hplain).
  assert (Hopen : Renderer.isOpen o = true ∧ Renderer.isClose o = false ∧
                  Renderer.isOpen c = false ∧ Renderer.isClose c = true ∧
                  Ascii.eqb o Renderer.backslash = false)
    by (by destruct Hoc as [[-> ->] | [-> ->]]).
  destruct Hopen as (Ho1 & Ho2 & Hc1 & Hc2 & Ho3).
  unfold t at 2.
  rewrite (scanLoop_no_bracket _ _ _ _ _ _ _ _ Hb1).
  cbn [Renderer.scanLoop].
  rewrite (lastChar_escaped None before eq_refl Hs1), Ho1.
  rewrite (scanLoop_no_bracket _ _ _ _ _ _ _ _ Hb2).
  cbn [Renderer.scanLoop].
  rewrite (lastChar_escaped (Some o) content Ho3 Hs2), Hc1, Hc2.
  cbn [Renderer.e_char]. rewrite Hcl.
  rewrite (scanLoop_no_bracket_end _ _ _ _ _ _ _ Hb3).
  (* the pieces of the text the loop has cut out *)
  assert (E1 : Renderer.substring t 0 (0 + String.length before) = before).
  { rewrite substring_le by lia. rewrite dropN_0.
    replace (0 + String.length before - 0) with (String.length before) by lia.
    apply takeN_app_length. }
  assert (E2 : Renderer.dropN (S (0 + String.length before)) t
               = content +:+ String c after).
  { apply (dropN_S _ _ o). cbn. apply dropN_app_length. }
  assert (E3 : Renderer.substring t (0 + String.length before + 1)
                 (S (0 + String.length before) + String.length content) = content).
  { rewrite substring_le by lia.
    replace (0 + String.length before + 1) with (S (0 + String.length before)) by lia.
    rewrite E2.
    replace (S (0 + String.length before) + String.length content
             - S (0 + String.length before)) with (String.length content) by lia.
    apply takeN_app_length. }
  assert (E4 : Renderer.dropN
                 (S (0 + String.length before) + String.length content + 1) t
               = after).
  { replace (S (0 + String.length before) + String.length content + 1)
      with (S (S (0 + String.length before) + String.length content)) by lia.
    apply (dropN_S _ _ c).
    rewrite <- dropN_add, E2. apply dropN_app_length. }
  rewrite E1. unfold Renderer.closeGroup. cbn [Renderer.e_index Renderer.e_char].
  rewrite E3, Hmath, Hlatex, E4. cbn [andb negb].
  rewrite str_app_nil_l, !str_app_assoc.
  by destruct Hoc as [[-> ->] | [-> ->]].
Qed.

Lemma preprocessMath_converts_math_group_witness :
  Renderer.preprocessMath "Let (x^2 = 4) hold" = "Let \(x^2 = 4\) hold".
Proof.
  apply (preprocessMath_converts_math_group "Let " "x^2 = 4" " hold" "(" ")");
    reflexivity.
Defined.

Lemma preprocessMath_only_adds_backslashes_witness :
  Renderer.withoutBackslashes (Renderer.preprocessMath "If (a_1 > 0) then [b]")
  = Renderer.withoutBackslashes "If (a_1 > 0) then [b]".
Proof. apply preprocessMath_only_adds_backslashes. reflexivity. Defined.

(** ** Generated text *)

Section Fences.
Import JS Gemini.

Lemma dropWhile_idem p s : dropWhile p (dropWhile p s) = dropWhile p s.
Proof.
  induction s as [|c r IH]; [done|]. cbn.
  destruct (p c) eqn:Hc; [done|]. cbn. by rewrite Hc.
Qed.

Lemma trimEnd_idem s : trimEnd (trimEnd s) = trimEnd s.
Proof.
  induction s as [|c r IH]; [done|]. cbn.
  destruct (isSpace c && isEmpty (trimEnd r)) eqn:E; [done|].
  cbn. by rewrite IH, E.
Qed.

Lemma trim_idem s : trim (trim s) = trim s.
Proof.
  unfold trim. by rewrite <- trimEnd_dropWhile, dropWhile_idem, trimEnd_idem.
Qed.

Lemma trimEnd_app_space s c :
  isSpace c = true → trimEnd (s +:+ String c EmptyString) = trimEnd s.
Proof.
  intros Hc. induction s as [|x s IH].
  - rewrite str_app_nil_l. cbn. by rewrite Hc.
  - rewrite str_app_cons. cbn. by rewrite IH.
Qed.

Lemma dropWhile_app_stop p a c rest :
  p c = false →
  dropWhile p (a +:+ String c rest) = dropWhile p a +:+ String c rest.
Proof.
  intros Hc. induction a as [|x a IH].
  - rewrite str_app_nil_l. cbn. by rewrite Hc.
  - rewrite str_app_cons. cbn. destruct (p x); [exact IH|done].
Qed.

Lemma dropWhile_all p a c rest :
  allChars p a = true → p c = false →
  dropWhile p (a +:+ String c rest) = String c rest.
Proof.
  intros Ha Hc. induction a as [|x a IH].
  - rewrite str_app_nil_l. cbn. by rewrite Hc.
  - cbn in Ha. apply andb_true_iff in Ha as [Hx Ha].
    rewrite str_app_cons. cbn. rewrite Hx. by apply IH.
Qed.

Lemma noBacktick_cons c r :
  noBacktick (String c r) = true →
  Ascii.eqb c Renderer.backtick = false ∧ noBacktick r = true.
Proof.
  unfold noBacktick. cbn. intros [Hc Hr]%negb_true_iff%orb_false_iff.
  by rewrite Hr.
Qed.

Lemma noBacktick_dropWhile p s :
  noBacktick s = true → noBacktick (dropWhile p s) = true.
Proof.
  induction s as [|c r IH]; [done|]. intros H. cbn.
  destruct (p c); [|done]. apply IH. by apply noBacktick_cons in H as [_ ?].
Qed.

Lemma hasPrefix_fence_false c r :
  Ascii.eqb c Renderer.backtick = false →
  Renderer.hasPrefix "```" (String c r) = false.
Proof.
  intros Hc.
  change (Renderer.hasPrefix "```" (String c r))
    with (Ascii.eqb Renderer.backtick c && Renderer.hasPrefix "``" r).
  by rewrite Ascii.eqb_sym, Hc.
Qed.

(** No fence is found inside a text without backtick. *)
Lemma removeEndFence_plain s : noBacktick s = true → removeEndFence s = s.
Proof.
  induction s as [|c r IH]; [done|].
  intros [Hc Hr]%noBacktick_cons. cbn [removeEndFence].
  rewrite (hasPrefix_fence_false _ _ Hc). cbn. by rewrite (IH Hr).
Qed.

Lemma removeStartFence_plain s : noBacktick s = true → removeStartFence s = s.
Proof.
  unfold removeStartFence. destruct s as [|c r]; [done|].
  intros [Hc _]%noBacktick_cons. by rewrite (hasPrefix_fence_false _ _ Hc).
Qed.

(** The closing fence is found right behind a text without backtick. *)
Lemma removeEndFence_fence s trailing :
  noBacktick s = true → allChars isSpace trailing = true →
  removeEndFence (s +:+ ("```" +:+ trailing)) = s.
Proof.
  intros Hs Ht. induction s as [|c r IH].
  - rewrite str_app_nil_l.
    change ("```" +:+ trailing) with (String "`" ("``" +:+ trailing)).
    cbn [removeEndFence].
    change (Renderer.hasPrefix "```" (String "`" ("``" +:+ trailing))) with true.
    change (Renderer.dropN 3 (String "`" ("``" +:+ trailing))) with trailing.
    by rewrite Ht.
  - apply noBacktick_cons in Hs as [Hc Hr].
    rewrite str_app_cons. cbn [removeEndFence].
    rewrite (hasPrefix_fence_false _ _ Hc). cbn. by rewrite (IH Hr).
Qed.

End Fences.

(** X17: [cleanGeneratedText] unwraps a fenced block.  For a text made of
    an opening fence with a language tag of letters, a line feed, a body
    without backtick, a line feed, the closing fence and white space, it
    returns the body trimmed. *)
Theorem cleanGeneratedText_unwraps (tag body trailing : string) :
  allChars JS.isLetter tag = true →
  noBacktick body = true →
  allChars JS.isSpace trailing = true →
  Gemini.cleanGeneratedText
    ("```" +:+ tag +:+ String JS.LF (body +:+ String JS.LF ("```" +:+ trailing)))
  = JS.trim body.
Proof.
  intros Htag Hbody Htrail.
  unfold Gemini.cleanGeneratedText, Gemini.removeStartFence.
  change (Renderer.hasPrefix "```" ("```" +:+ ?x)) with true.
  change (Renderer.dropN 3 ("```" +:+ ?x)) with x.
  cbn match.
  rewrite (dropWhile_all JS.isLetter tag JS.LF _ Htag eq_refl).
  change (JS.dropWhile JS.isSpace (String JS.LF ?x))
    with (JS.dropWhile JS.isSpace x).
  assert (E : body +:+ String JS.LF ("```" +:+ trailing)
              = (body +:+ String JS.LF EmptyString) +:+ String "`" ("``" +:+ trailing)).
  { by rewrite str_app_assoc. }
  rewrite E, (dropWhile_app_stop JS.isSpace _ "`" _ eq_refl).
  change (String "`" ("``" +:+ trailing)) with ("```" +:+ trailing).
  assert (Hplain : noBacktick (body +:+ String JS.LF EmptyString) = true).
  { unfold noBacktick in *. rewrite anyChar_app. cbn.
    apply negb_true_iff in Hbody. by rewrite Hbody. }
  rewrite removeEndFence_fence by (by apply noBacktick_dropWhile || done).
  unfold JS.trim. rewrite dropWhile_idem.
  rewrite !trimEnd_dropWhile. f_equal. by apply trimEnd_app_space.
Qed.

Lemma cleanGeneratedText_unwraps_witness :
  Gemini.cleanGeneratedText
    ("```" +:+ "text" +:+ String JS.LF
       ("1. Which one?" +:+ String JS.LF ("```" +:+ " ")))
  = JS.trim "1. Which one?".
Proof. apply cleanGeneratedText_unwraps; reflexivity. Defined.

(** X18: what [cleanGeneratedText] returns has no white space at either
    end, and on a text without backtick it is just [trim]. *)
Theorem cleanGeneratedText_trims (text : string) :
  JS.trim (Gemini.cleanGeneratedText text) = Gemini.cleanGeneratedText text ∧
  (noBacktick text = true → Gemini.cleanGeneratedText text = JS.trim text).
Proof.
  split.
  - apply trim_idem.
  - intros H. unfold Gemini.cleanGeneratedText.
    by rewrite (removeStartFence_plain _ H), (removeEndFence_plain _ H).
Qed.
